(** * SCU: the growable list ([src/list.c]) and the pseudorandom generator

    A shallow embedding of [scu_list_*Internal] and of the seeding and
    state-advance functions of [SCURandom], followed by the properties the
    specification states about them.

    Conventions of the embedding.
    - [int64_t] values are integers of [Z] inside [[INT64_MIN, INT64_MAX]];
      signed arithmetic that leaves the range is undefined behaviour in C
      and yields [Undefined]; [wrap64] gives the two's complement result
      where a statement needs it.  [uint64_t] values are integers of [Z]
      reduced modulo [2^64].
    - The single allocation [SCUHeader + items] is a record: the three
      header fields and the item storage as a list of bytes.  The handle
      [SCUList(void)*] a caller passes is the record itself; the updated
      handle is the record returned.
    - [SCU_MALLOC] / [SCU_REALLOC] consult an [Allocator], which decides
      whether a request is granted and what the indeterminate bytes of a
      fresh region contain.
    - Memory accesses outside the storage, reads past the end of a caller
      buffer and reads through a null pointer yield [Undefined]. *)

From Stdlib Require Import ZArith List Lia Bool.
From Stdlib.Strings Require Import Byte.
Import ListNotations.

Local Open Scope Z_scope.

(** ** Machine integers *)

Module Int64.

Definition INT64_MIN : Z := - 2 ^ 63.
Definition INT64_MAX : Z := 2 ^ 63 - 1.

Definition in_range (z : Z) : bool := (INT64_MIN <=? z) && (z <=? INT64_MAX).

(** Two's complement reduction of an integer to the [int64_t] range. *)
Definition wrap64 (z : Z) : Z := (z + 2 ^ 63) mod 2 ^ 64 - 2 ^ 63.

End Int64.
Export Int64.

(** ** Outcomes of a call: a returned value, or undefined behaviour *)

Inductive Outcome (A : Type) : Type :=
| Returned (a : A)
| Undefined.
Arguments Returned {A} a.
Arguments Undefined {A}.

Definition bind {A B : Type} (m : Outcome A) (k : A -> Outcome B) : Outcome B :=
  match m with
  | Returned a => k a
  | Undefined => Undefined
  end.

Declare Scope outcome_scope.
Delimit Scope outcome_scope with outcome.
Notation "x <- m ;; k" := (bind m (fun x => k))
  (at level 61, m at next level, right associativity) : outcome_scope.
Notation "' p <- m ;; k" := (bind m (fun x => match x with p => k end))
  (at level 61, p pattern, m at next level, right associativity)
  : outcome_scope.
Local Open Scope outcome_scope.

(** Signed 64-bit arithmetic as C defines it: a result outside the range is
    undefined. *)
Definition checked (z : Z) : Outcome Z :=
  if in_range z then Returned z else Undefined.

Definition add64 (a b : Z) : Outcome Z := checked (a + b).
Definition sub64 (a b : Z) : Outcome Z := checked (a - b).
Definition mul64 (a b : Z) : Outcome Z := checked (a * b).

(** ** Errors ([SCU/error.h]) *)

Inductive SCUError : Type :=
| SCU_ERROR_NONE
| SCU_ERROR_INVALID_ARGUMENT
| SCU_ERROR_OUT_OF_MEMORY
| SCU_ERROR_END_OF_FILE
| SCU_ERROR_READING_STREAM_FAILED
| SCU_ERROR_WRITING_BUFFER_FAILED.

(** ** Memory *)

(** A caller-supplied [const void*]: [None] is [nullptr], [Some bs] points
    at the bytes [bs] (and nothing is readable after them). *)
Definition Buffer : Type := option (list byte).

(** The allocator behind [SCU_MALLOC] and [SCU_REALLOC]: [grants size] tells
    whether a request of [size] bytes succeeds, [fresh k] is the
    indeterminate content of byte [k] of a region the block did not have
    before. *)
Record Allocator : Type := {
  grants : Z -> bool;
  fresh : nat -> byte
}.

(** [sizeof(SCUHeader)]: three [int64_t] fields, padded to the alignment of
    [max_align_t] (16 on the usual 64-bit targets). *)
Definition sizeof_SCUHeader : Z := 32.

(** The request [sizeof(SCUHeader) + (capacity * itemSize)]: the product is
    signed 64-bit arithmetic, the sum is [size_t] arithmetic. *)
Definition block_size (capacity itemSize : Z) : Outcome Z :=
  payload <- mul64 capacity itemSize ;;
  Returned ((sizeof_SCUHeader + payload mod 2 ^ 64) mod 2 ^ 64).

(** The item bytes of a block after it was (re)allocated with room for [n]
    of them: the bytes the old block had are kept, as far as they fit, and
    the remainder is fresh. *)
Definition resize (a : Allocator) (old : list byte) (n : nat) : list byte :=
  firstn n old ++ map (fresh a) (seq (length old) (n - length old)).

Definition SCU_REALLOC (a : Allocator) (old : list byte) (size : Z)
  : option (list byte) :=
  if grants a size
  then Some (resize a old (Z.to_nat (size - sizeof_SCUHeader)))
  else None.

Definition SCU_MALLOC (a : Allocator) (size : Z) : option (list byte) :=
  SCU_REALLOC a [] size.

(** [memmove(mem + dst, mem + src, n)] inside the storage [mem]; [n] is a
    [size_t], so a negative [int64_t] length is a huge one. *)
Definition memmove (mem : list byte) (dst src n : Z) : Outcome (list byte) :=
  if (0 <=? dst) && (0 <=? src) && (0 <=? n)
     && (dst + n <=? Z.of_nat (length mem))
     && (src + n <=? Z.of_nat (length mem))
  then Returned (firstn (Z.to_nat dst) mem
                 ++ firstn (Z.to_nat n) (skipn (Z.to_nat src) mem)
                 ++ skipn (Z.to_nat (dst + n)) mem)
  else Undefined.

(** [memcpy(mem + dst, src, n)] from a caller buffer. *)
Definition memcpy (mem : list byte) (dst : Z) (src : Buffer) (n : Z)
  : Outcome (list byte) :=
  match src with
  | None => Undefined
  | Some bs =>
      if (0 <=? dst) && (0 <=? n)
         && (dst + n <=? Z.of_nat (length mem))
         && (n <=? Z.of_nat (length bs))
      then Returned (firstn (Z.to_nat dst) mem
                     ++ firstn (Z.to_nat n) bs
                     ++ skipn (Z.to_nat (dst + n)) mem)
      else Undefined
  end.

(** The [const void* items] of a range insertion.  The header asks only
    that it point at enough bytes, so it may point at memory apart from the
    list ([nullptr] included) or into the list's own storage, [offset] bytes
    after its first item. *)
Inductive Items : Type :=
| Apart (buffer : Buffer)
| Within (offset : Z).

(** [memcpy(mem + dst, items, n)], the storage [mem] being as the calls
    before it left it.  A pointer into the list reads from [mem] itself; it
    is dangling when the block was reallocated since the caller took it
    ([moved]), and [memcpy] is undefined when the two regions overlap. *)
Definition memcpy_items
  (moved : bool) (mem : list byte) (dst : Z) (src : Items) (n : Z)
  : Outcome (list byte) :=
  match src with
  | Apart buffer => memcpy mem dst buffer n
  | Within offset =>
      if negb moved && (0 <=? offset)
         && ((offset + n <=? dst) || (dst + n <=? offset))
      then memcpy mem dst (Some (skipn (Z.to_nat offset) mem)) n
      else Undefined
  end.

(** ** The list ([src/list.c]) *)

Record SCUHeader : Type := {
  capacity : Z;
  count : Z;
  itemSize : Z;
  items : list byte
}.

Definition set_capacity (h : SCUHeader) (c : Z) (mem : list byte) : SCUHeader :=
  {| capacity := c; count := count h; itemSize := itemSize h; items := mem |}.

Definition set_count (h : SCUHeader) (n : Z) (mem : list byte) : SCUHeader :=
  {| capacity := capacity h; count := n; itemSize := itemSize h; items := mem |}.

Definition SCU_MAX (a b : Z) : Z := if a >? b then a else b.

Definition SCU_INITIAL_CAPACITY : Z := 8.

(** Byte offset of item [index] from the start of the storage. *)
Definition scu_list_itemAt (header : SCUHeader) (index : Z) : Outcome Z :=
  mul64 index (itemSize header).

Definition scu_list_withCapacityInternal (a : Allocator) (capacity itemSize : Z)
  : Outcome (option SCUHeader) :=
  if (capacity <? 0) || (itemSize <=? 0) then Returned None
  else
    size <- block_size capacity itemSize ;;
    match SCU_MALLOC a size with
    | None => Returned None
    | Some mem =>
        Returned (Some {| capacity := capacity; count := 0;
                          itemSize := itemSize; items := mem |})
    end.

Definition scu_list_newInternal (a : Allocator) (itemSize : Z)
  : Outcome (option SCUHeader) :=
  scu_list_withCapacityInternal a SCU_INITIAL_CAPACITY itemSize.

Definition scu_list_capacityInternal (list : SCUHeader) : Z := capacity list.
Definition scu_list_countInternal (list : SCUHeader) : Z := count list.
Definition scu_list_itemSizeInternal (list : SCUHeader) : Z := itemSize list.
Definition scu_list_isEmptyInternal (list : SCUHeader) : bool := count list =? 0.

(** The [while (newCapacity < capacity)] loop of
    [scu_list_ensureCapacityInternal].  The loop variable grows by a factor
    of one and a half, so it leaves the [int64_t] range within 128 rounds;
    [growth_rounds] is that bound (see [grow_fuel_irrelevant]). *)
Fixpoint grow (rounds : nat) (newCapacity capacity : Z) : Outcome Z :=
  if newCapacity <? capacity then
    match rounds with
    | O => Undefined
    | S rounds =>
        tripled <- mul64 newCapacity 3 ;;
        next <- add64 (Z.quot tripled 2) 1 ;;
        grow rounds next capacity
    end
  else Returned newCapacity.

Definition growth_rounds : nat := 128.

Definition scu_list_ensureCapacityInternal
  (a : Allocator) (list : SCUHeader) (capacity' : Z)
  : Outcome (SCUError * SCUHeader) :=
  if capacity' <? 0 then Returned (SCU_ERROR_INVALID_ARGUMENT, list)
  else if capacity list <? capacity' then
    newCapacity <- grow growth_rounds
                     (SCU_MAX (capacity list) SCU_INITIAL_CAPACITY) capacity' ;;
    size <- block_size newCapacity (itemSize list) ;;
    match SCU_REALLOC a (items list) size with
    | None => Returned (SCU_ERROR_OUT_OF_MEMORY, list)
    | Some mem => Returned (SCU_ERROR_NONE, set_capacity list newCapacity mem)
    end
  else Returned (SCU_ERROR_NONE, list).

Definition scu_list_addInternal (a : Allocator) (list : SCUHeader) (item : Buffer)
  : Outcome (SCUError * SCUHeader) :=
  required <- add64 (count list) 1 ;;
  '(error, list) <- scu_list_ensureCapacityInternal a list required ;;
  match error with
  | SCU_ERROR_NONE =>
      dst <- scu_list_itemAt list (count list) ;;
      mem <- memcpy (items list) dst item (itemSize list) ;;
      count' <- add64 (count list) 1 ;;
      Returned (SCU_ERROR_NONE, set_count list count' mem)
  | _ => Returned (error, list)
  end.

Definition scu_list_addRangeInternal
  (a : Allocator) (list : SCUHeader) (items' : Buffer) (count' : Z)
  : Outcome (SCUError * SCUHeader) :=
  if count' <? 0 then Returned (SCU_ERROR_INVALID_ARGUMENT, list)
  else if count' >? 0 then
    required <- add64 (count list) count' ;;
    '(error, list) <- scu_list_ensureCapacityInternal a list required ;;
    match error with
    | SCU_ERROR_NONE =>
        dst <- scu_list_itemAt list (count list) ;;
        n <- mul64 count' (itemSize list) ;;
        mem <- memcpy (items list) dst items' n ;;
        total <- add64 (count list) count' ;;
        Returned (SCU_ERROR_NONE, set_count list total mem)
    | _ => Returned (error, list)
    end
  else Returned (SCU_ERROR_NONE, list).

Definition scu_list_insertAtInternal
  (a : Allocator) (list : SCUHeader) (index : Z) (item : Buffer)
  : Outcome (SCUError * SCUHeader) :=
  if (index <? 0) || (index >? count list)
  then Returned (SCU_ERROR_INVALID_ARGUMENT, list)
  else
    required <- add64 (count list) 1 ;;
    '(error, list) <- scu_list_ensureCapacityInternal a list required ;;
    match error with
    | SCU_ERROR_NONE =>
        next <- add64 index 1 ;;
        dst <- scu_list_itemAt list next ;;
        src <- scu_list_itemAt list index ;;
        tail <- sub64 (count list) index ;;
        n <- mul64 tail (itemSize list) ;;
        mem <- memmove (items list) dst src n ;;
        mem <- memcpy mem src item (itemSize list) ;;
        count' <- add64 (count list) 1 ;;
        Returned (SCU_ERROR_NONE, set_count list count' mem)
    | _ => Returned (error, list)
    end.

Definition scu_list_insertRangeInternal
  (a : Allocator) (list : SCUHeader) (index : Z) (items' : Items) (count' : Z)
  : Outcome (SCUError * SCUHeader) :=
  if (index <? 0) || (index >? count list) || (count' <? 0)
  then Returned (SCU_ERROR_INVALID_ARGUMENT, list)
  else if count' >? 0 then
    required <- add64 (count list) count' ;;
    let moved := capacity list <? required in
    '(error, list) <- scu_list_ensureCapacityInternal a list required ;;
    match error with
    | SCU_ERROR_NONE =>
        past <- add64 index count' ;;
        dst <- scu_list_itemAt list past ;;
        src <- scu_list_itemAt list index ;;
        tail <- sub64 (count list) index ;;
        n <- mul64 tail (itemSize list) ;;
        mem <- memmove (items list) dst src n ;;
        len <- mul64 count' (itemSize list) ;;
        mem <- memcpy_items moved mem src items' len ;;
        total <- add64 (count list) count' ;;
        Returned (SCU_ERROR_NONE, set_count list total mem)
    | _ => Returned (error, list)
    end
  else Returned (SCU_ERROR_NONE, list).

Definition scu_list_removeAtInternal (list : SCUHeader) (index : Z)
  : Outcome (SCUError * SCUHeader) :=
  if (index <? 0) || (index >=? count list)
  then Returned (SCU_ERROR_INVALID_ARGUMENT, list)
  else
    dst <- scu_list_itemAt list index ;;
    next <- add64 index 1 ;;
    src <- scu_list_itemAt list next ;;
    tail <- sub64 (count list) index ;;
    tail <- sub64 tail 1 ;;
    n <- mul64 tail (itemSize list) ;;
    mem <- memmove (items list) dst src n ;;
    count' <- sub64 (count list) 1 ;;
    Returned (SCU_ERROR_NONE, set_count list count' mem).

Definition scu_list_removeRangeInternal (list : SCUHeader) (index count' : Z)
  : Outcome (SCUError * SCUHeader) :=
  if (index <? 0) || (count' <? 0)
  then Returned (SCU_ERROR_INVALID_ARGUMENT, list)
  else
    past <- add64 index count' ;;
    if past >? count list then Returned (SCU_ERROR_INVALID_ARGUMENT, list)
    else if count' >? 0 then
      dst <- scu_list_itemAt list index ;;
      src <- scu_list_itemAt list past ;;
      tail <- sub64 (count list) index ;;
      tail <- sub64 tail count' ;;
      n <- mul64 tail (itemSize list) ;;
      mem <- memmove (items list) dst src n ;;
      rest <- sub64 (count list) count' ;;
      Returned (SCU_ERROR_NONE, set_count list rest mem)
    else Returned (SCU_ERROR_NONE, list).

Definition scu_list_clearInternal (list : SCUHeader) : SCUHeader :=
  set_count list 0 (items list).

Definition scu_list_trimToCountInternal (a : Allocator) (list : SCUHeader)
  : Outcome (SCUError * SCUHeader) :=
  if capacity list >? count list then
    size <- block_size (count list) (itemSize list) ;;
    match SCU_REALLOC a (items list) size with
    | None => Returned (SCU_ERROR_OUT_OF_MEMORY, list)
    | Some mem => Returned (SCU_ERROR_NONE, set_capacity list (count list) mem)
    end
  else Returned (SCU_ERROR_NONE, list).

(** ** The same code where signed arithmetic wraps around *)

(** Signed overflow is undefined in C, and so it is above.  The code a
    compiler emits for a two's complement machine computes the wrapped
    result instead: here every [int64_t] sum, difference and product is
    [wrap64] of the exact one, and the functions read as above. *)
Module Wraparound.

Definition add64 (x y : Z) : Outcome Z := Returned (wrap64 (x + y)).
Definition sub64 (x y : Z) : Outcome Z := Returned (wrap64 (x - y)).
Definition mul64 (x y : Z) : Outcome Z := Returned (wrap64 (x * y)).

Definition scu_list_itemAt (header : SCUHeader) (index : Z) : Outcome Z :=
  mul64 index (itemSize header).

Definition scu_list_removeRangeInternal (list : SCUHeader) (index count' : Z)
  : Outcome (SCUError * SCUHeader) :=
  if (index <? 0) || (count' <? 0)
  then Returned (SCU_ERROR_INVALID_ARGUMENT, list)
  else
    past <- add64 index count' ;;
    if past >? count list then Returned (SCU_ERROR_INVALID_ARGUMENT, list)
    else if count' >? 0 then
      dst <- scu_list_itemAt list index ;;
      src <- scu_list_itemAt list past ;;
      tail <- sub64 (count list) index ;;
      tail <- sub64 tail count' ;;
      n <- mul64 tail (itemSize list) ;;
      mem <- memmove (items list) dst src n ;;
      rest <- sub64 (count list) count' ;;
      Returned (SCU_ERROR_NONE, set_count list rest mem)
    else Returned (SCU_ERROR_NONE, list).

End Wraparound.

(** [len] bytes of [l] from offset [off]. *)
Definition slice (off len : nat) (l : list byte) : list byte :=
  firstn len (skipn off l).

(** What a caller reads at [list[index]]: the [itemSize] bytes at the
    address [scu_list_itemAt] computes. *)
Definition read_item (header : SCUHeader) (index : Z) : list byte :=
  slice (Z.to_nat (index * itemSize header)) (Z.to_nat (itemSize header))
        (items header).

(** The bytes of the live items: the first [count * itemSize] bytes of the
    storage. *)
Definition contents (header : SCUHeader) : list byte :=
  firstn (Z.to_nat (count header * itemSize header)) (items header).

(** The live items, indices [0 .. count - 1], in order. *)
Definition elements (header : SCUHeader) : list (list byte) :=
  map (fun k => read_item header (Z.of_nat k)) (seq 0 (Z.to_nat (count header))).

(** The storage after the [memmove] of an insertion of [n] items at [i]:
    a pointer into the list reads from it. *)
Definition shifted (l : SCUHeader) (i n : Z) : list byte :=
  firstn (Z.to_nat ((i + n) * itemSize l)) (items l)
  ++ firstn (Z.to_nat ((count l - i) * itemSize l))
       (skipn (Z.to_nat (i * itemSize l)) (items l))
  ++ skipn (Z.to_nat ((i + n) * itemSize l + (count l - i) * itemSize l))
       (items l).

(** [scu_list_add] for each item in turn, stopping at the first error. *)
Fixpoint add_all (a : Allocator) (l : SCUHeader) (xs : list (list byte))
  : Outcome (SCUError * SCUHeader) :=
  match xs with
  | [] => Returned (SCU_ERROR_NONE, l)
  | x :: xs =>
      '(error, l') <- scu_list_addInternal a l (Some x) ;;
      match error with
      | SCU_ERROR_NONE => add_all a l' xs
      | _ => Returned (error, l')
      end
  end.

(** ** The public surface as data: one constructor per mutating operation *)

Inductive Call : Type :=
| Add (item : Buffer)
| AddRange (items' : Buffer) (count' : Z)
| InsertAt (index : Z) (item : Buffer)
| InsertRange (index : Z) (items' : Items) (count' : Z)
| RemoveAt (index : Z)
| RemoveRange (index count' : Z)
| Clear
| EnsureCapacity (capacity' : Z)
| TrimToCount.

Definition call (a : Allocator) (c : Call) (l : SCUHeader)
  : Outcome (SCUError * SCUHeader) :=
  match c with
  | Add item => scu_list_addInternal a l item
  | AddRange items' count' => scu_list_addRangeInternal a l items' count'
  | InsertAt index item => scu_list_insertAtInternal a l index item
  | InsertRange index items' count' =>
      scu_list_insertRangeInternal a l index items' count'
  | RemoveAt index => scu_list_removeAtInternal l index
  | RemoveRange index count' => scu_list_removeRangeInternal l index count'
  | Clear => Returned (SCU_ERROR_NONE, scu_list_clearInternal l)
  | EnsureCapacity capacity' => scu_list_ensureCapacityInternal a l capacity'
  | TrimToCount => scu_list_trimToCountInternal a l
  end.

(** The precondition on indices, counts and capacities the specification
    gives for each operation. *)
Definition precondition (c : Call) (l : SCUHeader) : Prop :=
  match c with
  | Add _ => True
  | AddRange _ count' => 0 <= count'
  | InsertAt index _ => 0 <= index <= count l
  | InsertRange index _ count' => 0 <= index <= count l /\ 0 <= count'
  | RemoveAt index => 0 <= index < count l
  | RemoveRange index count' =>
      0 <= index /\ 0 <= count' /\ index + count' <= count l
  | Clear => True
  | EnsureCapacity capacity' => 0 <= capacity'
  | TrimToCount => True
  end.

(** The lists a program can hold: created with item size [sz] by one of the
    two constructors, then taken through any calls that returned.  Every
    call may meet a different allocator state. *)
Inductive live (sz : Z) : SCUHeader -> Prop :=
| live_new a l :
    scu_list_newInternal a sz = Returned (Some l) -> live sz l
| live_withCapacity a cap l :
    scu_list_withCapacityInternal a cap sz = Returned (Some l) -> live sz l
| live_call a c l e l' :
    live sz l -> call a c l = Returned (e, l') -> live sz l'.

(** The representation invariant of a list. *)
Record wf (l : SCUHeader) : Prop := {
  wf_count : 0 <= count l <= capacity l;
  wf_itemSize : 0 < itemSize l;
  wf_bytes : capacity l * itemSize l <= INT64_MAX;
  wf_items : length (items l) = Z.to_nat (capacity l * itemSize l)
}.

(** The capacity a list of capacity [c] has after
    [scu_list_ensureCapacityInternal] succeeded with requirement [t]. *)
Definition ensured (c t : Z) : Outcome Z :=
  if c <? t then grow growth_rounds (SCU_MAX c SCU_INITIAL_CAPACITY) t
  else Returned c.

(** ** The growth policy in the words of the specification *)

(** [new = old*3/2 + 1]. *)
Definition expand (old : Z) : Z := old * 3 / 2 + 1.

(** [result] is what repeated expansion reaches, starting from
    [max(c, 8)], the first time it is at least [n]. *)
Definition grown (c n result : Z) : Prop :=
  exists k : nat,
    result = Nat.iter k expand (Z.max c 8)
    /\ n <= result
    /\ forall j : nat, (j < k)%nat -> Nat.iter j expand (Z.max c 8) < n.

(** ** Range operations as sequences of single-item operations *)

(** [n] calls of [scu_list_insertAt]: item [k] of the buffer goes to
    position [index + k]. *)
Fixpoint insert_one_by_one
  (a : Allocator) (l : SCUHeader) (index : Z) (bs : list byte) (n : nat)
  : Outcome (SCUError * SCUHeader) :=
  match n with
  | O => Returned (SCU_ERROR_NONE, l)
  | S n =>
      '(error, l') <- scu_list_insertAtInternal a l index (Some bs) ;;
      match error with
      | SCU_ERROR_NONE =>
          insert_one_by_one a l' (index + 1)
            (skipn (Z.to_nat (itemSize l)) bs) n
      | _ => Returned (error, l')
      end
  end.

(** [n] calls of [scu_list_removeAt] at the same position. *)
Fixpoint remove_one_by_one (l : SCUHeader) (index : Z) (n : nat)
  : Outcome (SCUError * SCUHeader) :=
  match n with
  | O => Returned (SCU_ERROR_NONE, l)
  | S n =>
      '(error, l') <- scu_list_removeAtInternal l index ;;
      match error with
      | SCU_ERROR_NONE => remove_one_by_one l' index n
      | _ => Returned (error, l')
      end
  end.

(** Two lists a caller cannot tell apart: same capacity, count and item
    size, and the same item at every index below the count. *)
Definition same_list (l1 l2 : SCUHeader) : Prop :=
  capacity l1 = capacity l2 /\ count l1 = count l2
  /\ itemSize l1 = itemSize l2 /\ elements l1 = elements l2.

(** ** Worked examples: lists of [int32_t] in little-endian byte order *)

Definition byte_of_Z (z : Z) : byte :=
  match Byte.of_N (Z.to_N (z mod 256)) with
  | Some b => b
  | None => x00
  end.

Definition int32_bytes (z : Z) : list byte :=
  map (fun k => byte_of_Z (Z.shiftr z (8 * k))) [0; 1; 2; 3].

Definition generous : Allocator := {| grants := fun _ => true; fresh := fun _ => xaa |}.
Definition exhausted : Allocator := {| grants := fun _ => false; fresh := fun _ => xaa |}.

(** A list of [int32_t] with the given capacity, filled by
    [scu_list_addRange]. *)
Definition list_of_int32 (a : Allocator) (cap : Z) (vs : list Z)
  : Outcome (option SCUHeader) :=
  r <- scu_list_withCapacityInternal a cap 4 ;;
  match r with
  | None => Returned None
  | Some l =>
      '(e, l) <- scu_list_addRangeInternal a l
                   (Some (concat (map int32_bytes vs)))
                   (Z.of_nat (length vs)) ;;
      Returned (Some l)
  end.

Definition empty_list : SCUHeader :=
  {| capacity := 0; count := 0; itemSize := 1; items := [] |}.

Definition returned_list (r : Outcome (option SCUHeader)) : SCUHeader :=
  match r with
  | Returned (Some l) => l
  | _ => empty_list
  end.

Definition updated_list (r : Outcome (SCUError * SCUHeader)) : SCUHeader :=
  match r with
  | Returned (_, l) => l
  | Undefined => empty_list
  end.

(** The lists of the worked examples. *)
Definition list_1_2_3 : SCUHeader :=
  Eval vm_compute in returned_list (list_of_int32 generous 3 [1; 2; 3]).

Definition list_1_99_2_3 : SCUHeader :=
  Eval vm_compute in
    updated_list
      (scu_list_insertAtInternal generous list_1_2_3 1 (Some (int32_bytes 99))).

Definition list_10_to_50 : SCUHeader :=
  Eval vm_compute in
    returned_list (list_of_int32 generous 5 [10; 20; 30; 40; 50]).

Definition list_10_40_50 : SCUHeader :=
  Eval vm_compute in
    updated_list (scu_list_removeRangeInternal list_10_to_50 1 2).

Definition seven_eight : list byte :=
  Eval vm_compute in concat (map int32_bytes [7; 8]).

Definition list_1_7_8_2_3 : SCUHeader :=
  Eval vm_compute in
    updated_list
      (scu_list_insertRangeInternal generous list_1_2_3 1
         (Apart (Some seven_eight)) 2).

Definition new_list_of_int32 : SCUHeader :=
  Eval vm_compute in returned_list (scu_list_newInternal generous 4).

Definition list_0_to_8 : SCUHeader :=
  Eval vm_compute in
    updated_list
      (add_all generous new_list_of_int32
         (map int32_bytes [0; 1; 2; 3; 4; 5; 6; 7; 8])).

Definition list_0_to_8_trimmed : SCUHeader :=
  Eval vm_compute in
    updated_list (scu_list_trimToCountInternal generous list_0_to_8).

(** [[1, 2, 3, 4]] with room for six items, and what
    [scu_list_insertRange(list, 0, &list[2], 2)] makes of it. *)
Definition list_1_2_3_4 : SCUHeader :=
  Eval vm_compute in returned_list (list_of_int32 generous 6 [1; 2; 3; 4]).


Definition list_1_2_1_2_3_4 : SCUHeader :=
  Eval vm_compute in
    updated_list
      (scu_list_insertRangeInternal generous list_1_2_3_4 0 (Within 8) 2).

(** [[10, 20, 30, 40, 50]] added to a list from [scu_list_new], and what
    [scu_list_removeRange(list, 1, INT64_MAX)] makes of it where signed
    arithmetic wraps around. *)
Definition tens : list byte :=
  Eval vm_compute in concat (map int32_bytes [10; 20; 30; 40; 50]).

Definition new_list_10_to_50 : SCUHeader :=
  Eval vm_compute in
    updated_list
      (scu_list_addRangeInternal generous new_list_of_int32 (Some tens) 5).

Definition list_after_overflow : SCUHeader :=
  Eval vm_compute in
    updated_list
      (Wraparound.scu_list_removeRangeInternal new_list_10_to_50 1 INT64_MAX).


(** ** The pseudorandom generator *)

Module Random.

Definition uint64 (z : Z) : Z := z mod 2 ^ 64.
Definition uint32 (z : Z) : Z := z mod 2 ^ 32.

(** Conversion of a [uint64_t] to [int64_t], and of a [uint32_t] to
    [int32_t]. *)
Definition to_int64 (z : Z) : Z := if z <? 2 ^ 63 then z else z - 2 ^ 64.
Definition to_int32 (z : Z) : Z := if z <? 2 ^ 31 then z else z - 2 ^ 32.

(** [uint64_t state[4]]. *)
Record State : Type := { s0 : Z; s1 : Z; s2 : Z; s3 : Z }.

Definition state_get (st : State) (i : Z) : Z :=
  match i with
  | 0 => s0 st
  | 1 => s1 st
  | 2 => s2 st
  | _ => s3 st
  end.

Definition state_set (st : State) (i : Z) (v : Z) : State :=
  match i with
  | 0 => {| s0 := v; s1 := s1 st; s2 := s2 st; s3 := s3 st |}
  | 1 => {| s0 := s0 st; s1 := v; s2 := s2 st; s3 := s3 st |}
  | 2 => {| s0 := s0 st; s1 := s1 st; s2 := v; s3 := s3 st |}
  | _ => {| s0 := s0 st; s1 := s1 st; s2 := s2 st; s3 := v |}
  end.

Record SCURandom : Type := {
  seed : Z;
  state : State
}.

Definition scu_rotateLeft (value bits : Z) : Z :=
  Z.lor (uint64 (Z.shiftl value bits)) (Z.shiftr value (64 - bits)).

Definition scu_next (random : SCURandom) : Z * SCURandom :=
  let st := state random in
  let result := uint64 (scu_rotateLeft (uint64 (state_get st 1 * 5)) 7 * 9) in
  let temp := uint64 (Z.shiftl (state_get st 1) 17) in
  let st := state_set st 2 (Z.lxor (state_get st 2) (state_get st 0)) in
  let st := state_set st 3 (Z.lxor (state_get st 3) (state_get st 1)) in
  let st := state_set st 1 (Z.lxor (state_get st 1) (state_get st 2)) in
  let st := state_set st 0 (Z.lxor (state_get st 0) (state_get st 3)) in
  let st := state_set st 2 (Z.lxor (state_get st 2) temp) in
  let st := state_set st 3 (scu_rotateLeft (state_get st 3) 45) in
  (result, {| seed := seed random; state := st |}).

(** One round of the [for] loop of [scu_random_setSeed]. *)
Definition seed_round (acc : Z * State) (i : Z) : Z * State :=
  let '(seed, st) := acc in
  let seed := uint64 (seed + 0x9E3779B97F4A7C15) in
  let z := seed in
  let z := uint64 (Z.lxor z (Z.shiftr z 30) * 0xBF58476D1CE4E5B9) in
  let z := uint64 (Z.lxor z (Z.shiftr z 27) * 0x94D049BB133111EB) in
  (seed, state_set st i (Z.lxor z (Z.shiftr z 31))).

Definition scu_random_setSeed (random : SCURandom) (seed : Z) : SCURandom :=
  let seed := uint64 seed in
  {| seed := seed;
     state := snd (fold_left seed_round [0; 1; 2; 3] (seed, state random)) |}.

(** The [uint64_t] stored in eight bytes, least significant first. *)
Fixpoint word_of_bytes (bs : list byte) : Z :=
  match bs with
  | [] => 0
  | b :: bs => Z.of_N (Byte.to_N b) + 256 * word_of_bytes bs
  end.

(** [SCU_MALLOC(sizeof(SCURandom))]: five [uint64_t] whose content is
    whatever the fresh block holds, then [scu_random_setSeed]. *)
Definition scu_random_withSeed (a : Allocator) (seed : Z) : option SCURandom :=
  if grants a 40 then
    let w k := word_of_bytes (map (fresh a) (seq (8 * k) 8)) in
    Some (scu_random_setSeed
            {| seed := w 0%nat;
               state := {| s0 := w 1%nat; s1 := w 2%nat;
                           s2 := w 3%nat; s3 := w 4%nat |} |} seed)
  else None.

Definition scu_random_getSeed (random : SCURandom) : Z := to_int64 (seed random).

(** The rejection loop [do { result = draw(); } while (result < threshold)],
    bounded by [rounds]. *)
Fixpoint reject (rounds : nat) (draw : SCURandom -> Z * SCURandom)
  (threshold : Z) (random : SCURandom) : option (Z * SCURandom) :=
  match rounds with
  | O => None
  | S rounds =>
      let '(result, random) := draw random in
      if result <? threshold then reject rounds draw threshold random
      else Some (result, random)
  end.

Definition top32 (random : SCURandom) : Z * SCURandom :=
  let '(r, random) := scu_next random in (Z.shiftr r 32, random).

Definition scu_random_uint32 (rounds : nat) (random : SCURandom) (min max : Z)
  : option (Z * SCURandom) :=
  if min >=? max then Some (min, random)
  else
    let range := uint32 (max - min) in
    let threshold := uint32 (- range) mod range in
    match reject rounds top32 threshold random with
    | Some (result, random) => Some (uint32 (min + result mod range), random)
    | None => None
    end.

Definition scu_random_int32 (rounds : nat) (random : SCURandom) (min max : Z)
  : option (Z * SCURandom) :=
  if min >=? max then Some (min, random)
  else
    let range := uint32 (uint32 max - min) in
    let threshold := uint32 (- range) mod range in
    match reject rounds top32 threshold random with
    | Some (result, random) =>
        Some (to_int32 (uint32 (min + result mod range)), random)
    | None => None
    end.

Definition scu_random_uint64 (rounds : nat) (random : SCURandom) (min max : Z)
  : option (Z * SCURandom) :=
  if min >=? max then Some (min, random)
  else
    let range := uint64 (max - min) in
    let threshold := uint64 (- range) mod range in
    match reject rounds scu_next threshold random with
    | Some (result, random) => Some (uint64 (min + result mod range), random)
    | None => None
    end.

Definition scu_random_int64 (rounds : nat) (random : SCURandom) (min max : Z)
  : option (Z * SCURandom) :=
  if min >=? max then Some (min, random)
  else
    let range := uint64 (uint64 max - min) in
    let threshold := uint64 (- range) mod range in
    match reject rounds scu_next threshold random with
    | Some (result, random) =>
        Some (to_int64 (uint64 (min + result mod range)), random)
    | None => None
    end.

(** A sampling call and the outputs of a sequence of them.  The two
    floating-point samplers draw one [scu_next] each and scale it; they are
    left out, floating-point arithmetic not being modelled. *)
Inductive Sample : Type :=
| Int32 (min max : Z)
| UInt32 (min max : Z)
| Int64 (min max : Z)
| UInt64 (min max : Z).

Definition sample (rounds : nat) (random : SCURandom) (c : Sample)
  : option (Z * SCURandom) :=
  match c with
  | Int32 min max => scu_random_int32 rounds random min max
  | UInt32 min max => scu_random_uint32 rounds random min max
  | Int64 min max => scu_random_int64 rounds random min max
  | UInt64 min max => scu_random_uint64 rounds random min max
  end.

Fixpoint outputs (rounds : nat) (random : SCURandom) (cs : list Sample)
  : list (option Z) :=
  match cs with
  | [] => []
  | c :: cs =>
      match sample rounds random c with
      | Some (v, random) => Some v :: outputs rounds random cs
      | None => [None]
      end
  end.

(** SplitMix64 as its authors give it: the state advances by the golden
    gamma, the output is the mixed state. *)
Definition splitmix64 (x : Z) : Z * Z :=
  let x := uint64 (x + 0x9E3779B97F4A7C15) in
  let z := x in
  let z := uint64 (Z.lxor z (Z.shiftr z 30) * 0xBF58476D1CE4E5B9) in
  let z := uint64 (Z.lxor z (Z.shiftr z 27) * 0x94D049BB133111EB) in
  (x, Z.lxor z (Z.shiftr z 31)).

(** The first four outputs of SplitMix64 started at [seed]. *)
Definition splitmix64_state (seed : Z) : State :=
  let '(x, a) := splitmix64 seed in
  let '(x, b) := splitmix64 x in
  let '(x, c) := splitmix64 x in
  let '(x, d) := splitmix64 x in
  {| s0 := a; s1 := b; s2 := c; s3 := d |}.

(** The generator of the worked examples: seeded with 42. *)
Definition seeded_42 : SCURandom :=
  scu_random_setSeed
    {| seed := 0; state := {| s0 := 0; s1 := 0; s2 := 0; s3 := 0 |} |} 42.

End Random.


(** ** Lines and formatted text in a growing buffer ([io.c]) *)

Module IO.

(** [static constexpr int64_t SCU_INITIAL_CAPACITY = 128]. *)
Definition SCU_INITIAL_CAPACITY : Z := 128.

(** What [char** buffer] and [int64_t* capacity] point to: the block, if
    there is one, and the capacity the caller keeps beside it. *)
Record Target : Type := {
  buffer : Buffer;
  capacity : Z
}.

Definition is_null (b : Buffer) : bool :=
  match b with
  | None => true
  | Some _ => false
  end.

(** [SCU_REALLOC(ptr, size)] of a block of characters: [realloc], which
    allocates when [ptr] is a [nullptr], keeps the bytes of the old block as
    far as they fit, and leaves the old block alone when it fails. *)
Definition SCU_REALLOC (a : Allocator) (old : Buffer) (size : Z) : Buffer :=
  if grants a size
  then Some (resize a (match old with Some bs => bs | None => [] end)
                    (Z.to_nat size))
  else None.

Definition scu_ensureCapacity
  (a : Allocator) (t : Target) (requiredCapacity : Z)
  : Outcome (SCUError * Target) :=
  if (capacity t <? 0) || (requiredCapacity <? 0)
     || xorb (is_null (buffer t)) (capacity t =? 0)
  then Returned (SCU_ERROR_INVALID_ARGUMENT, t)
  else if capacity t <? requiredCapacity then
    newCapacity <- grow growth_rounds (SCU_MAX (capacity t) 1)
                     requiredCapacity ;;
    match SCU_REALLOC a (buffer t) newCapacity with
    | None => Returned (SCU_ERROR_OUT_OF_MEMORY, t)
    | Some mem =>
        Returned (SCU_ERROR_NONE,
                  {| buffer := Some mem; capacity := newCapacity |})
    end
  else Returned (SCU_ERROR_NONE, t).

(** A [FILE*] opened for reading: the characters still to come, whether
    reading past them fails (rather than meeting the end of the file), and
    the two indicators of the stream. *)
Record FILE : Type := {
  pending : list byte;
  failing : bool;
  eof_indicator : bool;
  error_indicator : bool
}.

Definition feof (stream : FILE) : bool := eof_indicator stream.
Definition ferror (stream : FILE) : bool := error_indicator stream.

(** [fgetc]: [None] is [EOF].  With the end-of-file indicator set nothing
    is read; a failed read sets the error indicator, the end of the file
    sets the end-of-file indicator. *)
Definition fgetc (stream : FILE) : option byte * FILE :=
  if eof_indicator stream then (None, stream)
  else
    match pending stream with
    | c :: rest =>
        (Some c, {| pending := rest; failing := failing stream;
                    eof_indicator := eof_indicator stream;
                    error_indicator := error_indicator stream |})
    | [] =>
        if failing stream
        then (None, {| pending := []; failing := failing stream;
                       eof_indicator := eof_indicator stream;
                       error_indicator := true |})
        else (None, {| pending := []; failing := failing stream;
                       eof_indicator := true;
                       error_indicator := error_indicator stream |})
    end.

(** The assignment to [buffer[index]], inside the block. *)
Definition store (t : Target) (index : Z) (c : byte) : Outcome Target :=
  match buffer t with
  | None => Undefined
  | Some mem =>
      if (0 <=? index) && (index <? Z.of_nat (length mem))
      then Returned {| buffer := Some (firstn (Z.to_nat index) mem
                                       ++ c :: skipn (S (Z.to_nat index)) mem);
                       capacity := capacity t |}
      else Undefined
  end.

Definition is_newline (c : byte) : bool := Byte.eqb c x0a.
Definition is_nul (c : byte) : bool := Byte.eqb c x00.

(** The [while ((c = fgetc(stream)) != EOF)] loop of [scu_readLine]; every
    round takes one character off the stream, so [rounds] above their
    number is never what stops it. *)
Fixpoint read_chars (rounds : nat) (a : Allocator) (stream : FILE)
  (t : Target) (index : Z) : Outcome (SCUError * FILE * Target * Z) :=
  match rounds with
  | O => Undefined
  | S rounds =>
      match fgetc stream with
      | (None, stream) => Returned (SCU_ERROR_NONE, stream, t, index)
      | (Some c, stream) =>
          required <- add64 index 2 ;;
          '(error, t) <- scu_ensureCapacity a t required ;;
          match error with
          | SCU_ERROR_NONE =>
              t <- store t index c ;;
              index <- add64 index 1 ;;
              if is_newline c
              then Returned (SCU_ERROR_NONE, stream, t, index)
              else read_chars rounds a stream t index
          | _ => Returned (error, stream, t, index)
          end
      end
  end.

Definition scu_readLine (a : Allocator) (stream : FILE) (t : Target)
  : Outcome (SCUError * FILE * Target) :=
  if (capacity t <? 0) || xorb (is_null (buffer t)) (capacity t =? 0)
  then Returned (SCU_ERROR_INVALID_ARGUMENT, stream, t)
  else
    '(error, t) <- (if is_null (buffer t)
                    then scu_ensureCapacity a t SCU_INITIAL_CAPACITY
                    else Returned (SCU_ERROR_NONE, t)) ;;
    match error with
    | SCU_ERROR_NONE =>
        '(error, stream, t, index) <-
          read_chars (S (length (pending stream))) a stream t 0 ;;
        match error with
        | SCU_ERROR_NONE =>
            t <- store t index x00 ;;
            if ferror stream
            then Returned (SCU_ERROR_READING_STREAM_FAILED, stream, t)
            else if feof stream && (index =? 0)
            then Returned (SCU_ERROR_END_OF_FILE, stream, t)
            else Returned (SCU_ERROR_NONE, stream, t)
        | _ => Returned (error, stream, t)
        end
    | _ => Returned (error, stream, t)
    end.

Definition INT_MAX : Z := 2 ^ 31 - 1.

(** A format string with its arguments is given by the characters it
    produces, [None] when formatting fails.  [vsnprintf(nullptr, 0, ...)]
    returns their number, or a negative value when formatting fails or the
    number does not fit an [int]. *)
Definition vsnprintf_length (text : option (list byte)) : Z :=
  match text with
  | None => -1
  | Some s =>
      if Z.of_nat (length s) <=? INT_MAX then Z.of_nat (length s) else -1
  end.

(** [vsnprintf(mem + offset, n, ...)], [n] being a [size_t]: nothing is
    written when [n] is zero, otherwise at most [n - 1] characters and a
    terminating zero. *)
Definition vsnprintf (mem : Buffer) (offset n : Z) (text : option (list byte))
  : Outcome (Z * Buffer) :=
  match text with
  | None => Returned (-1, mem)
  | Some s =>
      let n := n mod 2 ^ 64 in
      if n =? 0 then Returned (vsnprintf_length text, mem)
      else
        match mem with
        | None => Undefined
        | Some bytes =>
            let written := firstn (Z.to_nat (n - 1)) s ++ [x00] in
            if (0 <=? offset)
               && (offset + Z.of_nat (length written)
                   <=? Z.of_nat (length bytes))
            then Returned
                   (vsnprintf_length text,
                    Some (firstn (Z.to_nat offset) bytes ++ written
                          ++ skipn (Z.to_nat offset + length written) bytes))
            else Undefined
        end
  end.

Definition scu_vrsnprintf
  (a : Allocator) (t : Target) (text : option (list byte))
  : Outcome (SCUError * Target) :=
  if (capacity t <? 0) || xorb (is_null (buffer t)) (capacity t =? 0)
  then Returned (SCU_ERROR_INVALID_ARGUMENT, t)
  else
    let length := vsnprintf_length text in
    if length <? 0 then Returned (SCU_ERROR_WRITING_BUFFER_FAILED, t)
    else
      required <- add64 length 1 ;;
      '(error, t) <- scu_ensureCapacity a t required ;;
      match error with
      | SCU_ERROR_NONE =>
          '(written, mem) <- vsnprintf (buffer t) 0 (capacity t) text ;;
          let t := {| buffer := mem; capacity := capacity t |} in
          if written <? 0
          then Returned (SCU_ERROR_WRITING_BUFFER_FAILED, t)
          else Returned (SCU_ERROR_NONE, t)
      | _ => Returned (error, t)
      end.

(** The variadic [scu_rsnprintf] hands its arguments to
    [scu_vrsnprintf]. *)
Definition scu_rsnprintf := scu_vrsnprintf.

(** [strnlen(mem, maxlen)]: the number of characters before the first zero
    among the first [maxlen]; reading past the block is undefined. *)
Fixpoint scan (mem : list byte) (maxlen : nat) : Outcome Z :=
  match maxlen with
  | O => Returned 0
  | S maxlen =>
      match mem with
      | [] => Undefined
      | c :: rest =>
          if is_nul c then Returned 0
          else n <- scan rest maxlen ;; Returned (n + 1)
      end
  end.

Definition strnlen (mem : list byte) (maxlen : Z) : Outcome Z :=
  scan mem (Z.to_nat (maxlen mod 2 ^ 64)).

Definition scu_vrasnprintf
  (a : Allocator) (t : Target) (text : option (list byte))
  : Outcome (SCUError * Target) :=
  if (capacity t <? 0) || xorb (is_null (buffer t)) (capacity t =? 0)
  then Returned (SCU_ERROR_INVALID_ARGUMENT, t)
  else
    match buffer t with
    | None => scu_vrsnprintf a t text
    | Some mem =>
        offset <- strnlen mem (capacity t) ;;
        let length := vsnprintf_length text in
        if length <? 0 then Returned (SCU_ERROR_WRITING_BUFFER_FAILED, t)
        else
          required <- add64 offset length ;;
          required <- add64 required 1 ;;
          '(error, t) <- scu_ensureCapacity a t required ;;
          match error with
          | SCU_ERROR_NONE =>
              room <- sub64 (capacity t) offset ;;
              '(written, mem) <- vsnprintf (buffer t) offset room text ;;
              let t := {| buffer := mem; capacity := capacity t |} in
              if written <? 0
              then Returned (SCU_ERROR_WRITING_BUFFER_FAILED, t)
              else Returned (SCU_ERROR_NONE, t)
          | _ => Returned (error, t)
          end
    end.

(** The variadic [scu_rasnprintf] hands its arguments to
    [scu_vrasnprintf]. *)
Definition scu_rasnprintf := scu_vrasnprintf.

(** ** What a caller sees in the buffer *)

(** The string a block holds: its characters before the first zero. *)
Fixpoint c_string (mem : list byte) : list byte :=
  match mem with
  | [] => []
  | c :: rest => if is_nul c then [] else c :: c_string rest
  end.

Definition text_of (t : Target) : list byte :=
  match buffer t with
  | None => []
  | Some mem => c_string mem
  end.

(** The block starts with the characters [s] and a terminating zero. *)
Definition holds (t : Target) (s : list byte) : Prop :=
  exists rest, buffer t = Some (s ++ x00 :: rest).

(** The line at the head of a sequence of characters: up to and including
    the first newline, or all of them when there is none; and what follows
    it. *)
Fixpoint first_line (chars : list byte) : list byte :=
  match chars with
  | [] => []
  | c :: rest => if is_newline c then [c] else c :: first_line rest
  end.

Fixpoint after_first_line (chars : list byte) : list byte :=
  match chars with
  | [] => []
  | c :: rest => if is_newline c then rest else after_first_line rest
  end.

Fixpoint has_newline (chars : list byte) : bool :=
  match chars with
  | [] => false
  | c :: rest => is_newline c || has_newline rest
  end.

(** The pair a caller may hand in: no block and capacity zero, or a block
    of exactly [capacity > 0] characters. *)
Definition usable (t : Target) : Prop :=
  match buffer t with
  | None => capacity t = 0
  | Some mem => 0 < capacity t <= INT64_MAX
                /\ Z.of_nat (length mem) = capacity t
  end.

(** Worked examples. *)
Definition no_buffer : Target := {| buffer := None; capacity := 0 |}.

Definition bytes_of (codes : list Z) : list byte := map byte_of_Z codes.

(** ["hi\nyo"] still to come, then the end of the file. *)
Definition two_lines : FILE :=
  {| pending := bytes_of [104; 105; 10; 121; 111];
     failing := false; eof_indicator := false; error_indicator := false |}.

End IO.

(** * Properties *)

(** ** Outcomes and checked arithmetic *)

Lemma in_range_iff (z : Z) : in_range z = true <-> INT64_MIN <= z <= INT64_MAX.
Proof. unfold in_range. rewrite andb_true_iff, !Z.leb_le. tauto. Qed.

Lemma wrap64_in_range (z : Z) : INT64_MIN <= z <= INT64_MAX -> wrap64 z = z.
Proof.
  unfold wrap64, INT64_MIN, INT64_MAX. intros H.
  rewrite Z.mod_small; lia.
Qed.

Lemma bind_Returned {A B : Type} (m : Outcome A) (k : A -> Outcome B) (r : B) :
  bind m k = Returned r -> exists v, m = Returned v /\ k v = Returned r.
Proof. destruct m as [v|]; simpl; [eauto | discriminate]. Qed.

Lemma checked_Returned (z r : Z) :
  checked z = Returned r -> r = z /\ INT64_MIN <= z <= INT64_MAX.
Proof.
  unfold checked. destruct (in_range z) eqn:E; [|discriminate].
  intros [= <-]. split; [reflexivity | now apply in_range_iff].
Qed.

Lemma checked_in_range (z : Z) :
  INT64_MIN <= z <= INT64_MAX -> checked z = Returned z.
Proof. intros H. unfold checked. apply in_range_iff in H. now rewrite H. Qed.

Lemma Returned_inj {A : Type} (x y : A) : Returned x = Returned y -> x = y.
Proof. now intros [= ->]. Qed.

Lemma Returned_pair_inj {A B : Type} (x x' : A) (y y' : B) :
  Returned (x, y) = Returned (x', y') -> x = x' /\ y = y'.
Proof. now intros [= -> ->]. Qed.

(** Decompose a hypothesis [H : ... = Returned _] along the binds and the
    checked operations of the definition it came from. *)
Ltac outcome_step H :=
  let v := fresh "v" in
  let E := fresh "E" in
  match type of H with
  | bind _ _ = Returned _ =>
      apply bind_Returned in H; destruct H as (v & E & H);
      outcome_step E
  | add64 _ _ = Returned _ => unfold add64 in H; outcome_step H
  | sub64 _ _ = Returned _ => unfold sub64 in H; outcome_step H
  | mul64 _ _ = Returned _ => unfold mul64 in H; outcome_step H
  | checked _ = Returned ?r =>
      apply checked_Returned in H; destruct H as (E & H);
      try subst r
  | Returned (_, _) = Returned (_, _) =>
      apply Returned_pair_inj in H; destruct H as (E & H)
  | Returned _ = Returned _ => apply Returned_inj in H
  | _ => idtac
  end.

Ltac bool_to_prop :=
  repeat match goal with
  | H : (_ || _)%bool = true |- _ => apply orb_true_iff in H
  | H : (_ || _)%bool = false |- _ => apply orb_false_iff in H; destruct H
  | H : (_ && _)%bool = true |- _ => apply andb_true_iff in H; destruct H
  | H : (_ && _)%bool = false |- _ => apply andb_false_iff in H
  | H : (_ <? _) = true |- _ => apply Z.ltb_lt in H
  | H : (_ <? _) = false |- _ => apply Z.ltb_ge in H
  | H : (_ <=? _) = true |- _ => apply Z.leb_le in H
  | H : (_ <=? _) = false |- _ => apply Z.leb_gt in H
  | H : (_ >? _) = true |- _ => rewrite Z.gtb_ltb in H
  | H : (_ >? _) = false |- _ => rewrite Z.gtb_ltb in H
  | H : (_ >=? _) = true |- _ => rewrite Z.geb_leb in H
  | H : (_ >=? _) = false |- _ => rewrite Z.geb_leb in H
  end.

Ltac int64 := unfold INT64_MIN, INT64_MAX in *.

(** ** The growth loop *)

Lemma iter_expand_shift (k : nat) (x : Z) :
  Nat.iter k expand (expand x) = Nat.iter (S k) expand x.
Proof. induction k; simpl in *; [reflexivity | now rewrite IHk]. Qed.

(** The loop returns the first value of the expansion sequence that
    reaches the requirement. *)
Lemma grow_Returned (rounds : nat) :
  forall x n r,
    0 <= x ->
    grow rounds x n = Returned r ->
    exists k : nat,
      r = Nat.iter k expand x /\ n <= r
      /\ forall j : nat, (j < k)%nat -> Nat.iter j expand x < n.
Proof.
  induction rounds as [|rounds IH]; intros x n r Hx H; simpl in H;
    destruct (x <? n) eqn:Hlt; bool_to_prop; try discriminate.
  - injection H as <-. exists 0%nat. simpl. repeat split; [lia | intros; lia].
  - outcome_step H. outcome_step H.
    rewrite Z.quot_div_nonneg in * by lia.
    apply IH in H; [| assert (0 <= x * 3 / 2) by (apply Z.div_pos; lia); lia].
    destruct H as (k & -> & Hn & Hmin).
    exists (S k). fold (expand x). rewrite <- iter_expand_shift.
    repeat split; [assumption |].
    intros [|j] Hj; [simpl; lia |].
    rewrite <- iter_expand_shift. apply Hmin. lia.
  - injection H as <-. exists 0%nat. simpl. repeat split; [lia | intros; lia].
Qed.

Lemma expand_squares (x : Z) : 0 <= x -> 2 * (x * x) <= expand x * expand x.
Proof.
  intros Hx. unfold expand.
  assert (3 * x <= 2 * (x * 3 / 2) + 1) by
    (pose proof (Z.div_mod (x * 3) 2 ltac:(lia));
     pose proof (Z.mod_pos_bound (x * 3) 2 ltac:(lia)); lia).
  nia.
Qed.

(** [rounds] rounds suffice as soon as [x^2 * 2^rounds] exceeds the square
    of the largest [int64_t]: more rounds change nothing. *)
Lemma grow_more_rounds (rounds : nat) :
  forall extra x n,
    1 <= x <= INT64_MAX ->
    2 ^ 126 < x * x * 2 ^ Z.of_nat rounds ->
    grow (rounds + extra) x n = grow rounds x n.
Proof.
  induction rounds as [|rounds IH]; intros extra x n Hx Hbig.
  - exfalso. int64. simpl in Hbig. nia.
  - simpl. destruct (x <? n); [| reflexivity].
    unfold mul64, add64, checked.
    destruct (in_range (x * 3)) eqn:E3; simpl; [| reflexivity].
    destruct (in_range (x * 3 ÷ 2 + 1)) eqn:E; simpl; [| reflexivity].
    apply in_range_iff in E3, E.
    rewrite Z.quot_div_nonneg in * by lia.
    apply IH.
    + assert (0 <= x * 3 / 2) by (apply Z.div_pos; lia). lia.
    + pose proof (expand_squares x ltac:(lia)) as Hsq. unfold expand in Hsq.
      rewrite Nat2Z.inj_succ, Z.pow_succ_r in Hbig by lia.
      assert (0 < 2 ^ Z.of_nat rounds) by (apply Z.pow_pos_nonneg; lia).
      nia.
Qed.

(** The bound of 128 rounds is never what stops the loop of
    [scu_list_ensureCapacityInternal]. *)
Lemma grow_fuel_irrelevant (extra : nat) (c n : Z) :
  c <= INT64_MAX ->
  grow (growth_rounds + extra) (SCU_MAX c SCU_INITIAL_CAPACITY) n
  = grow growth_rounds (SCU_MAX c SCU_INITIAL_CAPACITY) n.
Proof.
  intros Hc. apply grow_more_rounds.
  - unfold SCU_MAX, SCU_INITIAL_CAPACITY. destruct (c >? 8) eqn:E;
      bool_to_prop; int64; lia.
  - unfold SCU_MAX, SCU_INITIAL_CAPACITY, growth_rounds.
    destruct (c >? 8) eqn:E; bool_to_prop.
    + change (2 ^ Z.of_nat 128) with (2 ^ 128). nia.
    + reflexivity.
Qed.


(** ** Byte-list algebra *)

Section Segments.
Context {A : Type}.
Implicit Types l : list A.

Lemma firstn_app_at l1 l2 n : length l1 = n -> firstn n (l1 ++ l2) = l1.
Proof.
  intros <-. rewrite firstn_app, Nat.sub_diag, firstn_all. simpl.
  apply app_nil_r.
Qed.

Lemma skipn_app_at l1 l2 n : length l1 = n -> skipn n (l1 ++ l2) = l2.
Proof.
  intros <-. rewrite skipn_app, Nat.sub_diag, skipn_all. reflexivity.
Qed.

Lemma firstn_app_past l1 l2 m n :
  (length l1 + m = n)%nat -> firstn n (l1 ++ l2) = l1 ++ firstn m l2.
Proof.
  intros <-. rewrite firstn_app, firstn_all2 by lia. f_equal. f_equal. lia.
Qed.

Lemma skipn_app_past l1 l2 m n :
  (length l1 + m = n)%nat -> skipn n (l1 ++ l2) = skipn m l2.
Proof.
  intros <-. rewrite skipn_app, skipn_all2 by lia. simpl. f_equal. lia.
Qed.

Lemma firstn_app_within l1 l2 n :
  (n <= length l1)%nat -> firstn n (l1 ++ l2) = firstn n l1.
Proof.
  intros H. rewrite firstn_app. replace (n - length l1)%nat with 0%nat by lia.
  simpl. apply app_nil_r.
Qed.

Lemma skipn_app_within l1 l2 n :
  (n <= length l1)%nat -> skipn n (l1 ++ l2) = skipn n l1 ++ l2.
Proof.
  intros H. rewrite skipn_app. replace (n - length l1)%nat with 0%nat by lia.
  reflexivity.
Qed.

Lemma two_segments l p :
  (p <= length l)%nat -> exists l1 l2, l = l1 ++ l2 /\ length l1 = p.
Proof.
  intros Hp. exists (firstn p l), (skipn p l). split.
  - symmetry. apply firstn_skipn.
  - rewrite length_firstn. lia.
Qed.

(** A list cut at [p] and at [e]. *)
Lemma three_segments l p e :
  (p <= e)%nat -> (e <= length l)%nat ->
  exists l1 l2 l3,
    l = l1 ++ l2 ++ l3 /\ length l1 = p /\ length l2 = (e - p)%nat
    /\ length l3 = (length l - e)%nat.
Proof.
  intros Hp He.
  exists (firstn p l), (firstn (e - p) (skipn p l)), (skipn e l).
  repeat split.
  - rewrite <- (firstn_skipn p l) at 1. f_equal.
    rewrite <- (firstn_skipn (e - p) (skipn p l)) at 1. f_equal.
    rewrite skipn_skipn. f_equal. lia.
  - rewrite length_firstn. lia.
  - rewrite length_firstn, length_skipn. lia.
  - rewrite length_skipn. lia.
Qed.

End Segments.

Ltac len :=
  repeat first [ rewrite length_app | rewrite length_firstn
               | rewrite length_skipn | rewrite length_map
               | rewrite length_seq ];
  lia.

Lemma insert_bytes (M bs : list byte) (p q e : nat) :
  (p <= e)%nat -> (e + q <= length M)%nat -> (q <= length bs)%nat ->
  let M1 := firstn (p + q) M ++ firstn (e - p) (skipn p M)
            ++ skipn (p + q + (e - p)) M in
  let M2 := firstn p M1 ++ firstn q bs ++ skipn (p + q) M1 in
  length M2 = length M
  /\ firstn (e + q) M2
     = firstn p (firstn e M) ++ firstn q bs ++ skipn p (firstn e M).
Proof.
  intros Hp He Hq.
  destruct (three_segments M p e) as (A & B & C & -> & HA & HB & HC);
    [lia .. |].
  rewrite length_app, length_app in *.
  set (X := firstn q bs). assert (HX : length X = q) by (subst X; len).
  clearbody X.
  rewrite (firstn_app_past A _ q (p + q)) by lia.
  rewrite (skipn_app_at A _ p) by lia.
  rewrite (firstn_app_at B _ (e - p)) by lia.
  rewrite (skipn_app_past A _ (q + (e - p)) (p + q + (e - p))) by lia.
  set (F := firstn q (B ++ C)). assert (HF : length F = q) by (subst F; len).
  clearbody F. cbv zeta.
  rewrite <- ?app_assoc.
  rewrite (firstn_app_at A _ p) by lia.
  rewrite (skipn_app_past A _ q (p + q)) by lia.
  rewrite (skipn_app_at F _ q) by lia.
  split; [len |].
  rewrite (firstn_app_past A _ (q + (e - p)) (e + q)) by lia.
  rewrite (firstn_app_past X _ (e - p)) by lia.
  rewrite (firstn_app_at B) by lia.
  rewrite (app_assoc A B C), (firstn_app_at (A ++ B) _ e) by len.
  rewrite <- ?app_assoc.
  rewrite (firstn_app_at A _ p), (skipn_app_at A _ p) by lia.
  reflexivity.
Qed.

Lemma remove_bytes (M : list byte) (p q e : nat) :
  (p + q <= e)%nat -> (e <= length M)%nat ->
  let M1 := firstn p M ++ firstn (e - p - q) (skipn (p + q) M)
            ++ skipn (p + (e - p - q)) M in
  length M1 = length M
  /\ firstn (e - q) M1 = firstn p (firstn e M) ++ skipn (p + q) (firstn e M).
Proof.
  intros Hp He.
  destruct (three_segments M p e) as (A & B & C & -> & HA & HB & HC);
    [lia .. |].
  rewrite length_app, length_app in *.
  rewrite (firstn_app_at A _ p) by lia.
  rewrite (skipn_app_past A _ q (p + q)) by lia.
  rewrite (skipn_app_past A _ (e - p - q) (p + (e - p - q))) by lia.
  rewrite (skipn_app_within B _ q) by lia.
  rewrite (firstn_app_at (skipn q B) _ (e - p - q)) by len.
  rewrite (app_assoc A B C), (firstn_app_at (A ++ B) _ e) by len.
  rewrite <- ?app_assoc.
  rewrite (firstn_app_at A _ p) by lia.
  rewrite (skipn_app_past A _ q (p + q)) by lia.
  cbv zeta. split; [len |].
  rewrite (firstn_app_past A _ (e - p - q) (e - q)) by lia.
  rewrite (firstn_app_at (skipn q B)) by len.
  reflexivity.
Qed.

Lemma slice_before (L X : list byte) (p o len : nat) :
  (o + len <= p)%nat -> (p <= length L)%nat ->
  slice o len (firstn p L ++ X ++ skipn p L) = slice o len L.
Proof.
  intros Ho Hp. destruct (two_segments L p Hp) as (A & B & -> & HA).
  unfold slice.
  rewrite (firstn_app_at A _ p), (skipn_app_at A _ p) by lia.
  rewrite !(skipn_app_within A _ o) by lia.
  rewrite !(firstn_app_within (skipn o A) _ len) by len.
  reflexivity.
Qed.

Lemma slice_at (L X : list byte) (p : nat) :
  (p <= length L)%nat ->
  slice p (length X) (firstn p L ++ X ++ skipn p L) = X.
Proof.
  intros Hp. destruct (two_segments L p Hp) as (A & B & -> & HA).
  unfold slice.
  rewrite (firstn_app_at A _ p), (skipn_app_at A _ p) by lia.
  now rewrite (skipn_app_at A _ p), (firstn_app_at X) by lia.
Qed.

Lemma slice_after (L X : list byte) (p o len : nat) :
  (p <= o)%nat -> (p <= length L)%nat ->
  slice (o + length X) len (firstn p L ++ X ++ skipn p L) = slice o len L.
Proof.
  intros Ho Hp. destruct (two_segments L p Hp) as (A & B & -> & HA).
  unfold slice.
  rewrite (firstn_app_at A _ p), (skipn_app_at A _ p) by lia.
  rewrite (skipn_app_past A _ (o - p + length X)) by lia.
  rewrite (skipn_app_past X _ (o - p)) by lia.
  now rewrite (skipn_app_past A _ (o - p)) by lia.
Qed.

Lemma slice_cut_before (L : list byte) (p q o len : nat) :
  (o + len <= p)%nat -> (p <= length L)%nat ->
  slice o len (firstn p L ++ skipn (p + q) L) = slice o len L.
Proof.
  intros Ho Hp. destruct (two_segments L p Hp) as (A & B & -> & HA).
  unfold slice.
  rewrite (firstn_app_at A _ p) by lia.
  rewrite !(skipn_app_within A _ o) by lia.
  rewrite !(firstn_app_within (skipn o A) _ len) by len.
  reflexivity.
Qed.

Lemma slice_cut_after (L : list byte) (p q o len : nat) :
  (p <= o)%nat -> (p <= length L)%nat ->
  slice o len (firstn p L ++ skipn (p + q) L) = slice (o + q) len L.
Proof.
  intros Ho Hp. unfold slice.
  rewrite (skipn_app_past (firstn p L) _ (o - p)) by len.
  rewrite skipn_skipn. do 2 f_equal. lia.
Qed.

Lemma slice_firstn (L : list byte) (e o len : nat) :
  (o + len <= e)%nat -> slice o len (firstn e L) = slice o len L.
Proof.
  intros Ho. unfold slice.
  rewrite skipn_firstn_comm, firstn_firstn. f_equal. lia.
Qed.
(** ** Allocation *)

Lemma SCU_MAX_max (a b : Z) : SCU_MAX a b = Z.max a b.
Proof. unfold SCU_MAX. destruct (a >? b) eqn:E; bool_to_prop; lia. Qed.

Lemma block_size_Returned (c sz size : Z) :
  0 <= c -> 0 <= sz ->
  block_size c sz = Returned size ->
  size = sizeof_SCUHeader + c * sz /\ c * sz <= INT64_MAX.
Proof.
  intros Hc Hsz H. unfold block_size in H. outcome_step H.
  outcome_step H. subst size. int64.
  assert (0 <= c * sz) by nia.
  unfold sizeof_SCUHeader.
  rewrite (Z.mod_small (c * sz)), Z.mod_small by lia. lia.
Qed.

Lemma block_size_in_range (c sz : Z) :
  0 <= c -> 0 <= sz -> c * sz <= INT64_MAX ->
  block_size c sz = Returned (sizeof_SCUHeader + c * sz).
Proof.
  intros Hc Hsz H. unfold block_size, mul64.
  assert (0 <= c * sz) by nia.
  rewrite checked_in_range by (int64; lia). cbn [bind]. f_equal.
  int64. unfold sizeof_SCUHeader.
  rewrite (Z.mod_small (c * sz)), Z.mod_small by lia. lia.
Qed.

Lemma length_resize (a : Allocator) (old : list byte) (n : nat) :
  length (resize a old n) = n.
Proof. unfold resize. len. Qed.

Lemma resize_grow (a : Allocator) (old : list byte) (n : nat) :
  (length old <= n)%nat -> firstn (length old) (resize a old n) = old.
Proof.
  intros H. unfold resize. rewrite (firstn_all2 old) by lia.
  now apply firstn_app_at.
Qed.

Lemma resize_shrink (a : Allocator) (old : list byte) (n : nat) :
  (n <= length old)%nat -> resize a old n = firstn n old.
Proof.
  intros H. unfold resize. replace (n - length old)%nat with 0%nat by lia.
  simpl. apply app_nil_r.
Qed.

Lemma SCU_REALLOC_Some (a : Allocator) (old mem : list byte) (size : Z) :
  SCU_REALLOC a old size = Some mem ->
  grants a size = true
  /\ mem = resize a old (Z.to_nat (size - sizeof_SCUHeader)).
Proof.
  unfold SCU_REALLOC. destruct (grants a size); [| discriminate].
  now intros [= <-].
Qed.

(** ** [scu_list_ensureCapacityInternal] *)

(** What a call that returned says about the list and the request. *)
Lemma ensureCapacity_Returned (a : Allocator) (l l' : SCUHeader) (t : Z) (e : SCUError) :
  wf l ->
  scu_list_ensureCapacityInternal a l t = Returned (e, l') ->
  match e with
  | SCU_ERROR_INVALID_ARGUMENT => t < 0 /\ l' = l
  | SCU_ERROR_OUT_OF_MEMORY => 0 <= t /\ capacity l < t /\ l' = l
  | SCU_ERROR_NONE =>
      0 <= t <= capacity l' /\ wf l'
      /\ count l' = count l /\ itemSize l' = itemSize l
      /\ capacity l <= capacity l'
      /\ firstn (length (items l)) (items l') = items l
      /\ (capacity l < t -> grown (capacity l) t (capacity l'))
      /\ (t <= capacity l -> l' = l)
  | _ => False
  end.
Proof.
  intros [Hc Hsz Hb Hlen] H. unfold scu_list_ensureCapacityInternal in H.
  destruct (t <? 0) eqn:Ht; bool_to_prop.
  { outcome_step H. subst e l'. auto. }
  destruct (capacity l <? t) eqn:Hcap; bool_to_prop.
  2:{ outcome_step H. subst e l'.
      split; [lia |]. split; [now constructor |].
      do 2 (split; [reflexivity |]). split; [lia |].
      split; [apply firstn_all |]. split; [lia | reflexivity]. }
  apply bind_Returned in H. destruct H as (r & Hgrow & H).
  apply bind_Returned in H. destruct H as (size & Hsize & H).
  rewrite SCU_MAX_max in Hgrow.
  apply grow_Returned in Hgrow; [| unfold SCU_INITIAL_CAPACITY; lia].
  destruct Hgrow as (k & Hr & Hge & Hmin).
  apply block_size_Returned in Hsize; [| lia ..]. destruct Hsize as [-> Hfit].
  destruct (SCU_REALLOC a (items l) _) as [mem|] eqn:Hmem.
  2:{ outcome_step H. subst e l'. auto. }
  outcome_step H. subst e l'. apply SCU_REALLOC_Some in Hmem. destruct Hmem as [_ ->].
  replace (sizeof_SCUHeader + r * itemSize l - sizeof_SCUHeader)
    with (r * itemSize l) by lia.
  assert (Hmono : capacity l * itemSize l <= r * itemSize l) by nia.
  cbn [capacity count itemSize items set_capacity].
  split; [lia |]. split.
  { constructor; cbn [capacity count itemSize items set_capacity];
      [lia | lia | lia | apply length_resize]. }
  do 2 (split; [reflexivity |]). split; [lia |]. split.
  { apply resize_grow. rewrite Hlen. lia. }
  split; [| lia]. intros _. exists k. auto.
Qed.
(** ** Memory primitives *)

Lemma memmove_Returned (mem m : list byte) (dst src n : Z) :
  memmove mem dst src n = Returned m ->
  0 <= dst /\ 0 <= src /\ 0 <= n
  /\ dst + n <= Z.of_nat (length mem) /\ src + n <= Z.of_nat (length mem)
  /\ m = firstn (Z.to_nat dst) mem
         ++ firstn (Z.to_nat n) (skipn (Z.to_nat src) mem)
         ++ skipn (Z.to_nat (dst + n)) mem.
Proof.
  unfold memmove.
  destruct (_ && _)%bool eqn:E; [| discriminate].
  intros H. apply Returned_inj in H. bool_to_prop. auto 10.
Qed.

Lemma memcpy_Returned (mem m : list byte) (dst n : Z) (src : Buffer) :
  memcpy mem dst src n = Returned m ->
  exists bs, src = Some bs
    /\ 0 <= dst /\ 0 <= n
    /\ dst + n <= Z.of_nat (length mem) /\ n <= Z.of_nat (length bs)
    /\ m = firstn (Z.to_nat dst) mem ++ firstn (Z.to_nat n) bs
           ++ skipn (Z.to_nat (dst + n)) mem.
Proof.
  unfold memcpy. destruct src as [bs|]; [| discriminate].
  destruct (_ && _)%bool eqn:E; [| discriminate].
  intros H. apply Returned_inj in H. bool_to_prop. exists bs. auto 10.
Qed.

Lemma memmove_in_bounds (mem : list byte) (dst src n : Z) :
  0 <= dst -> 0 <= src -> 0 <= n ->
  dst + n <= Z.of_nat (length mem) -> src + n <= Z.of_nat (length mem) ->
  memmove mem dst src n
  = Returned (firstn (Z.to_nat dst) mem
              ++ firstn (Z.to_nat n) (skipn (Z.to_nat src) mem)
              ++ skipn (Z.to_nat (dst + n)) mem).
Proof.
  intros. unfold memmove.
  repeat match goal with
  | H : _ <= _ |- _ => apply Z.leb_le in H; rewrite H; clear H
  end.
  reflexivity.
Qed.

Lemma memcpy_in_bounds (mem bs : list byte) (dst n : Z) :
  0 <= dst -> 0 <= n ->
  dst + n <= Z.of_nat (length mem) -> n <= Z.of_nat (length bs) ->
  memcpy mem dst (Some bs) n
  = Returned (firstn (Z.to_nat dst) mem ++ firstn (Z.to_nat n) bs
              ++ skipn (Z.to_nat (dst + n)) mem).
Proof.
  intros. unfold memcpy.
  repeat match goal with
  | H : _ <= _ |- _ => apply Z.leb_le in H; rewrite H; clear H
  end.
  reflexivity.
Qed.

Lemma memcpy_items_Returned
  (moved : bool) (mem m : list byte) (dst n : Z) (src : Items) :
  memcpy_items moved mem dst src n = Returned m ->
  exists bs,
    memcpy mem dst (Some bs) n = Returned m
    /\ match src with
       | Apart buffer => buffer = Some bs
       | Within offset =>
           moved = false /\ 0 <= offset
           /\ (offset + n <= dst \/ dst + n <= offset)
           /\ bs = skipn (Z.to_nat offset) mem
       end.
Proof.
  unfold memcpy_items. destruct src as [buffer | offset]; intros H.
  - destruct buffer as [bs|]; [| discriminate]. now exists bs.
  - destruct (_ && _)%bool eqn:E; [| discriminate]. bool_to_prop.
    eexists. split; [exact H |].
    destruct moved; [discriminate |].
    split; [reflexivity |]. split; [assumption |]. split; [| reflexivity].
    match goal with
    | Hor : _ \/ _ |- _ => destruct Hor; bool_to_prop; lia
    end.
Qed.

(** ** [scu_list_insertRangeInternal] *)

Lemma contents_prefix (l l' : SCUHeader) :
  wf l ->
  count l' = count l -> itemSize l' = itemSize l ->
  firstn (length (items l)) (items l') = items l ->
  contents l' = contents l.
Proof.
  intros [Hc Hsz Hb Hlen] Hcount Hsize Hpre. unfold contents.
  rewrite Hcount, Hsize.
  assert (count l * itemSize l <= capacity l * itemSize l) by nia.
  transitivity (firstn (Z.to_nat (count l * itemSize l))
                  (firstn (length (items l)) (items l'))).
  - rewrite firstn_firstn. f_equal. lia.
  - now rewrite Hpre.
Qed.

(** A successful call that inserts [n > 0] items: [bs] are the bytes
    [items] points at when the copy starts. *)
Lemma insertRange_copies
  (a : Allocator) (l l' : SCUHeader) (i n : Z) (source : Items) :
  wf l -> 0 < n ->
  scu_list_insertRangeInternal a l i source n = Returned (SCU_ERROR_NONE, l') ->
  exists bs lm,
    match source with
    | Apart buffer => buffer = Some bs
    | Within offset =>
        lm = l /\ 0 <= offset
        /\ (offset + n * itemSize l <= i * itemSize l
            \/ i * itemSize l + n * itemSize l <= offset)
        /\ bs = skipn (Z.to_nat offset) (shifted l i n)
    end
    /\ 0 <= i <= count l
    /\ n * itemSize l <= Z.of_nat (length bs)
    /\ scu_list_ensureCapacityInternal a l (count l + n)
       = Returned (SCU_ERROR_NONE, lm)
    /\ capacity l' = capacity lm
    /\ wf l' /\ itemSize l' = itemSize l /\ count l' = count l + n
    /\ contents l'
       = firstn (Z.to_nat (i * itemSize l)) (contents l)
         ++ firstn (Z.to_nat (n * itemSize l)) bs
         ++ skipn (Z.to_nat (i * itemSize l)) (contents l).
Proof.
  intros Hwf Hn H. unfold scu_list_insertRangeInternal in H.
  destruct (_ || _)%bool eqn:Hguard; [discriminate |].
  bool_to_prop.
  destruct (n >? 0) eqn:Hpos; bool_to_prop; [| lia].
  apply bind_Returned in H. destruct H as (req & Hreq & H). outcome_step Hreq.
  cbv beta zeta in H.
  apply bind_Returned in H. destruct H as ([e lm] & Hens & H).
  pose proof (ensureCapacity_Returned _ _ _ _ _ Hwf Hens) as Hlm.
  destruct e; try (outcome_step H; discriminate).
  destruct Hlm as (Hcap & Hwfm & Hcm & Hsm & Hmono & Hpre & _ & Hsame).
  pose proof Hwfm as [Hc Hsz Hb Hlen].
  pose proof Hwf as [Hc0 Hsz0 Hb0 Hlen0].
  apply bind_Returned in H. destruct H as (past & Hpast & H). outcome_step Hpast.
  apply bind_Returned in H. destruct H as (dst & Hdst & H).
  unfold scu_list_itemAt in *. outcome_step Hdst.
  apply bind_Returned in H. destruct H as (src & Hsrc & H). outcome_step Hsrc.
  apply bind_Returned in H. destruct H as (tail & Htail & H). outcome_step Htail.
  apply bind_Returned in H. destruct H as (nb & Hnb & H). outcome_step Hnb.
  apply bind_Returned in H. destruct H as (M1 & HM1 & H).
  apply bind_Returned in H. destruct H as (len & Hlen' & H). outcome_step Hlen'.
  apply bind_Returned in H. destruct H as (M2 & HM2 & H).
  apply bind_Returned in H. destruct H as (total & Htotal & H). outcome_step Htotal.
  outcome_step H. subst l'.
  apply memmove_Returned in HM1. destruct HM1 as (_ & _ & _ & Hd1 & Hs1 & HM1).
  apply memcpy_items_Returned in HM2. destruct HM2 as (bs & HM2 & Hfrom).
  assert (Hsource :
            match source with
            | Apart buffer => buffer = Some bs
            | Within offset =>
                lm = l /\ 0 <= offset
                /\ (offset + n * itemSize l <= i * itemSize l
                    \/ i * itemSize l + n * itemSize l <= offset)
                /\ bs = skipn (Z.to_nat offset) (shifted l i n)
            end).
  { destruct source as [buffer | offset]; [assumption |].
    destruct Hfrom as (Hmoved & Hoff & Hapart & ->). bool_to_prop.
    specialize (Hsame Hmoved). subst lm M1.
    split; [reflexivity |]. split; [assumption |]. split; [assumption |].
    reflexivity. }
  subst M1.
  apply memcpy_Returned in HM2.
  destruct HM2 as (bs' & Hbs' & _ & _ & Hd2 & Hbs & ->).
  apply (f_equal (fun o => match o with Some x => x | None => bs end)) in Hbs'.
  cbv beta iota in Hbs'. subst bs'.
  unfold contents. cbn [capacity count itemSize items set_count].
  rewrite Hcm, Hsm in *.
  set (sz := itemSize l) in *. set (c := count l) in *.
  set (M := items lm) in *.
  assert (Hi : 0 <= i * sz) by nia.
  assert (Hq : 0 <= n * sz) by nia.
  assert (Hic : i * sz <= c * sz) by nia.
  assert (Hfit : (c + n) * sz <= capacity lm * sz) by nia.
  set (p := Z.to_nat (i * sz)) in *. set (q := Z.to_nat (n * sz)) in *.
  set (e := Z.to_nat (c * sz)) in *.
  replace (Z.to_nat ((i + n) * sz)) with (p + q)%nat in * by lia.
  replace (Z.to_nat ((c - i) * sz)) with (e - p)%nat in * by lia.
  replace (Z.to_nat ((i + n) * sz + (c - i) * sz))
    with (p + q + (e - p))%nat in * by lia.
  replace (Z.to_nat (i * sz + n * sz)) with (p + q)%nat in * by lia.
  destruct (insert_bytes M bs p q e) as [HlenM2 Hcontents];
    [subst p q e M; lia .. |].
  cbv zeta in HlenM2, Hcontents.
  exists bs, lm. split; [exact Hsource |]. split; [lia |]. split; [lia |].
  split; [exact Hens |].
  split; [reflexivity |]. split.
  { constructor; cbn [capacity count itemSize items set_count];
      rewrite ?Hsm; fold sz; [lia | assumption | assumption |].
    rewrite HlenM2. exact Hlen. }
  do 2 (split; [reflexivity |]).
  replace (Z.to_nat ((c + n) * sz)) with (e + q)%nat by lia.
  rewrite Hcontents. fold e.
  replace (firstn e M) with (firstn e (items l)); [reflexivity |].
  assert (c * sz <= capacity l * sz) by nia.
  transitivity (firstn e (firstn (length (items l)) M)).
  - now rewrite Hpre.
  - rewrite firstn_firstn. f_equal. lia.
Qed.

(** The same for [items] that point apart from the list. *)
Lemma insertRange_inserts (a : Allocator) (l l' : SCUHeader) (i n : Z) (buf : Buffer) :
  wf l -> 0 < n ->
  scu_list_insertRangeInternal a l i (Apart buf) n
  = Returned (SCU_ERROR_NONE, l') ->
  exists bs lm,
    buf = Some bs
    /\ 0 <= i <= count l
    /\ n * itemSize l <= Z.of_nat (length bs)
    /\ scu_list_ensureCapacityInternal a l (count l + n)
       = Returned (SCU_ERROR_NONE, lm)
    /\ capacity l' = capacity lm
    /\ wf l' /\ itemSize l' = itemSize l /\ count l' = count l + n
    /\ contents l'
       = firstn (Z.to_nat (i * itemSize l)) (contents l)
         ++ firstn (Z.to_nat (n * itemSize l)) bs
         ++ skipn (Z.to_nat (i * itemSize l)) (contents l).
Proof.
  intros Hwf Hn H. apply insertRange_copies in H; [| assumption ..].
  destruct H as (bs & lm & H). exists bs, lm. exact H.
Qed.
Lemma insertRange_nothing (a : Allocator) (l : SCUHeader) (i : Z) (buf : Items) :
  0 <= i <= count l ->
  scu_list_insertRangeInternal a l i buf 0 = Returned (SCU_ERROR_NONE, l).
Proof.
  intros Hi. unfold scu_list_insertRangeInternal.
  replace (i <? 0) with false by (symmetry; apply Z.ltb_ge; lia).
  replace (i >? count l) with false
    by (symmetry; rewrite Z.gtb_ltb; apply Z.ltb_ge; lia).
  reflexivity.
Qed.

(** ** [scu_list_removeRangeInternal] *)

(** A successful call that removes [n > 0] items. *)
Lemma removeRange_removes (l l' : SCUHeader) (i n : Z) :
  wf l -> 0 < n ->
  scu_list_removeRangeInternal l i n = Returned (SCU_ERROR_NONE, l') ->
  0 <= i /\ i + n <= count l
  /\ capacity l' = capacity l
  /\ wf l' /\ itemSize l' = itemSize l /\ count l' = count l - n
  /\ contents l'
     = firstn (Z.to_nat (i * itemSize l)) (contents l)
       ++ skipn (Z.to_nat (i * itemSize l) + Z.to_nat (n * itemSize l))
            (contents l).
Proof.
  intros Hwf Hn H. unfold scu_list_removeRangeInternal in H.
  destruct (_ || _)%bool eqn:Hguard; [discriminate |].
  bool_to_prop.
  apply bind_Returned in H. destruct H as (past & Hpast & H). outcome_step Hpast.
  destruct (i + n >? count l) eqn:Hrange; [discriminate |]. bool_to_prop.
  destruct (n >? 0) eqn:Hpos; bool_to_prop; [| lia].
  pose proof Hwf as [Hc Hsz Hb Hlen].
  unfold scu_list_itemAt in *.
  apply bind_Returned in H. destruct H as (dst & Hdst & H). outcome_step Hdst.
  apply bind_Returned in H. destruct H as (src & Hsrc & H). outcome_step Hsrc.
  apply bind_Returned in H. destruct H as (tail & Htail & H). outcome_step Htail.
  apply bind_Returned in H. destruct H as (tail' & Htail' & H). outcome_step Htail'.
  apply bind_Returned in H. destruct H as (nb & Hnb & H). outcome_step Hnb.
  apply bind_Returned in H. destruct H as (M1 & HM1 & H).
  apply bind_Returned in H. destruct H as (rest & Hrest & H). outcome_step Hrest.
  outcome_step H. subst l'.
  apply memmove_Returned in HM1. destruct HM1 as (_ & _ & _ & Hd1 & Hs1 & ->).
  unfold contents. cbn [capacity count itemSize items set_count].
  set (sz := itemSize l) in *. set (c := count l) in *.
  set (M := items l) in *.
  assert (Hi : 0 <= i * sz) by nia.
  assert (Hq : 0 <= n * sz) by nia.
  assert (Hic : (i + n) * sz <= c * sz) by nia.
  assert (Hfit : c * sz <= capacity l * sz) by nia.
  set (p := Z.to_nat (i * sz)) in *. set (q := Z.to_nat (n * sz)) in *.
  set (e := Z.to_nat (c * sz)) in *.
  replace (Z.to_nat ((i + n) * sz)) with (p + q)%nat in * by lia.
  replace (Z.to_nat ((c - i - n) * sz)) with (e - p - q)%nat in * by lia.
  replace (Z.to_nat (i * sz + (c - i - n) * sz))
    with (p + (e - p - q))%nat in * by lia.
  destruct (remove_bytes M p q e) as [HlenM1 Hcontents];
    [subst p q e M; lia .. |].
  cbv zeta in HlenM1, Hcontents.
  split; [lia |]. split; [lia |]. split; [reflexivity |]. split.
  { constructor; cbn [capacity count itemSize items set_count];
      fold sz c; [lia | assumption | assumption |].
    rewrite HlenM1. exact Hlen. }
  do 2 (split; [reflexivity |]).
  replace (Z.to_nat ((c - n) * sz)) with (e - q)%nat by lia.
  exact Hcontents.
Qed.

Lemma removeRange_nothing (l : SCUHeader) (i : Z) :
  0 <= i <= count l -> count l <= INT64_MAX ->
  scu_list_removeRangeInternal l i 0 = Returned (SCU_ERROR_NONE, l).
Proof.
  intros Hi Hc. unfold scu_list_removeRangeInternal.
  replace (i <? 0) with false by (symmetry; apply Z.ltb_ge; lia).
  cbn [orb Z.ltb Z.compare]. unfold add64.
  rewrite checked_in_range by (int64; lia). cbn [bind].
  replace (i + 0 >? count l) with false
    by (symmetry; rewrite Z.gtb_ltb; apply Z.ltb_ge; lia).
  reflexivity.
Qed.
(** ** Single-item operations as range operations of length one *)

Tactic Notation "bind_case" "as" simple_intropattern(v) ident(E) :=
  match goal with
  | |- bind ?m _ = bind ?m _ =>
      destruct m as [v|] eqn:E; cbn [bind]; [| reflexivity]
  end.

Ltac bind_case :=
  let v := fresh "v" in let E := fresh "E" in bind_case as v E.

Lemma memmove_nothing (mem : list byte) (dst src : Z) :
  0 <= dst <= Z.of_nat (length mem) -> 0 <= src <= Z.of_nat (length mem) ->
  memmove mem dst src 0 = Returned mem.
Proof.
  intros Hd Hs. rewrite memmove_in_bounds by lia. f_equal.
  rewrite Z.add_0_r. cbn [Z.to_nat firstn app]. apply firstn_skipn.
Qed.

Lemma removeAt_as_removeRange (l : SCUHeader) (i : Z) :
  i < INT64_MAX ->
  scu_list_removeAtInternal l i = scu_list_removeRangeInternal l i 1.
Proof.
  intros Hi. unfold scu_list_removeAtInternal, scu_list_removeRangeInternal.
  cbn [Z.ltb Z.gtb Z.compare]. rewrite orb_false_r.
  destruct (i <? 0) eqn:Hneg; [reflexivity |]. bool_to_prop. cbn [orb].
  unfold add64 at 2. rewrite checked_in_range by (int64; lia). cbn [bind].
  replace (i + 1 >? count l) with (i >=? count l).
  2:{ rewrite Z.gtb_ltb, Z.geb_leb.
      destruct (count l <=? i) eqn:E; bool_to_prop; symmetry;
        [apply Z.ltb_lt | apply Z.ltb_ge]; lia. }
  destruct (i >=? count l); [reflexivity |].
  bind_case. unfold add64. rewrite checked_in_range by (int64; lia).
  reflexivity.
Qed.

Lemma insertAt_as_insertRange (a : Allocator) (l : SCUHeader) (i : Z) (buf : Buffer) :
  wf l ->
  scu_list_insertAtInternal a l i buf
  = scu_list_insertRangeInternal a l i (Apart buf) 1.
Proof.
  intros Hwf. unfold scu_list_insertAtInternal, scu_list_insertRangeInternal.
  cbn [Z.ltb Z.gtb Z.compare memcpy_items]. rewrite orb_false_r.
  destruct (_ || _)%bool eqn:Hguard; [reflexivity |]. bool_to_prop.
  bind_case. cbv zeta. bind_case as [e lm] Hens.
  apply ensureCapacity_Returned in Hens; [| assumption].
  destruct e; try reflexivity. cbv beta iota in Hens.
  destruct Hens as (_ & [_ Hsz _ _] & _).
  bind_case as next Hnext. bind_case as dst Hdst. do 4 bind_case.
  unfold scu_list_itemAt in Hdst. outcome_step Hnext. outcome_step Hdst.
  unfold mul64 at 1.
  rewrite Z.mul_1_l, checked_in_range by (int64; nia).
  reflexivity.
Qed.

Lemma add_as_insertAt (a : Allocator) (l : SCUHeader) (buf : Buffer) :
  wf l ->
  scu_list_addInternal a l buf = scu_list_insertAtInternal a l (count l) buf.
Proof.
  intros Hwf. pose proof Hwf as [Hc _ _ _].
  unfold scu_list_addInternal, scu_list_insertAtInternal.
  replace (count l <? 0) with false by (symmetry; apply Z.ltb_ge; lia).
  replace (count l >? count l) with false
    by (symmetry; rewrite Z.gtb_ltb; apply Z.ltb_ge; lia).
  cbn [orb].
  destruct (add64 (count l) 1) as [req|] eqn:Hreq; cbn [bind]; [| reflexivity].
  bind_case as [e lm] Hens.
  apply ensureCapacity_Returned in Hens; [| assumption].
  destruct e; try reflexivity. cbv beta iota in Hens.
  outcome_step Hreq.
  destruct Hens as (Hcap & [Hcm Hszm Hbm Hlenm] & Hcount & Hsize & _).
  cbn [bind]. unfold scu_list_itemAt.
  assert (0 <= count l * itemSize lm) by nia.
  assert ((count l + 1) * itemSize lm <= capacity lm * itemSize lm) by nia.
  unfold mul64 at 2. rewrite checked_in_range by (int64; lia). cbn [bind].
  rewrite Hcount. bind_case.
  unfold sub64. rewrite Z.sub_diag, checked_in_range by (int64; lia).
  cbn [bind]. unfold mul64. rewrite Z.mul_0_l, checked_in_range by (int64; lia).
  cbn [bind]. outcome_step E.
  rewrite memmove_nothing by lia. reflexivity.
Qed.

Lemma addRange_as_insertRange
  (a : Allocator) (l : SCUHeader) (buf : Buffer) (n : Z) :
  wf l ->
  scu_list_addRangeInternal a l buf n
  = scu_list_insertRangeInternal a l (count l) (Apart buf) n.
Proof.
  intros Hwf. pose proof Hwf as [Hc _ _ _].
  unfold scu_list_addRangeInternal, scu_list_insertRangeInternal.
  cbn [memcpy_items].
  replace (count l <? 0) with false by (symmetry; apply Z.ltb_ge; lia).
  replace (count l >? count l) with false
    by (symmetry; rewrite Z.gtb_ltb; apply Z.ltb_ge; lia).
  cbn [orb].
  destruct (n <? 0); [reflexivity |].
  destruct (n >? 0) eqn:Hn; [| reflexivity]. bool_to_prop.
  destruct (add64 (count l) n) as [req|] eqn:Hreq; cbn [bind]; [| reflexivity].
  cbv zeta. bind_case as [e lm] Hens.
  apply ensureCapacity_Returned in Hens; [| assumption].
  destruct e; try reflexivity. cbv beta iota in Hens.
  outcome_step Hreq.
  destruct Hens as (Hcap & [Hcm Hszm Hbm Hlenm] & Hcount & Hsize & _).
  cbn [bind]. unfold scu_list_itemAt.
  assert (0 <= count l * itemSize lm) by nia.
  assert ((count l + n) * itemSize lm <= capacity lm * itemSize lm) by nia.
  assert (count l * itemSize lm <= (count l + n) * itemSize lm) by nia.
  unfold mul64 at 3. rewrite checked_in_range by (int64; lia). cbn [bind].
  rewrite Hcount. bind_case.
  unfold sub64. rewrite Z.sub_diag, checked_in_range by (int64; lia).
  cbn [bind]. unfold mul64 at 2.
  rewrite Z.mul_0_l, checked_in_range by (int64; lia).
  cbn [bind]. outcome_step E.
  rewrite memmove_nothing by lia. reflexivity.
Qed.
(** ** Errors leave the list as it was *)

Ltac run_binds H :=
  repeat (let v := fresh "v" in let E := fresh "E" in
          apply bind_Returned in H; destruct H as (v & E & H)).

Lemma ensureCapacity_error (a : Allocator) (l l' : SCUHeader) (t : Z) (e : SCUError) :
  scu_list_ensureCapacityInternal a l t = Returned (e, l') ->
  e = SCU_ERROR_NONE
  \/ l' = l /\ (e = SCU_ERROR_INVALID_ARGUMENT /\ t < 0
               \/ e = SCU_ERROR_OUT_OF_MEMORY /\ 0 <= t).
Proof.
  unfold scu_list_ensureCapacityInternal. intros H.
  destruct (t <? 0) eqn:Ht; bool_to_prop.
  { outcome_step H. subst. auto. }
  destruct (capacity l <? t).
  2:{ outcome_step H. subst. auto. }
  run_binds H. destruct (SCU_REALLOC _ _ _); outcome_step H; subst; auto.
Qed.

(** After [ensureCapacity] the remaining steps of a growing operation
    either return [SCU_ERROR_NONE] or pass the error on. *)
Ltac after_ensure H Hens :=
  match type of H with
  | match ?e1 with _ => _ end = Returned (?e, ?l') =>
      apply ensureCapacity_error in Hens;
      destruct e1;
      try (outcome_step H; subst e l';
           destruct Hens as [Hens | (-> & _)];
           [discriminate | right; reflexivity]);
      run_binds H; outcome_step H; left; congruence
  end.

Lemma add_error (a : Allocator) (l l' : SCUHeader) (buf : Buffer) (e : SCUError) :
  scu_list_addInternal a l buf = Returned (e, l') ->
  e = SCU_ERROR_NONE \/ l' = l.
Proof.
  unfold scu_list_addInternal. intros H.
  apply bind_Returned in H. destruct H as (req & Hreq & H).
  apply bind_Returned in H. destruct H as ([e1 lm] & Hens & H).
  after_ensure H Hens.
Qed.

Lemma addRange_error
  (a : Allocator) (l l' : SCUHeader) (buf : Buffer) (n : Z) (e : SCUError) :
  scu_list_addRangeInternal a l buf n = Returned (e, l') ->
  e = SCU_ERROR_NONE \/ l' = l.
Proof.
  unfold scu_list_addRangeInternal. intros H.
  destruct (n <? 0); [outcome_step H; auto |].
  destruct (n >? 0); [| outcome_step H; auto].
  apply bind_Returned in H. destruct H as (req & Hreq & H).
  apply bind_Returned in H. destruct H as ([e1 lm] & Hens & H).
  after_ensure H Hens.
Qed.

Lemma insertAt_error
  (a : Allocator) (l l' : SCUHeader) (i : Z) (buf : Buffer) (e : SCUError) :
  scu_list_insertAtInternal a l i buf = Returned (e, l') ->
  e = SCU_ERROR_NONE \/ l' = l.
Proof.
  unfold scu_list_insertAtInternal. intros H.
  destruct (_ || _)%bool; [outcome_step H; auto |].
  apply bind_Returned in H. destruct H as (req & Hreq & H).
  apply bind_Returned in H. destruct H as ([e1 lm] & Hens & H).
  after_ensure H Hens.
Qed.

Lemma insertRange_error
  (a : Allocator) (l l' : SCUHeader) (i n : Z) (buf : Items) (e : SCUError) :
  scu_list_insertRangeInternal a l i buf n = Returned (e, l') ->
  e = SCU_ERROR_NONE \/ l' = l.
Proof.
  unfold scu_list_insertRangeInternal. intros H.
  destruct (_ || _)%bool; [outcome_step H; auto |].
  destruct (n >? 0); [| outcome_step H; auto].
  apply bind_Returned in H. destruct H as (req & Hreq & H).
  cbv beta zeta in H.
  apply bind_Returned in H. destruct H as ([e1 lm] & Hens & H).
  after_ensure H Hens.
Qed.

Lemma removeAt_error (l l' : SCUHeader) (i : Z) (e : SCUError) :
  scu_list_removeAtInternal l i = Returned (e, l') ->
  e = SCU_ERROR_NONE \/ l' = l.
Proof.
  unfold scu_list_removeAtInternal. intros H.
  destruct (_ || _)%bool; [outcome_step H; auto |].
  run_binds H. outcome_step H. auto.
Qed.

Lemma removeRange_error (l l' : SCUHeader) (i n : Z) (e : SCUError) :
  scu_list_removeRangeInternal l i n = Returned (e, l') ->
  e = SCU_ERROR_NONE \/ l' = l.
Proof.
  unfold scu_list_removeRangeInternal. intros H.
  destruct (_ || _)%bool; [outcome_step H; auto |].
  apply bind_Returned in H. destruct H as (past & Hpast & H).
  destruct (past >? count l); [outcome_step H; auto |].
  destruct (n >? 0); [| outcome_step H; auto].
  run_binds H. outcome_step H. auto.
Qed.

Lemma trimToCount_error (a : Allocator) (l l' : SCUHeader) (e : SCUError) :
  scu_list_trimToCountInternal a l = Returned (e, l') ->
  e = SCU_ERROR_NONE \/ l' = l.
Proof.
  unfold scu_list_trimToCountInternal. intros H.
  destruct (capacity l >? count l); [| outcome_step H; auto].
  run_binds H. destruct (SCU_REALLOC _ _ _); outcome_step H; auto.
Qed.

Lemma call_error (a : Allocator) (c : Call) (l l' : SCUHeader) (e : SCUError) :
  call a c l = Returned (e, l') -> e = SCU_ERROR_NONE \/ l' = l.
Proof.
  destruct c; cbn [call]; intros H.
  - eapply add_error; eassumption.
  - eapply addRange_error; eassumption.
  - eapply insertAt_error; eassumption.
  - eapply insertRange_error; eassumption.
  - eapply removeAt_error; eassumption.
  - eapply removeRange_error; eassumption.
  - outcome_step H. auto.
  - apply ensureCapacity_error in H. tauto.
  - eapply trimToCount_error; eassumption.
Qed.
(** ** The representation invariant is kept *)

Lemma wf_capacity_in_range (l : SCUHeader) : wf l -> capacity l <= INT64_MAX.
Proof. intros [Hc Hsz Hb _]. nia. Qed.

Lemma withCapacity_wf (a : Allocator) (cap sz : Z) (l : SCUHeader) :
  scu_list_withCapacityInternal a cap sz = Returned (Some l) ->
  wf l /\ capacity l = cap /\ count l = 0 /\ itemSize l = sz.
Proof.
  unfold scu_list_withCapacityInternal. intros H.
  destruct (_ || _)%bool eqn:Hguard; [discriminate |]. bool_to_prop.
  apply bind_Returned in H. destruct H as (size & Hsize & H).
  apply block_size_Returned in Hsize; [| lia ..]. destruct Hsize as [-> Hfit].
  unfold SCU_MALLOC in H.
  destruct (SCU_REALLOC _ _ _) as [mem|] eqn:Hmem; [| discriminate].
  apply SCU_REALLOC_Some in Hmem. destruct Hmem as [_ ->].
  apply Returned_inj in H.
  apply (f_equal (fun o => match o with Some x => x | None => l end)) in H.
  cbv beta iota in H. subst l.
  cbn [capacity count itemSize items]. split; [| auto].
  constructor; cbn [capacity count itemSize items]; [lia | lia | lia |].
  rewrite length_resize. f_equal. lia.
Qed.

Lemma trimToCount_Returned (a : Allocator) (l l' : SCUHeader) (e : SCUError) :
  wf l ->
  scu_list_trimToCountInternal a l = Returned (e, l') ->
  match e with
  | SCU_ERROR_NONE =>
      wf l' /\ capacity l' = count l /\ count l' = count l
      /\ itemSize l' = itemSize l /\ contents l' = contents l
      /\ (capacity l = count l -> l' = l)
  | SCU_ERROR_OUT_OF_MEMORY => count l < capacity l /\ l' = l
  | _ => False
  end.
Proof.
  intros Hwf H. pose proof Hwf as [Hc Hsz Hb Hlen].
  unfold scu_list_trimToCountInternal in H.
  destruct (capacity l >? count l) eqn:Hgt; bool_to_prop.
  2:{ outcome_step H. subst e l'. assert (capacity l = count l) by lia.
      repeat (split; [first [assumption | lia | reflexivity] |]).
      reflexivity. }
  apply bind_Returned in H. destruct H as (size & Hsize & H).
  apply block_size_Returned in Hsize; [| lia ..]. destruct Hsize as [-> Hfit].
  destruct (SCU_REALLOC _ _ _) as [mem|] eqn:Hmem; outcome_step H; subst e l'.
  2:{ split; [lia | reflexivity]. }
  apply SCU_REALLOC_Some in Hmem. destruct Hmem as [_ ->].
  replace (sizeof_SCUHeader + count l * itemSize l - sizeof_SCUHeader)
    with (count l * itemSize l) by lia.
  assert (count l * itemSize l <= capacity l * itemSize l) by nia.
  assert (0 <= count l * itemSize l) by nia.
  rewrite resize_shrink by lia.
  unfold contents. cbn [capacity count itemSize items set_capacity].
  split.
  { constructor; cbn [capacity count itemSize items set_capacity];
      [lia | lia | lia |]. rewrite length_firstn. lia. }
  do 3 (split; [reflexivity |]). split; [| lia].
  rewrite firstn_firstn. f_equal. lia.
Qed.

Lemma insertRange_wf
  (a : Allocator) (l l' : SCUHeader) (i n : Z) (buf : Items) (e : SCUError) :
  wf l ->
  scu_list_insertRangeInternal a l i buf n = Returned (e, l') ->
  wf l' /\ itemSize l' = itemSize l.
Proof.
  intros Hwf H.
  destruct (insertRange_error _ _ _ _ _ _ _ H) as [-> | ->]; [| auto].
  destruct (Z.lt_ge_cases 0 n) as [Hn | Hn].
  - apply insertRange_copies in H; [| assumption ..].
    destruct H as (bs & lm & _ & _ & _ & _ & _ & Hwf' & Hsz & _). auto.
  - unfold scu_list_insertRangeInternal in H.
    destruct (_ || _)%bool; [discriminate |].
    replace (n >? 0) with false in H
      by (symmetry; rewrite Z.gtb_ltb; apply Z.ltb_ge; lia).
    outcome_step H. subst l'. auto.
Qed.

Lemma removeRange_wf (l l' : SCUHeader) (i n : Z) (e : SCUError) :
  wf l ->
  scu_list_removeRangeInternal l i n = Returned (e, l') ->
  wf l' /\ itemSize l' = itemSize l.
Proof.
  intros Hwf H.
  destruct (removeRange_error _ _ _ _ _ H) as [-> | ->]; [| auto].
  destruct (Z.lt_ge_cases 0 n) as [Hn | Hn].
  - apply removeRange_removes in H; [| assumption ..].
    destruct H as (_ & _ & _ & Hwf' & Hsz & _). auto.
  - unfold scu_list_removeRangeInternal in H.
    destruct (_ || _)%bool; [discriminate |].
    apply bind_Returned in H. destruct H as (past & Hpast & H).
    destruct (past >? count l); [discriminate |].
    replace (n >? 0) with false in H
      by (symmetry; rewrite Z.gtb_ltb; apply Z.ltb_ge; lia).
    outcome_step H. subst l'. auto.
Qed.

Lemma removeAt_invalid (l : SCUHeader) (i : Z) :
  i < 0 \/ count l <= i ->
  scu_list_removeAtInternal l i = Returned (SCU_ERROR_INVALID_ARGUMENT, l).
Proof.
  intros Hi. unfold scu_list_removeAtInternal.
  replace ((i <? 0) || (i >=? count l))%bool with true; [reflexivity |].
  symmetry. apply orb_true_iff. rewrite Z.geb_leb, Z.ltb_lt, Z.leb_le. lia.
Qed.

Lemma call_wf (a : Allocator) (c : Call) (l l' : SCUHeader) (e : SCUError) :
  wf l -> call a c l = Returned (e, l') ->
  wf l' /\ itemSize l' = itemSize l.
Proof.
  intros Hwf H. destruct c; cbn [call] in H.
  - rewrite add_as_insertAt, insertAt_as_insertRange in H by assumption.
    eapply insertRange_wf; eassumption.
  - rewrite addRange_as_insertRange in H by assumption.
    eapply insertRange_wf; eassumption.
  - rewrite insertAt_as_insertRange in H by assumption.
    eapply insertRange_wf; eassumption.
  - eapply insertRange_wf; eassumption.
  - destruct (Z.lt_ge_cases index (count l)) as [Hi | Hi].
    + rewrite removeAt_as_removeRange in H
        by (pose proof (wf_capacity_in_range l Hwf); destruct Hwf; lia).
      eapply removeRange_wf; eassumption.
    + rewrite removeAt_invalid in H by lia. outcome_step H. subst l'. auto.
  - eapply removeRange_wf; eassumption.
  - outcome_step H. subst l'. destruct Hwf as [Hc Hsz Hb Hlen].
    split; [| reflexivity].
    constructor; cbn [scu_list_clearInternal capacity count itemSize items
                        set_count]; [lia | assumption ..].
  - apply ensureCapacity_Returned in H; [| assumption].
    destruct e; try contradiction.
    + destruct H as (_ & Hwf' & _ & Hsz & _). auto.
    + destruct H as (_ & ->). auto.
    + destruct H as (_ & _ & ->). auto.
  - apply trimToCount_Returned in H; [| assumption].
    destruct e; try contradiction.
    + destruct H as (Hwf' & _ & _ & Hsz & _). auto.
    + destruct H as (_ & ->). auto.
Qed.

Lemma live_wf (sz : Z) (l : SCUHeader) : live sz l -> wf l /\ itemSize l = sz.
Proof.
  induction 1 as [a l H | a cap l H | a c l e l' _ [IHwf IHsz] H].
  - apply withCapacity_wf in H. tauto.
  - apply withCapacity_wf in H. tauto.
  - apply call_wf in H; [| assumption]. destruct H as [Hwf' Hsz].
    split; [assumption | congruence].
Qed.
(** ** Reading items *)

Lemma read_item_contents (l : SCUHeader) (j : Z) :
  wf l -> 0 <= j < count l ->
  read_item l j
  = slice (Z.to_nat (j * itemSize l)) (Z.to_nat (itemSize l)) (contents l).
Proof.
  intros [Hc Hsz Hb Hlen] Hj. unfold read_item, contents.
  symmetry. apply slice_firstn.
  assert (0 <= j * itemSize l) by nia.
  assert ((j + 1) * itemSize l <= count l * itemSize l) by nia.
  lia.
Qed.

Lemma length_contents (l : SCUHeader) :
  wf l -> length (contents l) = Z.to_nat (count l * itemSize l).
Proof.
  intros [Hc Hsz Hb Hlen]. unfold contents. rewrite length_firstn, Hlen.
  assert (count l * itemSize l <= capacity l * itemSize l) by nia. lia.
Qed.

(** ** [scu_list_insertAtInternal] and [scu_list_removeAtInternal] *)

Lemma insertAt_inserts (a : Allocator) (l l' : SCUHeader) (i : Z) (buf : Buffer) :
  wf l ->
  scu_list_insertAtInternal a l i buf = Returned (SCU_ERROR_NONE, l') ->
  exists bs lm,
    buf = Some bs
    /\ 0 <= i <= count l
    /\ itemSize l <= Z.of_nat (length bs)
    /\ scu_list_ensureCapacityInternal a l (count l + 1)
       = Returned (SCU_ERROR_NONE, lm)
    /\ capacity l' = capacity lm
    /\ wf l' /\ itemSize l' = itemSize l /\ count l' = count l + 1
    /\ contents l'
       = firstn (Z.to_nat (i * itemSize l)) (contents l)
         ++ firstn (Z.to_nat (itemSize l)) bs
         ++ skipn (Z.to_nat (i * itemSize l)) (contents l).
Proof.
  intros Hwf H. rewrite insertAt_as_insertRange in H by assumption.
  apply insertRange_inserts in H; [| assumption | lia].
  rewrite Z.mul_1_l in H. exact H.
Qed.

Lemma removeAt_removes (l l' : SCUHeader) (i : Z) :
  wf l ->
  scu_list_removeAtInternal l i = Returned (SCU_ERROR_NONE, l') ->
  0 <= i < count l
  /\ capacity l' = capacity l
  /\ wf l' /\ itemSize l' = itemSize l /\ count l' = count l - 1
  /\ contents l'
     = firstn (Z.to_nat (i * itemSize l)) (contents l)
       ++ skipn (Z.to_nat (i * itemSize l) + Z.to_nat (itemSize l))
            (contents l).
Proof.
  intros Hwf H.
  destruct (Z.lt_ge_cases i (count l)) as [Hi | Hi].
  2:{ rewrite removeAt_invalid in H by lia. discriminate. }
  rewrite removeAt_as_removeRange in H
    by (pose proof (wf_capacity_in_range l Hwf); destruct Hwf; lia).
  apply removeRange_removes in H; [| assumption | lia].
  rewrite Z.mul_1_l in H. intuition lia.
Qed.

(** The item-level reading of an insertion into the contents. *)
Lemma read_inserted (l l' : SCUHeader) (i n : Z) (X : list byte) :
  wf l -> wf l' -> itemSize l' = itemSize l -> count l' = count l + n ->
  0 <= i <= count l -> 0 <= n ->
  length X = Z.to_nat (n * itemSize l) ->
  contents l'
  = firstn (Z.to_nat (i * itemSize l)) (contents l) ++ X
    ++ skipn (Z.to_nat (i * itemSize l)) (contents l) ->
  (forall j, 0 <= j < i -> read_item l' j = read_item l j)
  /\ (forall j, i <= j < count l -> read_item l' (j + n) = read_item l j)
  /\ (forall k, 0 <= k < n ->
        read_item l' (i + k)
        = slice (Z.to_nat (k * itemSize l)) (Z.to_nat (itemSize l)) X).
Proof.
  intros Hwf Hwf' Hsz Hcount Hi Hn HX Hcontents.
  pose proof (length_contents l Hwf) as Hlen.
  pose proof Hwf as [Hc Hpos _ _].
  set (sz := itemSize l) in *.
  assert (Hp : 0 <= i * sz <= count l * sz) by nia.
  assert (Hq : 0 <= n * sz) by nia.
  split; [| split].
  - intros j Hj. rewrite !read_item_contents by (assumption || lia).
    rewrite Hcontents, Hsz. fold sz.
    assert (0 <= j * sz) by nia. assert ((j + 1) * sz <= i * sz) by nia.
    apply slice_before; lia.
  - intros j Hj. rewrite !read_item_contents by (assumption || lia).
    rewrite Hcontents, Hsz. fold sz.
    assert (i * sz <= j * sz) by nia.
    replace (Z.to_nat ((j + n) * sz))
      with (Z.to_nat (j * sz) + length X)%nat by lia.
    apply slice_after; lia.
  - intros k Hk. rewrite read_item_contents by (assumption || lia).
    rewrite Hcontents, Hsz. fold sz.
    assert (0 <= k * sz) by nia. assert ((k + 1) * sz <= n * sz) by nia.
    unfold slice.
    rewrite (skipn_app_past _ _ (Z.to_nat (k * sz))) by len.
    rewrite (skipn_app_within X) by lia.
    rewrite (firstn_app_within (skipn _ X)) by len.
    reflexivity.
Qed.

(** The item-level reading of a removal from the contents. *)
Lemma read_removed (l l' : SCUHeader) (i n : Z) :
  wf l -> wf l' -> itemSize l' = itemSize l -> count l' = count l - n ->
  0 <= i -> 0 <= n -> i + n <= count l ->
  contents l'
  = firstn (Z.to_nat (i * itemSize l)) (contents l)
    ++ skipn (Z.to_nat (i * itemSize l) + Z.to_nat (n * itemSize l))
         (contents l) ->
  (forall j, 0 <= j < i -> read_item l' j = read_item l j)
  /\ (forall j, i + n <= j < count l -> read_item l' (j - n) = read_item l j).
Proof.
  intros Hwf Hwf' Hsz Hcount Hi Hn Hin Hcontents.
  pose proof (length_contents l Hwf) as Hlen.
  pose proof Hwf as [Hc Hpos _ _].
  set (sz := itemSize l) in *.
  assert (Hp : 0 <= i * sz <= count l * sz) by nia.
  assert (Hq : 0 <= n * sz) by nia.
  split.
  - intros j Hj. rewrite !read_item_contents by (assumption || lia).
    rewrite Hcontents, Hsz. fold sz.
    assert (0 <= j * sz) by nia. assert ((j + 1) * sz <= i * sz) by nia.
    apply slice_cut_before; lia.
  - intros j Hj. rewrite !read_item_contents by (assumption || lia).
    rewrite Hcontents, Hsz. fold sz.
    assert (i * sz <= (j - n) * sz) by nia.
    rewrite slice_cut_after by lia. f_equal. lia.
Qed.
(** ** When the operations succeed *)

Ltac compute_checked :=
  repeat (unfold add64, sub64, mul64, scu_list_itemAt;
          rewrite checked_in_range by (int64; lia); cbn [bind]).

Lemma ensureCapacity_ensured (a : Allocator) (l lm : SCUHeader) (t : Z) :
  scu_list_ensureCapacityInternal a l t = Returned (SCU_ERROR_NONE, lm) ->
  ensured (capacity l) t = Returned (capacity lm).
Proof.
  unfold scu_list_ensureCapacityInternal, ensured. intros H.
  destruct (t <? 0); [discriminate |].
  destruct (capacity l <? t).
  2:{ outcome_step H. now subst lm. }
  apply bind_Returned in H. destruct H as (r & Hr & H). rewrite Hr.
  apply bind_Returned in H. destruct H as (size & _ & H).
  destruct (SCU_REALLOC _ _ _); [| discriminate].
  outcome_step H. now subst lm.
Qed.

Lemma ensureCapacity_succeeds (a : Allocator) (l : SCUHeader) (t r : Z) :
  wf l -> 0 <= t ->
  ensured (capacity l) t = Returned r ->
  r * itemSize l <= INT64_MAX ->
  (forall size, grants a size = true) ->
  exists lm,
    scu_list_ensureCapacityInternal a l t = Returned (SCU_ERROR_NONE, lm).
Proof.
  intros [Hc Hsz Hb Hlen] Ht Hr Hfit Hgrants.
  unfold scu_list_ensureCapacityInternal, ensured in *.
  replace (t <? 0) with false by (symmetry; apply Z.ltb_ge; lia).
  destruct (capacity l <? t) eqn:Hcap; bool_to_prop; [| eauto].
  rewrite Hr. cbn [bind].
  rewrite SCU_MAX_max in Hr. apply grow_Returned in Hr;
    [| unfold SCU_INITIAL_CAPACITY; lia].
  destruct Hr as (k & _ & Hge & _).
  rewrite block_size_in_range by lia. cbn [bind].
  unfold SCU_REALLOC. rewrite Hgrants. eauto.
Qed.

Lemma length_memmove (mem m : list byte) (dst src n : Z) :
  memmove mem dst src n = Returned m -> length m = length mem.
Proof.
  intros H. apply memmove_Returned in H.
  destruct H as (Hd & Hs & Hn & Hdn & Hsn & ->). len.
Qed.

Lemma insertRange_succeeds
  (a : Allocator) (l lm : SCUHeader) (i n : Z) (bs : list byte) :
  wf l -> 0 <= i <= count l -> 0 < n ->
  n * itemSize l <= Z.of_nat (length bs) ->
  scu_list_ensureCapacityInternal a l (count l + n)
  = Returned (SCU_ERROR_NONE, lm) ->
  count l + n <= INT64_MAX ->
  exists l',
    scu_list_insertRangeInternal a l i (Apart (Some bs)) n
    = Returned (SCU_ERROR_NONE, l').
Proof.
  intros Hwf Hi Hn Hbs Hens Hmax.
  pose proof (ensureCapacity_Returned _ _ _ _ _ Hwf Hens) as Hlm.
  cbv beta iota in Hlm.
  destruct Hlm as (Hcap & [Hc Hsz Hb Hlen] & Hcm & Hsm & _).
  unfold scu_list_insertRangeInternal.
  replace (i <? 0) with false by (symmetry; apply Z.ltb_ge; lia).
  replace (i >? count l) with false
    by (symmetry; rewrite Z.gtb_ltb; apply Z.ltb_ge; lia).
  replace (n <? 0) with false by (symmetry; apply Z.ltb_ge; lia).
  replace (n >? 0) with true
    by (symmetry; rewrite Z.gtb_ltb; apply Z.ltb_lt; lia).
  cbn [orb memcpy_items]. unfold add64 at 1.
  rewrite checked_in_range by (int64; lia). cbn [bind]. cbv zeta.
  rewrite Hens. cbn [bind]. rewrite Hcm, Hsm in *.
  set (sz := itemSize l) in *. set (c := count l) in *.
  assert (0 <= i * sz) by nia. assert (0 <= n * sz) by nia.
  assert (i * sz <= c * sz) by nia.
  assert ((c + n) * sz <= capacity lm * sz) by nia.
  compute_checked.
  rewrite memmove_in_bounds by lia. cbn [bind]. compute_checked.
  rewrite memcpy_in_bounds by (try len; lia). cbn [bind]. compute_checked.
  eauto.
Qed.

Lemma removeRange_succeeds (l : SCUHeader) (i n : Z) :
  wf l -> 0 <= i -> 0 < n -> i + n <= count l ->
  exists l',
    scu_list_removeRangeInternal l i n = Returned (SCU_ERROR_NONE, l').
Proof.
  intros Hwf Hi Hn Hin. pose proof (wf_capacity_in_range l Hwf) as Hmax.
  destruct Hwf as [Hc Hsz Hb Hlen].
  unfold scu_list_removeRangeInternal.
  replace (i <? 0) with false by (symmetry; apply Z.ltb_ge; lia).
  replace (n <? 0) with false by (symmetry; apply Z.ltb_ge; lia).
  cbn [orb]. unfold add64 at 1.
  rewrite checked_in_range by (int64; lia). cbn [bind].
  replace (i + n >? count l) with false
    by (symmetry; rewrite Z.gtb_ltb; apply Z.ltb_ge; lia).
  replace (n >? 0) with true
    by (symmetry; rewrite Z.gtb_ltb; apply Z.ltb_lt; lia).
  set (sz := itemSize l) in *. set (c := count l) in *.
  assert (0 <= i * sz) by nia. assert (0 <= n * sz) by nia.
  assert ((i + n) * sz <= c * sz) by nia.
  assert (c * sz <= capacity l * sz) by nia.
  compute_checked.
  rewrite memmove_in_bounds by lia. cbn [bind]. compute_checked.
  eauto.
Qed.
(** ** Growing in several steps *)

Lemma grow_more_fuel (rounds : nat) :
  forall extra x n r,
    grow rounds x n = Returned r -> grow (rounds + extra) x n = Returned r.
Proof.
  induction rounds as [|rounds IH]; intros extra x n r H.
  - simpl in H. destruct (x <? n) eqn:E; [discriminate |].
    destruct extra; simpl; now rewrite E.
  - simpl in *. destruct (x <? n); [| assumption].
    apply bind_Returned in H. destruct H as (v & Hv & H).
    rewrite Hv. cbn [bind].
    apply bind_Returned in H. destruct H as (w & Hw & H).
    rewrite Hw. cbn [bind]. now apply IH.
Qed.

Lemma grow_reached (rounds : nat) (x n : Z) :
  n <= x -> grow rounds x n = Returned x.
Proof.
  intros H. destruct rounds; simpl;
    now replace (x <? n) with false by (symmetry; apply Z.ltb_ge; lia).
Qed.

(** Growing to [T] passes through what growing to a smaller requirement
    [t] gives. *)
Lemma grow_split (rounds : nat) :
  forall x t T R,
    0 <= x -> t <= T ->
    grow rounds x T = Returned R ->
    exists r rounds',
      grow rounds x t = Returned r /\ grow rounds' r T = Returned R
      /\ (rounds' <= rounds)%nat /\ x <= r.
Proof.
  induction rounds as [|rounds IH]; intros x t T R Hx Ht H.
  - simpl in H. destruct (x <? T) eqn:E; [discriminate |]. bool_to_prop.
    exists x, 0%nat. rewrite !grow_reached by lia.
    repeat split; [assumption | lia | lia].
  - destruct (x <? t) eqn:Et; bool_to_prop.
    2:{ exists x, (S rounds). rewrite grow_reached by lia.
        repeat split; [assumption | lia | lia]. }
    simpl in H |- *.
    replace (x <? T) with true in H by (symmetry; apply Z.ltb_lt; lia).
    replace (x <? t) with true by (symmetry; apply Z.ltb_lt; lia).
    apply bind_Returned in H. destruct H as (v & Hv & H).
    rewrite Hv. cbn [bind].
    apply bind_Returned in H. destruct H as (w & Hw & H).
    rewrite Hw. cbn [bind]. outcome_step Hv. outcome_step Hw.
    rewrite Z.quot_div_nonneg in * by lia.
    assert (0 <= x * 3 / 2) by (apply Z.div_pos; lia).
    assert (x <= x * 3 / 2) by (apply Z.div_le_lower_bound; lia).
    destruct (IH (x * 3 / 2 + 1) t T R ltac:(lia) Ht H) as (r & rounds' & Hr & HR & Hle & Hge).
    exists r, rounds'. repeat split; [assumption | assumption | lia | lia].
Qed.

Lemma ensured_ge (c t r : Z) : ensured c t = Returned r -> c <= r /\ t <= r.
Proof.
  unfold ensured. destruct (c <? t) eqn:E; bool_to_prop; intros H.
  - rewrite SCU_MAX_max in H.
    apply grow_Returned in H; [| unfold SCU_INITIAL_CAPACITY; lia].
    destruct H as (k & _ & Hge & _). lia.
  - apply Returned_inj in H. lia.
Qed.

Lemma ensured_split (c t T R : Z) :
  t <= T ->
  ensured c T = Returned R ->
  exists r, ensured c t = Returned r /\ ensured r T = Returned R.
Proof.
  intros Ht H. unfold ensured in H.
  destruct (c <? T) eqn:EcT; bool_to_prop.
  2:{ exists c. unfold ensured.
      replace (c <? t) with false by (symmetry; apply Z.ltb_ge; lia).
      replace (c <? T) with false by (symmetry; apply Z.ltb_ge; lia).
      auto. }
  destruct (c <? t) eqn:Ect; bool_to_prop.
  2:{ exists c. unfold ensured at 1.
      replace (c <? t) with false by (symmetry; apply Z.ltb_ge; lia).
      split; [reflexivity |]. unfold ensured.
      now replace (c <? T) with true by (symmetry; apply Z.ltb_lt; lia). }
  rewrite SCU_MAX_max in H.
  destruct (grow_split growth_rounds (Z.max c SCU_INITIAL_CAPACITY) t T R
              ltac:(unfold SCU_INITIAL_CAPACITY; lia) Ht H)
    as (r & rounds' & Hr & HR & Hle & Hge).
  exists r. split.
  - unfold ensured.
    replace (c <? t) with true by (symmetry; apply Z.ltb_lt; lia).
    now rewrite SCU_MAX_max.
  - unfold ensured. unfold SCU_INITIAL_CAPACITY in *.
    destruct (r <? T) eqn:ErT; bool_to_prop.
    + rewrite SCU_MAX_max, Z.max_l by lia.
      replace growth_rounds with (rounds' + (growth_rounds - rounds'))%nat
        by lia.
      now apply grow_more_fuel.
    + rewrite grow_reached in HR by lia. exact HR.
Qed.

Lemma firstn_plus {A : Type} (l : list A) (a b : nat) :
  firstn (a + b) l = firstn a l ++ firstn b (skipn a l).
Proof.
  rewrite <- (firstn_skipn a l) at 1.
  destruct (Nat.le_gt_cases a (length l)) as [H | H].
  - apply firstn_app_past. rewrite length_firstn. lia.
  - rewrite (skipn_all2 l) by lia. rewrite firstn_nil, !app_nil_r.
    rewrite !firstn_all2; try reflexivity; rewrite ?length_firstn; lia.
Qed.
(** ** Range operations, one item at a time *)

Lemma same_contents_same_list (l1 l2 : SCUHeader) :
  wf l1 -> wf l2 ->
  capacity l1 = capacity l2 -> count l1 = count l2 ->
  itemSize l1 = itemSize l2 -> contents l1 = contents l2 ->
  same_list l1 l2.
Proof.
  intros Hwf1 Hwf2 Hcap Hcount Hsz Hc. repeat split; try assumption.
  unfold elements. rewrite Hcount. apply map_ext_in. intros k Hk.
  apply in_seq in Hk.
  rewrite !read_item_contents by (assumption || lia).
  now rewrite Hsz, Hc.
Qed.

Lemma same_contents_same_elements (l1 l2 : SCUHeader) :
  wf l1 -> wf l2 ->
  count l1 = count l2 -> itemSize l1 = itemSize l2 ->
  contents l1 = contents l2 ->
  elements l1 = elements l2.
Proof.
  intros Hwf1 Hwf2 Hcount Hsz Hc.
  unfold elements. rewrite Hcount. apply map_ext_in. intros k Hk.
  apply in_seq in Hk.
  rewrite !read_item_contents by (assumption || lia).
  now rewrite Hsz, Hc.
Qed.

Lemma insert_one_by_one_succeeds (a : Allocator) (n : nat) :
  forall (l : SCUHeader) (i R : Z) (bs : list byte),
    wf l -> 0 <= i <= count l ->
    Z.of_nat n * itemSize l <= Z.of_nat (length bs) ->
    count l + Z.of_nat n <= INT64_MAX ->
    ensured (capacity l) (count l + Z.of_nat n) = Returned R ->
    R * itemSize l <= INT64_MAX ->
    (forall size, grants a size = true) ->
    exists l2,
      insert_one_by_one a l i bs n = Returned (SCU_ERROR_NONE, l2)
      /\ wf l2 /\ capacity l2 = R /\ count l2 = count l + Z.of_nat n
      /\ itemSize l2 = itemSize l
      /\ contents l2
         = firstn (Z.to_nat (i * itemSize l)) (contents l)
           ++ firstn (Z.to_nat (Z.of_nat n * itemSize l)) bs
           ++ skipn (Z.to_nat (i * itemSize l)) (contents l).
Proof.
  induction n as [|n IH]; intros l i R bs Hwf Hi Hbs Hmax HR Hfit Hgrants.
  - exists l. cbn [insert_one_by_one]. split; [reflexivity |].
    split; [assumption |]. pose proof Hwf as [Hc _ _ _].
    unfold ensured in HR.
    replace (capacity l <? count l + Z.of_nat 0) with false in HR
      by (symmetry; apply Z.ltb_ge; lia).
    apply Returned_inj in HR.
    split; [congruence |]. split; [lia |]. split; [reflexivity |].
    cbn [Z.of_nat Z.mul Z.to_nat firstn app]. symmetry. apply firstn_skipn.
  - pose proof Hwf as [Hc Hsz _ _].
    destruct (ensured_split (capacity l) (count l + 1)
                (count l + Z.of_nat (S n)) R ltac:(lia) HR) as (r & Hr & HrR).
    pose proof (ensured_ge _ _ _ HrR) as [HrleR _].
    pose proof (ensured_ge _ _ _ Hr) as [_ Hrge].
    destruct (ensureCapacity_succeeds a l (count l + 1) r Hwf ltac:(lia) Hr
                ltac:(nia) Hgrants) as (lm & Hens).
    destruct (insertRange_succeeds a l lm i 1 bs Hwf Hi ltac:(lia)
                ltac:(nia) Hens ltac:(lia)) as (l' & Hl').
    rewrite <- insertAt_as_insertRange in Hl' by assumption.
    cbn [insert_one_by_one]. rewrite Hl'. cbn [bind].
    apply insertAt_inserts in Hl'; [| assumption].
    destruct Hl' as (bs' & lm' & Hbs' & _ & _ & Hens' & Hcap' & Hwf' & Hsz'
                     & Hcount' & Hc').
    assert (bs' = bs) by congruence. subst bs'. clear Hbs'.
    rewrite Hens in Hens'. apply Returned_pair_inj in Hens'.
    destruct Hens' as [_ <-].
    apply ensureCapacity_ensured in Hens. rewrite Hr in Hens.
    apply Returned_inj in Hens. subst r.
    set (sz := itemSize l) in *.
    destruct (IH l' (i + 1) R (skipn (Z.to_nat sz) bs)) as
      (l2 & Hrun & Hwf2 & Hcap2 & Hcount2 & Hsz2 & Hc2).
    + assumption.
    + lia.
    + rewrite Hsz', length_skipn. fold sz. nia.
    + lia.
    + rewrite Hcap', Hcount'.
      replace (count l + 1 + Z.of_nat n) with (count l + Z.of_nat (S n))
        by lia.
      assumption.
    + rewrite Hsz'. assumption.
    + assumption.
    + exists l2. split; [assumption |]. split; [assumption |].
      split; [assumption |]. split; [lia |]. split; [congruence |].
      rewrite Hc2, Hc', Hsz'. fold sz.
      pose proof (length_contents l Hwf) as Hlen. fold sz in Hlen.
      assert (0 <= i * sz <= count l * sz) by nia.
      assert (0 <= Z.of_nat n * sz) by nia.
      set (C := contents l) in *.
      replace (Z.to_nat ((i + 1) * sz))
        with (Z.to_nat (i * sz) + Z.to_nat sz)%nat by lia.
      replace (Z.to_nat (Z.of_nat (S n) * sz))
        with (Z.to_nat sz + Z.to_nat (Z.of_nat n * sz))%nat by lia.
      set (p := Z.to_nat (i * sz)). set (s := Z.to_nat sz).
      set (q := Z.to_nat (Z.of_nat n * sz)).
      assert (HX : length (firstn s bs) = s) by (rewrite length_firstn; nia).
      rewrite (firstn_plus bs s q).
      rewrite (app_assoc (firstn p C)).
      rewrite (firstn_app_at (firstn p C ++ firstn s bs)) by len.
      rewrite (skipn_app_at (firstn p C ++ firstn s bs)) by len.
      now rewrite <- !app_assoc.
Qed.

Lemma remove_one_by_one_succeeds (n : nat) :
  forall (l : SCUHeader) (i : Z),
    wf l -> 0 <= i -> i + Z.of_nat n <= count l ->
    exists l2,
      remove_one_by_one l i n = Returned (SCU_ERROR_NONE, l2)
      /\ wf l2 /\ capacity l2 = capacity l
      /\ count l2 = count l - Z.of_nat n
      /\ itemSize l2 = itemSize l
      /\ contents l2
         = firstn (Z.to_nat (i * itemSize l)) (contents l)
           ++ skipn (Z.to_nat (i * itemSize l)
                     + Z.to_nat (Z.of_nat n * itemSize l)) (contents l).
Proof.
  induction n as [|n IH]; intros l i Hwf Hi Hin.
  - exists l. cbn [remove_one_by_one]. split; [reflexivity |].
    split; [assumption |]. split; [reflexivity |]. split; [lia |].
    split; [reflexivity |].
    cbn [Z.of_nat Z.mul Z.to_nat]. rewrite Nat.add_0_r.
    symmetry. apply firstn_skipn.
  - pose proof Hwf as [Hc Hsz _ _].
    pose proof (wf_capacity_in_range l Hwf) as Hmax.
    destruct (removeRange_succeeds l i 1 Hwf Hi ltac:(lia) ltac:(lia))
      as (l' & Hl').
    rewrite <- removeAt_as_removeRange in Hl' by lia.
    cbn [remove_one_by_one]. rewrite Hl'. cbn [bind].
    apply removeAt_removes in Hl'; [| assumption].
    destruct Hl' as (_ & Hcap' & Hwf' & Hsz' & Hcount' & Hc').
    destruct (IH l' i Hwf' Hi ltac:(lia))
      as (l2 & Hrun & Hwf2 & Hcap2 & Hcount2 & Hsz2 & Hc2).
    exists l2. split; [assumption |]. split; [assumption |].
    split; [congruence |]. split; [lia |]. split; [congruence |].
    rewrite Hc2, Hc', Hsz'.
    set (sz := itemSize l) in *.
    pose proof (length_contents l Hwf) as Hlen. fold sz in Hlen.
    assert (0 <= i * sz) by nia.
    assert ((i + Z.of_nat (S n)) * sz <= count l * sz) by nia.
    assert (0 <= Z.of_nat n * sz) by nia.
    set (C := contents l) in *.
    replace (Z.to_nat (Z.of_nat (S n) * sz))
      with (Z.to_nat sz + Z.to_nat (Z.of_nat n * sz))%nat by lia.
    set (p := Z.to_nat (i * sz)). set (s := Z.to_nat sz).
    set (q := Z.to_nat (Z.of_nat n * sz)).
    rewrite (firstn_app_at (firstn p C)) by len.
    rewrite (skipn_app_past (firstn p C) _ q) by len.
    rewrite skipn_skipn. do 2 f_equal. lia.
Qed.
(** ** Appending *)

Lemma grow_join (rounds : nat) :
  forall rounds' x t T r R,
    t <= T ->
    grow rounds x t = Returned r -> grow rounds' r T = Returned R ->
    grow (rounds + rounds') x T = Returned R.
Proof.
  induction rounds as [|rounds IH]; intros rounds' x t T r R Ht Hr HR.
  - simpl in Hr. destruct (x <? t); [discriminate |].
    apply Returned_inj in Hr. now subst r.
  - simpl in Hr. destruct (x <? t) eqn:E; bool_to_prop.
    + cbn [Nat.add grow].
      replace (x <? T) with true by (symmetry; apply Z.ltb_lt; lia).
      apply bind_Returned in Hr. destruct Hr as (v & Hv & Hr).
      rewrite Hv. cbn [bind].
      apply bind_Returned in Hr. destruct Hr as (w & Hw & Hr).
      rewrite Hw. cbn [bind]. eapply IH; eassumption.
    + apply Returned_inj in Hr. subst r.
      rewrite Nat.add_comm. now apply grow_more_fuel.
Qed.

Lemma ensured_join (c t T r R : Z) :
  c <= INT64_MAX -> t <= T ->
  ensured c t = Returned r -> ensured r T = Returned R ->
  ensured c T = Returned R.
Proof.
  intros Hc Ht Hr HR. unfold ensured in Hr.
  destruct (c <? t) eqn:Ect; bool_to_prop.
  2:{ apply Returned_inj in Hr. now subst r. }
  unfold ensured.
  replace (c <? T) with true by (symmetry; apply Z.ltb_lt; lia).
  rewrite <- (grow_fuel_irrelevant growth_rounds) by assumption.
  eapply grow_join; [eassumption | eassumption |].
  pose proof Hr as Hge. rewrite SCU_MAX_max in Hge.
  apply grow_Returned in Hge; [| unfold SCU_INITIAL_CAPACITY; lia].
  destruct Hge as (k & Hk & Hge & _).
  assert (8 <= r).
  { clear - Hk. subst r. unfold SCU_INITIAL_CAPACITY.
    induction k as [|k IH]; [simpl; lia |].
    change (Nat.iter (S k) expand (Z.max c 8))
      with (expand (Nat.iter k expand (Z.max c 8))).
    unfold expand at 1.
    assert (0 <= Nat.iter k expand (Z.max c 8) * 3 / 2) by
      (apply Z.div_pos; lia).
    assert (Nat.iter k expand (Z.max c 8)
            <= Nat.iter k expand (Z.max c 8) * 3 / 2)
      by (apply Z.div_le_lower_bound; lia).
    lia. }
  unfold ensured in HR. destruct (r <? T) eqn:ErT; bool_to_prop.
  - rewrite SCU_MAX_max in HR. unfold SCU_INITIAL_CAPACITY in HR.
    now rewrite Z.max_l in HR by lia.
  - apply Returned_inj in HR. subst R. apply grow_reached. lia.
Qed.

Lemma add_appends (a : Allocator) (l l' : SCUHeader) (item : Buffer) :
  wf l ->
  scu_list_addInternal a l item = Returned (SCU_ERROR_NONE, l') ->
  exists x,
    item = Some x
    /\ itemSize l <= Z.of_nat (length x)
    /\ wf l' /\ itemSize l' = itemSize l /\ count l' = count l + 1
    /\ ensured (capacity l) (count l + 1) = Returned (capacity l')
    /\ contents l' = contents l ++ firstn (Z.to_nat (itemSize l)) x.
Proof.
  intros Hwf H. rewrite add_as_insertAt in H by assumption.
  apply insertAt_inserts in H; [| assumption].
  destruct H as (x & lm & -> & _ & Hx & Hens & Hcap & Hwf' & Hsz & Hcount & Hc).
  exists x. split; [reflexivity |]. split; [assumption |].
  split; [assumption |]. split; [assumption |]. split; [assumption |].
  split.
  { rewrite Hcap. now apply ensureCapacity_ensured in Hens. }
  rewrite Hc. pose proof (length_contents l Hwf) as Hlen.
  rewrite firstn_all2, skipn_all2 by lia. now rewrite app_nil_r.
Qed.

Lemma add_all_appends (a : Allocator) (xs : list (list byte)) :
  forall l l',
    wf l ->
    add_all a l xs = Returned (SCU_ERROR_NONE, l') ->
    wf l' /\ itemSize l' = itemSize l
    /\ count l' = count l + Z.of_nat (length xs)
    /\ ensured (capacity l) (count l + Z.of_nat (length xs))
       = Returned (capacity l')
    /\ contents l'
       = contents l ++ concat (map (firstn (Z.to_nat (itemSize l))) xs)
    /\ Forall (fun x => Z.to_nat (itemSize l) <= length x)%nat xs.
Proof.
  induction xs as [|x xs IH]; intros l l' Hwf H.
  - cbn [add_all] in H. outcome_step H. subst l'.
    pose proof Hwf as [Hc _ _ _].
    split; [assumption |]. split; [reflexivity |].
    cbn [length Z.of_nat map concat]. split; [lia |]. split.
    + unfold ensured.
      now replace (capacity l <? count l + 0) with false
        by (symmetry; apply Z.ltb_ge; lia).
    + split; [now rewrite app_nil_r | constructor].
  - cbn [add_all] in H.
    apply bind_Returned in H. destruct H as ([e l1] & Hadd & H).
    destruct e; try (outcome_step H; discriminate).
    apply add_appends in Hadd; [| assumption].
    destruct Hadd as (x' & Hx' & Hlen & Hwf1 & Hsz1 & Hcount1 & Hcap1 & Hc1).
    assert (x' = x) by congruence. subst x'.
    destruct (IH l1 l' Hwf1 H) as (Hwf' & Hsz' & Hcount' & Hcap' & Hc' & Hall).
    pose proof (wf_capacity_in_range l Hwf) as Hmax.
    pose proof Hwf as [Hc Hpos _ _].
    split; [assumption |]. split; [congruence |].
    cbn [length map concat]. split; [lia |]. split.
    + rewrite Hcount1 in Hcap'.
      replace (count l + Z.of_nat (S (length xs)))
        with (count l + 1 + Z.of_nat (length xs)) by lia.
      eapply ensured_join; [lia | | eassumption | eassumption]. lia.
    + rewrite Hc', Hc1, Hsz1, <- app_assoc. split; [reflexivity |].
      constructor; [lia | now rewrite <- Hsz1].
Qed.

Lemma slice_concat (s : nat) (chunks : list (list byte)) :
  Forall (fun c => length c = s) chunks ->
  forall k c,
    nth_error chunks k = Some c -> slice (k * s) s (concat chunks) = c.
Proof.
  induction 1 as [|c0 chunks Hc0 _ IH]; intros k c Hk.
  - destruct k; discriminate.
  - destruct k as [|k]; cbn [nth_error concat] in *.
    + assert (c0 = c) by congruence. subst c0. unfold slice.
      cbn [Nat.mul skipn]. now apply firstn_app_at.
    + unfold slice. rewrite (skipn_app_past c0 _ (k * s)) by (simpl; lia).
      now apply IH.
Qed.
(** ** Validation *)

(** A growing operation that got past its own guard does not return
    [SCU_ERROR_INVALID_ARGUMENT]: the capacity it asks for is not
    negative. *)
Ltac not_invalid_after_ensure H :=
  let req := fresh "req" in
  let Hreq := fresh "Hreq" in
  let e1 := fresh "e" in
  let lm := fresh "lm" in
  let Hens := fresh "Hens" in
  apply bind_Returned in H; destruct H as (req & Hreq & H);
  outcome_step Hreq;
  apply bind_Returned in H; destruct H as ([e1 lm] & Hens & H);
  apply ensureCapacity_error in Hens;
  destruct e1;
  try (outcome_step H; discriminate);
  [ run_binds H; outcome_step H; discriminate
  | destruct Hens as [Hens | (_ & [(_ & Hens) | (Hens & _)])];
    [discriminate | lia | discriminate] ].

Lemma invalid_argument_iff
  (a : Allocator) (c : Call) (l l' : SCUHeader) (e : SCUError) :
  wf l ->
  call a c l = Returned (e, l') ->
  e = SCU_ERROR_INVALID_ARGUMENT <-> ~ precondition c l.
Proof.
  intros [Hc _ _ _] H. destruct c; cbn [call precondition] in *.
  - split; [| tauto]. intros ->. exfalso.
    unfold scu_list_addInternal in H. not_invalid_after_ensure H.
  - unfold scu_list_addRangeInternal in H.
    destruct (count' <? 0) eqn:Hn; bool_to_prop.
    { outcome_step H. split; [lia | congruence]. }
    split; [| lia]. intros ->. exfalso.
    destruct (count' >? 0) eqn:Hpos; bool_to_prop;
      [| outcome_step H; discriminate].
    not_invalid_after_ensure H.
  - unfold scu_list_insertAtInternal in H.
    destruct (_ || _)%bool eqn:Hguard; bool_to_prop.
    { outcome_step H. split; [| congruence]. intros _.
      destruct Hguard; bool_to_prop; lia. }
    split; [| lia]. intros ->. exfalso. not_invalid_after_ensure H.
  - unfold scu_list_insertRangeInternal in H.
    destruct (_ || _)%bool eqn:Hguard; bool_to_prop.
    { outcome_step H. split; [| congruence]. intros _.
      destruct Hguard as [Hguard | Hguard]; bool_to_prop;
        [destruct Hguard |]; bool_to_prop; lia. }
    split; [| lia]. intros ->. exfalso.
    destruct (count' >? 0) eqn:Hpos; bool_to_prop;
      [| outcome_step H; discriminate].
    not_invalid_after_ensure H.
  - unfold scu_list_removeAtInternal in H.
    destruct (_ || _)%bool eqn:Hguard; bool_to_prop.
    { outcome_step H. split; [| congruence]. intros _.
      destruct Hguard; bool_to_prop; lia. }
    split; [| lia]. intros ->. exfalso.
    run_binds H. outcome_step H. discriminate.
  - unfold scu_list_removeRangeInternal in H.
    destruct (_ || _)%bool eqn:Hguard; bool_to_prop.
    { outcome_step H. split; [| congruence]. intros _.
      destruct Hguard; bool_to_prop; lia. }
    apply bind_Returned in H. destruct H as (past & Hpast & H).
    outcome_step Hpast.
    destruct (index + count' >? count l) eqn:Hrange; bool_to_prop.
    { outcome_step H. split; [lia | congruence]. }
    split; [| lia]. intros ->. exfalso.
    destruct (count' >? 0); [| outcome_step H; discriminate].
    run_binds H. outcome_step H. discriminate.
  - outcome_step H. split; [congruence | tauto].
  - unfold scu_list_ensureCapacityInternal in H.
    destruct (capacity' <? 0) eqn:Hn; bool_to_prop.
    { outcome_step H. split; [lia | congruence]. }
    split; [| lia]. intros ->. exfalso.
    destruct (capacity l <? capacity'); [| outcome_step H; discriminate].
    run_binds H. destruct (SCU_REALLOC _ _ _); outcome_step H; discriminate.
  - split; [| tauto]. intros ->. exfalso.
    apply trimToCount_error in H as Herr.
    unfold scu_list_trimToCountInternal in H.
    destruct (capacity l >? count l); [| outcome_step H; discriminate].
    run_binds H. destruct (SCU_REALLOC _ _ _); outcome_step H; discriminate.
Qed.
(** * The claims of the specification *)

Ltac wf_by_computation :=
  constructor; cbn; [lia | lia | int64; lia | reflexivity].

(** Every list a program can hold -- created by [scu_list_new] or
    [scu_list_withCapacity] with item size [sz] and then taken through any
    sequence of calls of the public surface, each of which returned --
    satisfies [0 <= count <= capacity] and [itemSize > 0], and its
    [itemSize] is the [sz] it was created with.  A call whose behaviour is
    undefined in C is no step of [live]. *)
Lemma live_list_invariant (sz : Z) (l : SCUHeader) :
  live sz l ->
  0 <= count l <= capacity l /\ itemSize l > 0 /\ itemSize l = sz.
Proof.
  intros H. apply live_wf in H. destruct H as [[Hc Hsz _ _] Heq].
  repeat split; [lia | lia | lia | assumption].
Qed.

Lemma live_list_1_99_2_3 : live 4 list_1_99_2_3.
Proof.
  apply (live_call 4 generous (InsertAt 1 (Some (int32_bytes 99)))
           list_1_2_3 SCU_ERROR_NONE); [| reflexivity].
  apply (live_call 4 generous
           (AddRange (Some (concat (map int32_bytes [1; 2; 3]))) 3)
           (returned_list (scu_list_withCapacityInternal generous 3 4))
           SCU_ERROR_NONE); [| reflexivity].
  apply (live_withCapacity 4 generous 3). reflexivity.
Qed.

Lemma live_new_list_10_to_50 : live 4 new_list_10_to_50.
Proof.
  apply (live_call 4 generous (AddRange (Some tens) 5) new_list_of_int32
           SCU_ERROR_NONE); [| reflexivity].
  apply (live_new 4 generous). reflexivity.
Qed.

(** Where signed arithmetic wraps around, [scu_list_removeRangeInternal]
    still returns whatever it returns by the rules of C: the two readings
    differ only on calls whose arithmetic overflows. *)
Lemma wraparound_agrees (l : SCUHeader) (i n : Z) (r : SCUError * SCUHeader) :
  scu_list_removeRangeInternal l i n = Returned r ->
  Wraparound.scu_list_removeRangeInternal l i n = Returned r.
Proof.
  unfold scu_list_removeRangeInternal, Wraparound.scu_list_removeRangeInternal.
  unfold Wraparound.scu_list_itemAt, scu_list_itemAt.
  unfold Wraparound.add64, Wraparound.sub64, Wraparound.mul64.
  intros H. destruct (_ || _)%bool; [assumption |].
  apply bind_Returned in H. destruct H as (past & Hpast & H).
  outcome_step Hpast. cbn [bind]. rewrite wrap64_in_range by assumption.
  destruct (i + n >? count l); [assumption |].
  destruct (n >? 0); [| assumption].
  apply bind_Returned in H. destruct H as (dst & Hdst & H). outcome_step Hdst.
  apply bind_Returned in H. destruct H as (src & Hsrc & H). outcome_step Hsrc.
  apply bind_Returned in H. destruct H as (t1 & Ht1 & H). outcome_step Ht1.
  apply bind_Returned in H. destruct H as (t2 & Ht2 & H). outcome_step Ht2.
  apply bind_Returned in H. destruct H as (nb & Hnb & H). outcome_step Hnb.
  apply bind_Returned in H. destruct H as (mem & Hmem & H).
  apply bind_Returned in H. destruct H as (rest & Hrest & H).
  outcome_step Hrest. cbn [bind].
  rewrite (wrap64_in_range (i * itemSize l)),
    (wrap64_in_range ((i + n) * itemSize l)),
    (wrap64_in_range (count l - i)),
    (wrap64_in_range (count l - i - n)),
    (wrap64_in_range ((count l - i - n) * itemSize l)),
    (wrap64_in_range (count l - n)) by assumption.
  rewrite Hmem. cbn [bind]. exact H.
Qed.

(** C1.  The invariant [0 <= count <= capacity] does not survive every
    call of the public surface.  [new_list_10_to_50] is the list
    [[10, 20, 30, 40, 50]] of [int32_t], made by [scu_list_new] and
    [scu_list_addRange]: count 5, capacity 8.  The call
    [scu_list_removeRange(list, 1, INT64_MAX)] names an invalid range, but
    the range check computes [index + count] in [int64_t], which overflows:
    by the rules of C the call is undefined, and where signed arithmetic
    wraps around it is not rejected, moves 20 bytes inside the 32 bytes of
    storage, returns [SCU_ERROR_NONE], and leaves the count
    [5 - INT64_MAX], a negative number. *)
Theorem overflowing_removeRange_breaks_invariant :
  live 4 new_list_10_to_50
  /\ elements new_list_10_to_50 = map int32_bytes [10; 20; 30; 40; 50]
  /\ count new_list_10_to_50 = 5 /\ capacity new_list_10_to_50 = 8
  /\ ~ precondition (RemoveRange 1 INT64_MAX) new_list_10_to_50
  /\ call generous (RemoveRange 1 INT64_MAX) new_list_10_to_50 = Undefined
  /\ Wraparound.scu_list_removeRangeInternal new_list_10_to_50 1 INT64_MAX
     = Returned (SCU_ERROR_NONE, list_after_overflow)
  /\ count list_after_overflow = 5 - INT64_MAX
  /\ count list_after_overflow < 0
  /\ ~ (0 <= count list_after_overflow <= capacity list_after_overflow).
Proof.
  split; [exact live_new_list_10_to_50 |].
  split; [reflexivity |]. split; [reflexivity |]. split; [reflexivity |].
  split; [cbn; int64; lia |].
  split; [reflexivity |]. split; [reflexivity |]. split; [reflexivity |].
  split; [reflexivity |].
  cbn. lia.
Qed.

(** C2.  When [add], [addRange], [insertAt], [insertRange],
    [ensureCapacity] or [trimToCount] returns [SCU_ERROR_OUT_OF_MEMORY],
    the list is the list it was before the call: capacity, count, item size
    and every byte of the storage. *)
Theorem out_of_memory_keeps_list (a : Allocator) (l l' : SCUHeader) :
  (forall item,
      scu_list_addInternal a l item = Returned (SCU_ERROR_OUT_OF_MEMORY, l') ->
      l' = l)
  /\ (forall items' n,
        scu_list_addRangeInternal a l items' n
        = Returned (SCU_ERROR_OUT_OF_MEMORY, l') ->
        l' = l)
  /\ (forall i item,
        scu_list_insertAtInternal a l i item
        = Returned (SCU_ERROR_OUT_OF_MEMORY, l') ->
        l' = l)
  /\ (forall i items' n,
        scu_list_insertRangeInternal a l i items' n
        = Returned (SCU_ERROR_OUT_OF_MEMORY, l') ->
        l' = l)
  /\ (forall n,
        scu_list_ensureCapacityInternal a l n
        = Returned (SCU_ERROR_OUT_OF_MEMORY, l') ->
        l' = l)
  /\ (scu_list_trimToCountInternal a l = Returned (SCU_ERROR_OUT_OF_MEMORY, l') ->
      l' = l).
Proof.
  repeat split; intros.
  - destruct (add_error _ _ _ _ _ H); [discriminate | assumption].
  - destruct (addRange_error _ _ _ _ _ _ H); [discriminate | assumption].
  - destruct (insertAt_error _ _ _ _ _ _ H); [discriminate | assumption].
  - destruct (insertRange_error _ _ _ _ _ _ _ H); [discriminate | assumption].
  - destruct (ensureCapacity_error _ _ _ _ _ H) as [| []];
      [discriminate | assumption].
  - destruct (trimToCount_error _ _ _ _ H); [discriminate | assumption].
Qed.

Lemma out_of_memory_keeps_list_witness :
  scu_list_addInternal exhausted list_1_2_3 (Some (int32_bytes 4))
  = Returned (SCU_ERROR_OUT_OF_MEMORY, list_1_2_3)
  /\ list_1_2_3 = list_1_2_3.
Proof.
  split; [reflexivity |].
  apply (proj1 (out_of_memory_keeps_list exhausted list_1_2_3 list_1_2_3)
           (Some (int32_bytes 4))).
  reflexivity.
Defined.

(** C3.  When the capacity [c] is below the requirement [n >= 0], a
    successful [ensureCapacity(n)] sets the capacity to the first value that
    is at least [n] in the sequence that starts at [max(c, 8)] and continues
    with [new = old*3/2 + 1].  A list created with the default capacity 8
    has, after nine successful calls of [add], capacity 13 and count 9, and
    reading index [k] gives the item added by call [k]: for every item
    size, allocator and items, and in particular for the [int32_t] items
    [0 .. 8]. *)
Theorem ensureCapacity_follows_growth_policy :
  (forall (a : Allocator) (l l' : SCUHeader) (n : Z),
      0 <= n -> capacity l < n ->
      scu_list_ensureCapacityInternal a l n = Returned (SCU_ERROR_NONE, l') ->
      grown (capacity l) n (capacity l'))
  /\ (forall (a : Allocator) (sz : Z) (l0 l9 : SCUHeader)
             (xs : list (list byte)),
        scu_list_newInternal a sz = Returned (Some l0) ->
        length xs = 9%nat ->
        add_all a l0 xs = Returned (SCU_ERROR_NONE, l9) ->
        capacity l0 = 8 /\ capacity l9 = 13 /\ count l9 = 9
        /\ forall (k : nat) (x : list byte),
             nth_error xs k = Some x ->
             read_item l9 (Z.of_nat k) = firstn (Z.to_nat sz) x)
  /\ (scu_list_newInternal generous 4 = Returned (Some new_list_of_int32)
      /\ add_all generous new_list_of_int32
           (map int32_bytes [0; 1; 2; 3; 4; 5; 6; 7; 8])
         = Returned (SCU_ERROR_NONE, list_0_to_8)
      /\ capacity list_0_to_8 = 13
      /\ count list_0_to_8 = 9
      /\ elements list_0_to_8 = map int32_bytes [0; 1; 2; 3; 4; 5; 6; 7; 8]).
Proof.
  split; [| split; [| repeat split; vm_compute; reflexivity]].
  - intros a l l' n Hn Hc H. unfold scu_list_ensureCapacityInternal in H.
    replace (n <? 0) with false in H by (symmetry; apply Z.ltb_ge; lia).
    replace (capacity l <? n) with true in H
      by (symmetry; apply Z.ltb_lt; lia).
    apply bind_Returned in H. destruct H as (r & Hr & H).
    apply bind_Returned in H. destruct H as (size & _ & H).
    destruct (SCU_REALLOC _ _ _); [| discriminate].
    outcome_step H. subst l'. cbn [capacity set_capacity].
    rewrite SCU_MAX_max in Hr. apply grow_Returned in Hr;
      [| unfold SCU_INITIAL_CAPACITY; lia].
    exact Hr.
  - intros a sz l0 l9 xs Hnew Hlen Hadd.
    apply withCapacity_wf in Hnew.
    destruct Hnew as (Hwf0 & Hcap0 & Hcount0 & Hsz0).
    apply add_all_appends in Hadd; [| assumption].
    destruct Hadd as (Hwf9 & Hsz9 & Hcount9 & Hcap9 & Hc9 & Hall).
    rewrite Hcap0, Hcount0, Hlen in *. rewrite Hsz0 in *.
    change (ensured SCU_INITIAL_CAPACITY (0 + Z.of_nat 9))
      with (Returned (A := Z) 13) in Hcap9.
    apply Returned_inj in Hcap9.
    split; [reflexivity |]. split; [congruence |]. split; [lia |].
    intros k x Hk.
    assert (Hklt : (k < 9)%nat)
      by (rewrite <- Hlen; apply nth_error_Some; congruence).
    rewrite read_item_contents by (assumption || lia).
    rewrite Hc9, Hsz9. unfold contents at 1. rewrite Hcount0.
    cbn [Z.mul Z.to_nat firstn app].
    pose proof Hwf0 as [_ Hpos _ _]. rewrite Hsz0 in Hpos.
    replace (Z.to_nat (Z.of_nat k * sz)) with (k * Z.to_nat sz)%nat by nia.
    apply slice_concat.
    + apply Forall_map. eapply Forall_impl; [| exact Hall].
      intros y Hy. cbv beta in Hy. rewrite length_firstn. lia.
    + rewrite nth_error_map, Hk. reflexivity.
Qed.

Lemma ensureCapacity_follows_growth_policy_witness :
  grown (capacity list_1_2_3) 4 (capacity list_1_99_2_3).
Proof.
  apply (proj1 ensureCapacity_follows_growth_policy generous list_1_2_3
           (updated_list (scu_list_ensureCapacityInternal generous list_1_2_3 4))
           4).
  - lia.
  - cbn. lia.
  - reflexivity.
Defined.
(** C4.  A successful [insertAt(i, x)] puts [x] at index [i], moves every
    item that was at an index [j >= i] to [j + 1], leaves the items before
    [i] alone and adds one to the count.  Inserting 99 at index 1 of
    [[1, 2, 3]] (capacity 3) gives [[1, 99, 2, 3]] with count 4. *)
Theorem insertAt_shifts_items :
  (forall (a : Allocator) (l l' : SCUHeader) (i : Z) (item : Buffer),
      wf l ->
      scu_list_insertAtInternal a l i item = Returned (SCU_ERROR_NONE, l') ->
      0 <= i <= count l
      /\ count l' = count l + 1
      /\ (exists x, item = Some x
                    /\ read_item l' i = firstn (Z.to_nat (itemSize l)) x)
      /\ (forall j, i <= j < count l -> read_item l' (j + 1) = read_item l j)
      /\ (forall j, 0 <= j < i -> read_item l' j = read_item l j))
  /\ (list_of_int32 generous 3 [1; 2; 3] = Returned (Some list_1_2_3)
      /\ capacity list_1_2_3 = 3
      /\ elements list_1_2_3 = map int32_bytes [1; 2; 3]
      /\ scu_list_insertAtInternal generous list_1_2_3 1 (Some (int32_bytes 99))
         = Returned (SCU_ERROR_NONE, list_1_99_2_3)
      /\ count list_1_99_2_3 = 4
      /\ elements list_1_99_2_3 = map int32_bytes [1; 99; 2; 3]).
Proof.
  split; [| repeat split; vm_compute; reflexivity].
  intros a l l' i item Hwf H.
  apply insertAt_inserts in H; [| assumption].
  destruct H as (bs & lm & -> & Hi & Hbs & _ & _ & Hwf' & Hsz & Hcount & Hc).
  pose proof Hwf as [_ Hpos _ _].
  destruct (read_inserted l l' i 1 (firstn (Z.to_nat (itemSize l)) bs))
    as (Hbefore & Hafter & Hat); try assumption; try lia.
  { rewrite length_firstn. lia. }
  split; [assumption |]. split; [assumption |]. split; [| split; assumption].
  exists bs. split; [reflexivity |].
  specialize (Hat 0 ltac:(lia)). rewrite Z.add_0_r in Hat. rewrite Hat.
  unfold slice. rewrite Z.mul_0_l. cbn [Z.to_nat skipn].
  rewrite firstn_firstn. f_equal. lia.
Qed.

Lemma insertAt_shifts_items_witness :
  0 <= 1 <= count list_1_2_3
  /\ count list_1_99_2_3 = count list_1_2_3 + 1
  /\ (exists x, Some (int32_bytes 99) = Some x
                /\ read_item list_1_99_2_3 1
                   = firstn (Z.to_nat (itemSize list_1_2_3)) x)
  /\ (forall j, 1 <= j < count list_1_2_3 ->
        read_item list_1_99_2_3 (j + 1) = read_item list_1_2_3 j)
  /\ (forall j, 0 <= j < 1 -> read_item list_1_99_2_3 j = read_item list_1_2_3 j).
Proof.
  apply (proj1 insertAt_shifts_items generous list_1_2_3 list_1_99_2_3 1
           (Some (int32_bytes 99))).
  - wf_by_computation.
  - vm_compute. reflexivity.
Defined.

(** C5.  [removeAt(i)] removes the item at [i] and nothing else: every item
    that was at an index [j > i] moves to [j - 1], the items before [i]
    stay, and the count goes down by one.  On [[10, 20, 30, 40, 50]],
    [removeRange(1, 2)] gives [[10, 40, 50]] with count 3. *)
Theorem removeAt_shifts_items :
  (forall (l : SCUHeader) (i : Z),
      wf l -> 0 <= i < count l ->
      exists l',
        scu_list_removeAtInternal l i = Returned (SCU_ERROR_NONE, l')
        /\ count l' = count l - 1
        /\ (forall j, i < j < count l -> read_item l' (j - 1) = read_item l j)
        /\ (forall j, 0 <= j < i -> read_item l' j = read_item l j))
  /\ (list_of_int32 generous 5 [10; 20; 30; 40; 50]
      = Returned (Some list_10_to_50)
      /\ elements list_10_to_50 = map int32_bytes [10; 20; 30; 40; 50]
      /\ scu_list_removeRangeInternal list_10_to_50 1 2
         = Returned (SCU_ERROR_NONE, list_10_40_50)
      /\ count list_10_40_50 = 3
      /\ elements list_10_40_50 = map int32_bytes [10; 40; 50]).
Proof.
  split; [| repeat split; vm_compute; reflexivity].
  intros l i Hwf Hi.
  pose proof (wf_capacity_in_range l Hwf) as Hmax.
  pose proof Hwf as [Hc _ _ _].
  destruct (removeRange_succeeds l i 1 Hwf ltac:(lia) ltac:(lia) ltac:(lia))
    as (l' & Hl').
  rewrite <- removeAt_as_removeRange in Hl' by lia.
  exists l'. split; [assumption |].
  apply removeAt_removes in Hl'; [| assumption].
  destruct Hl' as (_ & _ & Hwf' & Hsz & Hcount & Hcontents).
  destruct (read_removed l l' i 1) as (Hbefore & Hafter);
    try assumption; try lia.
  { now rewrite Z.mul_1_l. }
  split; [assumption |]. split; [| assumption].
  intros j Hj. apply Hafter. lia.
Qed.

Lemma removeAt_shifts_items_witness :
  exists l',
    scu_list_removeAtInternal list_10_to_50 1 = Returned (SCU_ERROR_NONE, l')
    /\ count l' = count list_10_to_50 - 1
    /\ (forall j, 1 < j < count list_10_to_50 ->
          read_item l' (j - 1) = read_item list_10_to_50 j)
    /\ (forall j, 0 <= j < 1 -> read_item l' j = read_item list_10_to_50 j).
Proof.
  apply (proj1 removeAt_shifts_items list_10_to_50 1).
  - wf_by_computation.
  - cbn. lia.
Defined.

(** For [items] that point apart from the list, a successful
    [insertRange(i, items, n)] leaves the list that [n] calls of [insertAt]
    leave, item [k] of [items] going to position [i + k]; a successful
    [removeRange(i, n)] leaves the list that [n] calls of [removeAt(i)]
    leave.  The one-by-one runs succeed whenever the range call did (for the
    insertions: with an allocator that grants every request), and the two
    lists have the same capacity, count, item size and items. *)
Lemma range_as_single_steps :
  (forall (a a' : Allocator) (l l1 : SCUHeader) (i n : Z) (bs : list byte),
      wf l ->
      scu_list_insertRangeInternal a l i (Apart (Some bs)) n
      = Returned (SCU_ERROR_NONE, l1) ->
      (forall size, grants a' size = true) ->
      exists l2,
        insert_one_by_one a' l i bs (Z.to_nat n)
        = Returned (SCU_ERROR_NONE, l2)
        /\ same_list l1 l2)
  /\ (forall (l l1 : SCUHeader) (i n : Z),
        wf l ->
        scu_list_removeRangeInternal l i n = Returned (SCU_ERROR_NONE, l1) ->
        exists l2,
          remove_one_by_one l i (Z.to_nat n) = Returned (SCU_ERROR_NONE, l2)
          /\ same_list l1 l2).
Proof.
  split.
  - intros a a' l l1 i n bs Hwf H Hgrants.
    destruct (Z.lt_ge_cases 0 n) as [Hn | Hn].
    + apply insertRange_inserts in H; [| assumption ..].
      destruct H as (bs' & lm & Hbs' & Hi & Hlen & Hens & Hcap & Hwf1 & Hsz
                     & Hcount & Hc).
      assert (bs' = bs) by congruence. subst bs'.
      apply ensureCapacity_ensured in Hens. rewrite <- Hcap in Hens.
      pose proof (wf_capacity_in_range l1 Hwf1) as Hmax.
      pose proof Hwf1 as [Hc1 _ Hb1 _].
      destruct (insert_one_by_one_succeeds a' (Z.to_nat n) l i (capacity l1) bs)
        as (l2 & Hrun & Hwf2 & Hcap2 & Hcount2 & Hsz2 & Hc2);
        rewrite ?Z2Nat.id in * by lia; try assumption; try lia;
        try (rewrite <- Hsz; assumption).
      exists l2. split; [assumption |].
      apply same_contents_same_list; try assumption; congruence.
    + unfold scu_list_insertRangeInternal in H.
      destruct (_ || _)%bool eqn:Hguard; [discriminate |]. bool_to_prop.
      replace (n >? 0) with false in H
        by (symmetry; rewrite Z.gtb_ltb; apply Z.ltb_ge; lia).
      outcome_step H. subst l1.
      replace (Z.to_nat n) with 0%nat by lia.
      exists l. split; [reflexivity |]. repeat split.
  - intros l l1 i n Hwf H.
    destruct (Z.lt_ge_cases 0 n) as [Hn | Hn].
    + apply removeRange_removes in H; [| assumption ..].
      destruct H as (Hi & Hin & Hcap & Hwf1 & Hsz & Hcount & Hc).
      destruct (remove_one_by_one_succeeds (Z.to_nat n) l i)
        as (l2 & Hrun & Hwf2 & Hcap2 & Hcount2 & Hsz2 & Hc2);
        rewrite ?Z2Nat.id in * by lia; try assumption; try lia.
      exists l2. split; [assumption |].
      apply same_contents_same_list; try assumption; congruence.
    + unfold scu_list_removeRangeInternal in H.
      destruct (_ || _)%bool eqn:Hguard; [discriminate |]. bool_to_prop.
      apply bind_Returned in H. destruct H as (past & _ & H).
      destruct (past >? count l); [discriminate |].
      replace (n >? 0) with false in H
        by (symmetry; rewrite Z.gtb_ltb; apply Z.ltb_ge; lia).
      outcome_step H. subst l1.
      replace (Z.to_nat n) with 0%nat by lia.
      exists l. split; [reflexivity |]. repeat split.
Qed.


(** The storage beyond the count is not part of the comparison: after
    [removeRange(1, 2)] on [[10, 20, 30, 40, 50]] the two spare slots hold
    [40, 50], after two calls of [removeAt(1)] they hold [50, 50]. *)
Remark spare_bytes_may_differ :
  exists l2,
    remove_one_by_one list_10_to_50 1 2 = Returned (SCU_ERROR_NONE, l2)
    /\ same_list list_10_40_50 l2
    /\ contents list_10_40_50 = contents l2
    /\ items list_10_40_50 <> items l2.
Proof.
  eexists. split; [reflexivity |].
  split; [repeat split |]. split; [reflexivity | discriminate].
Qed.

(** ** Invalid arguments *)

(** What holds of the validation: a call that returns
    [SCU_ERROR_INVALID_ARGUMENT] has changed nothing, and a call that
    returns at all returns [SCU_ERROR_INVALID_ARGUMENT] exactly when its
    precondition is violated ([invalid_argument_iff]). *)
Lemma invalid_argument_keeps_list
  (a : Allocator) (c : Call) (l l' : SCUHeader) :
  call a c l = Returned (SCU_ERROR_INVALID_ARGUMENT, l') -> l' = l.
Proof.
  intros H. destruct (call_error _ _ _ _ _ H); [discriminate | assumption].
Qed.

Lemma ensureCapacity_invalid (a : Allocator) (l : SCUHeader) (n : Z) :
  n < 0 ->
  scu_list_ensureCapacityInternal a l n
  = Returned (SCU_ERROR_INVALID_ARGUMENT, l).
Proof.
  intros Hn. unfold scu_list_ensureCapacityInternal.
  now replace (n <? 0) with true by (symmetry; apply Z.ltb_lt; lia).
Qed.

Lemma addRange_invalid (a : Allocator) (l : SCUHeader) (buf : Buffer) (n : Z) :
  n < 0 ->
  scu_list_addRangeInternal a l buf n
  = Returned (SCU_ERROR_INVALID_ARGUMENT, l).
Proof.
  intros Hn. unfold scu_list_addRangeInternal.
  now replace (n <? 0) with true by (symmetry; apply Z.ltb_lt; lia).
Qed.

Lemma insertAt_invalid (a : Allocator) (l : SCUHeader) (i : Z) (buf : Buffer) :
  i < 0 \/ count l < i ->
  scu_list_insertAtInternal a l i buf
  = Returned (SCU_ERROR_INVALID_ARGUMENT, l).
Proof.
  intros Hi. unfold scu_list_insertAtInternal.
  replace ((i <? 0) || (i >? count l))%bool with true; [reflexivity |].
  symmetry. apply orb_true_iff. rewrite Z.gtb_ltb, !Z.ltb_lt. lia.
Qed.

Lemma insertRange_invalid
  (a : Allocator) (l : SCUHeader) (i n : Z) (buf : Items) :
  i < 0 \/ count l < i \/ n < 0 ->
  scu_list_insertRangeInternal a l i buf n
  = Returned (SCU_ERROR_INVALID_ARGUMENT, l).
Proof.
  intros Hi. unfold scu_list_insertRangeInternal.
  replace ((i <? 0) || (i >? count l) || (n <? 0))%bool with true;
    [reflexivity |].
  symmetry. rewrite !orb_true_iff, Z.gtb_ltb, !Z.ltb_lt. lia.
Qed.

(** [scu_list_removeRangeInternal] rejects an invalid range as long as
    [index + count] can be computed. *)
Lemma removeRange_invalid (l : SCUHeader) (i n : Z) :
  i < 0 \/ n < 0 \/ (count l < i + n /\ i + n <= INT64_MAX) ->
  INT64_MIN <= i -> INT64_MIN <= n ->
  scu_list_removeRangeInternal l i n
  = Returned (SCU_ERROR_INVALID_ARGUMENT, l).
Proof.
  intros Hi Hi' Hn'. unfold scu_list_removeRangeInternal.
  destruct ((i <? 0) || (n <? 0))%bool eqn:E; [reflexivity |]. bool_to_prop.
  unfold add64. rewrite checked_in_range by (int64; lia). cbn [bind].
  now replace (i + n >? count l) with true
    by (symmetry; rewrite Z.gtb_ltb; apply Z.ltb_lt; lia).
Qed.

(** C7.  The range check of [scu_list_removeRangeInternal] computes
    [index + count] in [int64_t].  For the list [[10, 20, 30, 40, 50]],
    [removeRange(1, INT64_MAX)] names an invalid range (both arguments are
    non-negative and [index + count] is far beyond the count of 5), yet the
    call does not return [SCU_ERROR_INVALID_ARGUMENT]: the sum overflows,
    which is undefined behaviour.  With two's complement wrap-around the sum
    is [INT64_MIN], so the guard [(index + count) > header->count] is false;
    the length given to [memmove] wraps to 20 bytes, which from the
    destination offset 4 runs past the 20 bytes of storage, and the count
    would be set to a negative number. *)
Theorem removeRange_overflow_not_rejected :
  count list_10_to_50 = 5
  /\ ~ precondition (RemoveRange 1 INT64_MAX) list_10_to_50
  /\ scu_list_removeRangeInternal list_10_to_50 1 INT64_MAX = Undefined
  /\ scu_list_removeRangeInternal list_10_to_50 1 INT64_MAX
     <> Returned (SCU_ERROR_INVALID_ARGUMENT, list_10_to_50)
  /\ wrap64 (1 + INT64_MAX) = INT64_MIN
  /\ (wrap64 (1 + INT64_MAX) >? count list_10_to_50) = false
  /\ wrap64 (wrap64 (count list_10_to_50 - 1 - INT64_MAX)
             * itemSize list_10_to_50) = 20
  /\ Z.of_nat (length (items list_10_to_50)) < 1 * itemSize list_10_to_50 + 20
  /\ wrap64 (count list_10_to_50 - INT64_MAX) < 0.
Proof.
  split; [reflexivity |]. split.
  { cbn. int64. lia. }
  repeat split; try (vm_compute; congruence).
Qed.

(** C8.  [trimToCount] succeeds whenever the allocator grants the request.
    After a successful [trimToCount] the capacity equals the count, which
    is the count the list had; item size and items are those of before; and
    a second [trimToCount] returns [SCU_ERROR_NONE] and leaves the list as
    it is, whatever the allocator would have answered: it is not consulted.
    The list [[0 .. 8]] of capacity 13 is trimmed to capacity 9. *)
Theorem trimToCount_twice :
  (forall (a : Allocator) (l : SCUHeader),
      wf l -> (forall size, grants a size = true) ->
      exists l',
        scu_list_trimToCountInternal a l = Returned (SCU_ERROR_NONE, l'))
  /\ (forall (a a' : Allocator) (l l' : SCUHeader),
        wf l ->
        scu_list_trimToCountInternal a l = Returned (SCU_ERROR_NONE, l') ->
        scu_list_capacityInternal l' = scu_list_countInternal l'
        /\ scu_list_countInternal l' = scu_list_countInternal l
        /\ scu_list_itemSizeInternal l' = scu_list_itemSizeInternal l
        /\ elements l' = elements l
        /\ scu_list_trimToCountInternal a' l'
           = Returned (SCU_ERROR_NONE, l'))
  /\ (capacity list_0_to_8 = 13 /\ count list_0_to_8 = 9
      /\ scu_list_trimToCountInternal generous list_0_to_8
         = Returned (SCU_ERROR_NONE, list_0_to_8_trimmed)
      /\ capacity list_0_to_8_trimmed = 9 /\ count list_0_to_8_trimmed = 9
      /\ elements list_0_to_8_trimmed
         = map int32_bytes [0; 1; 2; 3; 4; 5; 6; 7; 8]
      /\ scu_list_trimToCountInternal exhausted list_0_to_8_trimmed
         = Returned (SCU_ERROR_NONE, list_0_to_8_trimmed)).
Proof.
  split; [| split; [| repeat split; vm_compute; reflexivity]].
  - intros a l [Hc Hsz Hb Hlen] Hgrants.
    unfold scu_list_trimToCountInternal.
    destruct (capacity l >? count l); [| eauto].
    assert (count l * itemSize l <= capacity l * itemSize l) by nia.
    rewrite block_size_in_range by lia. cbn [bind].
    unfold SCU_REALLOC. rewrite Hgrants. eauto.
  - intros a a' l l' Hwf H. apply trimToCount_Returned in H; [| assumption].
    destruct H as (Hwf' & Hcap & Hcount & Hsize & Hcontents & _).
    unfold scu_list_capacityInternal, scu_list_countInternal,
      scu_list_itemSizeInternal.
    split; [congruence |]. split; [assumption |]. split; [assumption |].
    split; [now apply same_contents_same_elements |].
    unfold scu_list_trimToCountInternal.
    now replace (capacity l' >? count l') with false
      by (symmetry; rewrite Z.gtb_ltb; apply Z.ltb_ge; lia).
Qed.

Lemma trimToCount_twice_witness :
  scu_list_capacityInternal list_0_to_8_trimmed
  = scu_list_countInternal list_0_to_8_trimmed
  /\ scu_list_countInternal list_0_to_8_trimmed
     = scu_list_countInternal list_0_to_8
  /\ scu_list_itemSizeInternal list_0_to_8_trimmed
     = scu_list_itemSizeInternal list_0_to_8
  /\ elements list_0_to_8_trimmed = elements list_0_to_8
  /\ scu_list_trimToCountInternal exhausted list_0_to_8_trimmed
     = Returned (SCU_ERROR_NONE, list_0_to_8_trimmed).
Proof.
  apply (proj1 (proj2 trimToCount_twice) generous exhausted list_0_to_8).
  - wf_by_computation.
  - reflexivity.
Defined.

(** C9.  With a count argument of zero, [addRange], [insertRange] (at any
    index in [[0, count]]) and [removeRange] (at any index in [[0, count]],
    the one past the end included) return [SCU_ERROR_NONE] and leave the
    list exactly as it was, for every [items] pointer, [nullptr]
    included, and whatever the allocator would have answered. *)
Theorem zero_count_changes_nothing
  (a : Allocator) (l : SCUHeader) (items' : Buffer) (source : Items) (i : Z) :
  wf l -> 0 <= i <= count l ->
  scu_list_addRangeInternal a l items' 0 = Returned (SCU_ERROR_NONE, l)
  /\ scu_list_addRangeInternal a l None 0 = Returned (SCU_ERROR_NONE, l)
  /\ scu_list_insertRangeInternal a l i (Apart items') 0
     = Returned (SCU_ERROR_NONE, l)
  /\ scu_list_insertRangeInternal a l i source 0 = Returned (SCU_ERROR_NONE, l)
  /\ scu_list_insertRangeInternal a l i (Apart None) 0
     = Returned (SCU_ERROR_NONE, l)
  /\ scu_list_removeRangeInternal l i 0 = Returned (SCU_ERROR_NONE, l)
  /\ scu_list_removeRangeInternal l (count l) 0 = Returned (SCU_ERROR_NONE, l).
Proof.
  intros Hwf Hi. pose proof (wf_capacity_in_range l Hwf) as Hmax.
  pose proof Hwf as [Hc _ _ _].
  repeat split;
    first [ reflexivity
          | apply insertRange_nothing; lia
          | apply removeRange_nothing; lia ].
Qed.

Lemma zero_count_changes_nothing_witness :
  scu_list_addRangeInternal exhausted list_1_2_3 None 0
  = Returned (SCU_ERROR_NONE, list_1_2_3)
  /\ scu_list_addRangeInternal exhausted list_1_2_3 None 0
     = Returned (SCU_ERROR_NONE, list_1_2_3)
  /\ scu_list_insertRangeInternal exhausted list_1_2_3 3 (Apart None) 0
     = Returned (SCU_ERROR_NONE, list_1_2_3)
  /\ scu_list_insertRangeInternal exhausted list_1_2_3 3 (Within 4) 0
     = Returned (SCU_ERROR_NONE, list_1_2_3)
  /\ scu_list_insertRangeInternal exhausted list_1_2_3 3 (Apart None) 0
     = Returned (SCU_ERROR_NONE, list_1_2_3)
  /\ scu_list_removeRangeInternal list_1_2_3 3 0
     = Returned (SCU_ERROR_NONE, list_1_2_3)
  /\ scu_list_removeRangeInternal list_1_2_3 (count list_1_2_3) 0
     = Returned (SCU_ERROR_NONE, list_1_2_3).
Proof.
  apply (zero_count_changes_nothing exhausted list_1_2_3 None (Within 4) 3).
  - wf_by_computation.
  - cbn. lia.
Defined.
(** ** The pseudorandom generator *)

Module RandomFacts.
Import Random.

(** Seeding overwrites the seed and all four words of the state: what the
    generator held before does not matter. *)
Lemma setSeed_state (random : SCURandom) (s : Z) :
  state (scu_random_setSeed random s) = splitmix64_state (uint64 s).
Proof. reflexivity. Qed.

Lemma setSeed_seed (random : SCURandom) (s : Z) :
  seed (scu_random_setSeed random s) = uint64 s.
Proof. reflexivity. Qed.

Lemma setSeed_deterministic (random random' : SCURandom) (s : Z) :
  scu_random_setSeed random s = scu_random_setSeed random' s.
Proof. reflexivity. Qed.

Lemma withSeed_deterministic
  (a a' : Allocator) (s : Z) (random random' : SCURandom) :
  scu_random_withSeed a s = Some random ->
  scu_random_withSeed a' s = Some random' ->
  random = random'.
Proof.
  unfold scu_random_withSeed.
  destruct (grants a 40); [| discriminate].
  destruct (grants a' 40); [| discriminate].
  intros [= <-] [= <-]. apply setSeed_deterministic.
Qed.

(** Two generators seeded alike answer every sequence of sampling calls
    alike. *)
Lemma same_seed_same_outputs
  (random random' : SCURandom) (s : Z) (rounds : nat) (cs : list Sample) :
  outputs rounds (scu_random_setSeed random s) cs
  = outputs rounds (scu_random_setSeed random' s) cs.
Proof. now rewrite (setSeed_deterministic random random'). Qed.

Lemma same_seed_same_next (random random' : SCURandom) (s : Z) :
  scu_next (scu_random_setSeed random s)
  = scu_next (scu_random_setSeed random' s).
Proof. now rewrite (setSeed_deterministic random random'). Qed.

(** What [scu_random_getSeed] returns: the seed converted to [int64_t]. *)
Lemma getSeed_setSeed (random : SCURandom) (s : Z) :
  scu_random_getSeed (scu_random_setSeed random s) = to_int64 (uint64 s).
Proof. reflexivity. Qed.

Lemma getSeed_small_seed (random : SCURandom) (s : Z) :
  0 <= s < 2 ^ 63 ->
  scu_random_getSeed (scu_random_setSeed random s) = s.
Proof.
  intros Hs. rewrite getSeed_setSeed. unfold uint64, to_int64.
  rewrite Z.mod_small by lia.
  now replace (s <? 2 ^ 63) with true by (symmetry; apply Z.ltb_lt; lia).
Qed.

Lemma getSeed_congruent (random : SCURandom) (s : Z) :
  0 <= s < 2 ^ 64 ->
  uint64 (scu_random_getSeed (scu_random_setSeed random s)) = s.
Proof.
  intros Hs. rewrite getSeed_setSeed. unfold uint64, to_int64.
  rewrite (Z.mod_small s) by lia.
  destruct (s <? 2 ^ 63) eqn:E; bool_to_prop.
  - apply Z.mod_small. lia.
  - replace (s - 2 ^ 64) with (s + (-1) * 2 ^ 64) by lia.
    rewrite Z.mod_add by lia. apply Z.mod_small. lia.
Qed.

(** C10.  [scu_random_getSeed] is declared to return [int64_t], while the
    seed is a [uint64_t]: for the seed [2^63] given to
    [scu_random_withSeed] the generator stores [2^63], and
    [scu_random_getSeed] returns [-2^63], not the seed that was set. *)
Theorem getSeed_of_large_seed :
  exists random,
    scu_random_withSeed generous (2 ^ 63) = Some random
    /\ seed random = 2 ^ 63
    /\ scu_random_getSeed random = - 2 ^ 63
    /\ scu_random_getSeed random <> 2 ^ 63.
Proof.
  eexists. split; [reflexivity |]. repeat split. discriminate.
Qed.

End RandomFacts.
(** * Further properties of the list *)

(** X1.  A successful [add] puts the item at the old count, leaves every
    earlier item alone and adds one to the count. *)
Theorem add_puts_item_last (a : Allocator) (l l' : SCUHeader) (item : Buffer) :
  wf l ->
  scu_list_addInternal a l item = Returned (SCU_ERROR_NONE, l') ->
  count l' = count l + 1
  /\ (exists x, item = Some x
                /\ read_item l' (count l) = firstn (Z.to_nat (itemSize l)) x)
  /\ (forall j, 0 <= j < count l -> read_item l' j = read_item l j).
Proof.
  intros Hwf H. rewrite add_as_insertAt in H by assumption.
  apply insertAt_inserts in H; [| assumption].
  destruct H as (bs & lm & -> & Hi & Hbs & _ & _ & Hwf' & Hsz & Hcount & Hc).
  pose proof Hwf as [_ Hpos _ _].
  destruct (read_inserted l l' (count l) 1 (firstn (Z.to_nat (itemSize l)) bs))
    as (Hbefore & _ & Hat); try assumption; try lia.
  { rewrite length_firstn. lia. }
  split; [assumption |]. split; [| assumption].
  exists bs. split; [reflexivity |].
  specialize (Hat 0 ltac:(lia)). rewrite Z.add_0_r in Hat. rewrite Hat.
  unfold slice. rewrite Z.mul_0_l. cbn [Z.to_nat skipn].
  rewrite firstn_firstn. f_equal. lia.
Qed.

Lemma add_puts_item_last_witness :
  count list_1_2_3 = 3
  /\ exists l',
       scu_list_addInternal generous list_1_2_3 (Some (int32_bytes 4))
       = Returned (SCU_ERROR_NONE, l')
       /\ count l' = count list_1_2_3 + 1
       /\ (exists x, Some (int32_bytes 4) = Some x
                     /\ read_item l' (count list_1_2_3)
                        = firstn (Z.to_nat (itemSize list_1_2_3)) x)
       /\ (forall j, 0 <= j < count list_1_2_3 ->
             read_item l' j = read_item list_1_2_3 j).
Proof.
  split; [reflexivity |]. eexists. split; [reflexivity |].
  apply (add_puts_item_last generous list_1_2_3 _ (Some (int32_bytes 4))).
  - wf_by_computation.
  - reflexivity.
Defined.

Lemma slice_app_within (A B : list byte) (o len : nat) :
  (o + len <= length A)%nat -> slice o len (A ++ B) = slice o len A.
Proof.
  intros H. unfold slice. rewrite (skipn_app_within A) by lia.
  apply firstn_app_within. len.
Qed.

Lemma slice_app_past (A B : list byte) (o len : nat) :
  (length A <= o)%nat ->
  slice o len (A ++ B) = slice (o - length A) len B.
Proof.
  intros H. unfold slice.
  now rewrite (skipn_app_past A B (o - length A) o) by lia.
Qed.

Lemma slice_skipn (L : list byte) (p o len : nat) :
  slice o len (skipn p L) = slice (p + o) len L.
Proof. unfold slice. rewrite skipn_skipn. do 2 f_equal. lia. Qed.

(** X2.  A successful [insertRange(i, items, n)] with [n > 0] adds [n] to
    the count, moves every item that was at an index [j >= i] to [j + n]
    and leaves the items before [i] alone.  What it puts at [i .. i+n-1]
    depends on where [items] points.  Apart from the list: item [k] of the
    buffer goes to [i + k].  At the list's own items [s .. s+n-1] (the call
    then succeeds only without reallocation): when they lie before the
    insertion point, [s + n <= i], they are the items inserted; otherwise
    [i + n <= s], and what is inserted are the items that were at
    [s - n .. s - 1], not the ones pointed at. *)
Theorem insertRange_shifts_items
  (a : Allocator) (l l' : SCUHeader) (i n : Z) (source : Items) :
  wf l -> 0 < n ->
  scu_list_insertRangeInternal a l i source n = Returned (SCU_ERROR_NONE, l') ->
  0 <= i <= count l
  /\ count l' = count l + n
  /\ (forall j, i <= j < count l -> read_item l' (j + n) = read_item l j)
  /\ (forall j, 0 <= j < i -> read_item l' j = read_item l j)
  /\ match source with
     | Apart buffer =>
         exists bs, buffer = Some bs
           /\ forall k, 0 <= k < n ->
                read_item l' (i + k)
                = slice (Z.to_nat (k * itemSize l)) (Z.to_nat (itemSize l)) bs
     | Within offset =>
         capacity l' = capacity l
         /\ forall s,
              offset = s * itemSize l -> 0 <= s -> s + n <= count l ->
              (s + n <= i
               /\ forall k, 0 <= k < n ->
                    read_item l' (i + k) = read_item l (s + k))
              \/ (i + n <= s
                  /\ forall k, 0 <= k < n ->
                       read_item l' (i + k) = read_item l (s + k - n))
     end.
Proof.
  intros Hwf Hn H.
  apply insertRange_copies in H; [| assumption ..].
  destruct H as (bs & lm & Hsource & Hi & Hbs & Hens & Hcap & Hwf' & Hsz
                 & Hcount & Hc).
  pose proof Hwf as [Hc0 Hpos Hb0 Hlen0].
  assert (Hq : 0 <= n * itemSize l) by nia.
  destruct (read_inserted l l' i n (firstn (Z.to_nat (n * itemSize l)) bs))
    as (Hbefore & Hafter & Hat); try assumption; try lia.
  { rewrite length_firstn. lia. }
  assert (Hread : forall k, 0 <= k < n ->
            read_item l' (i + k)
            = slice (Z.to_nat (k * itemSize l)) (Z.to_nat (itemSize l)) bs).
  { intros k Hk. rewrite (Hat k Hk).
    assert (0 <= k * itemSize l) by nia.
    assert ((k + 1) * itemSize l <= n * itemSize l) by nia.
    apply slice_firstn. lia. }
  split; [assumption |]. split; [assumption |].
  split; [assumption |]. split; [assumption |].
  destruct source as [buffer | offset]; [now exists bs |].
  destruct Hsource as (-> & Hoff & Hapart & ->).
  split; [assumption |].
  intros s -> Hs Hlive.
  apply ensureCapacity_Returned in Hens; [| assumption].
  destruct Hens as (Hroom & _).
  set (sz := itemSize l) in *.
  assert (Hfit : (count l + n) * sz <= capacity l * sz) by nia.
  assert (Hi0 : 0 <= i * sz) by nia.
  assert (Hs0 : 0 <= s * sz) by nia.
  assert (Htail : 0 <= (count l - i) * sz) by nia.
  assert (Hslice : forall k,
            0 <= k < n ->
            read_item l' (i + k)
            = slice (Z.to_nat ((s + k) * sz)) (Z.to_nat sz) (shifted l i n)).
  { intros k Hk. rewrite (Hread k Hk), slice_skipn.
    assert (0 <= k * sz) by nia. f_equal. lia. }
  unfold shifted in Hslice. fold sz in Hslice.
  set (A := firstn (Z.to_nat ((i + n) * sz)) (items l)) in *.
  assert (HA : length A = Z.to_nat ((i + n) * sz))
    by (unfold A; rewrite length_firstn; nia).
  assert (s + n <= i \/ i + n <= s) as [Hfront | Hback] by nia.
  - left. split; [assumption |]. intros k Hk. rewrite (Hslice k Hk).
    assert (0 <= k * sz) by nia.
    assert ((s + k + 1) * sz <= (i + n) * sz) by nia.
    rewrite slice_app_within by lia.
    unfold A, read_item. fold sz. apply slice_firstn. lia.
  - right. split; [assumption |]. intros k Hk. rewrite (Hslice k Hk).
    assert (0 <= k * sz) by nia.
    assert ((i + n) * sz <= (s + k) * sz) by nia.
    assert ((s + k + 1) * sz <= (count l + n) * sz) by nia.
    rewrite slice_app_past by lia.
    rewrite slice_app_within by (rewrite length_firstn, length_skipn; lia).
    rewrite slice_firstn by lia.
    rewrite slice_skipn. unfold read_item. fold sz. f_equal. lia.
Qed.

Lemma insertRange_shifts_items_witness :
  0 <= 0 <= count list_1_2_3_4
  /\ count list_1_2_1_2_3_4 = count list_1_2_3_4 + 2
  /\ (forall j, 0 <= j < count list_1_2_3_4 ->
        read_item list_1_2_1_2_3_4 (j + 2) = read_item list_1_2_3_4 j)
  /\ (forall j, 0 <= j < 0 ->
        read_item list_1_2_1_2_3_4 j = read_item list_1_2_3_4 j)
  /\ capacity list_1_2_1_2_3_4 = capacity list_1_2_3_4
  /\ forall s,
       8 = s * itemSize list_1_2_3_4 -> 0 <= s ->
       s + 2 <= count list_1_2_3_4 ->
       (s + 2 <= 0
        /\ forall k, 0 <= k < 2 ->
             read_item list_1_2_1_2_3_4 (0 + k)
             = read_item list_1_2_3_4 (s + k))
       \/ (0 + 2 <= s
           /\ forall k, 0 <= k < 2 ->
                read_item list_1_2_1_2_3_4 (0 + k)
                = read_item list_1_2_3_4 (s + k - 2)).
Proof.
  apply (insertRange_shifts_items generous list_1_2_3_4 list_1_2_1_2_3_4 0 2
           (Within 8)).
  - wf_by_computation.
  - lia.
  - reflexivity.
Defined.

(** X3.  A successful [addRange(items, n)] with [n > 0] puts item [k] of
    [items] at index [count + k], leaves every earlier item alone and adds
    [n] to the count. *)
Theorem addRange_appends_items
  (a : Allocator) (l l' : SCUHeader) (n : Z) (items' : Buffer) :
  wf l -> 0 < n ->
  scu_list_addRangeInternal a l items' n = Returned (SCU_ERROR_NONE, l') ->
  count l' = count l + n
  /\ (exists bs, items' = Some bs
        /\ forall k, 0 <= k < n ->
             read_item l' (count l + k)
             = slice (Z.to_nat (k * itemSize l)) (Z.to_nat (itemSize l)) bs)
  /\ (forall j, 0 <= j < count l -> read_item l' j = read_item l j).
Proof.
  intros Hwf Hn H. rewrite addRange_as_insertRange in H by assumption.
  apply insertRange_inserts in H; [| assumption ..].
  destruct H as (bs & lm & -> & Hi & Hbs & _ & _ & Hwf' & Hsz & Hcount & Hc).
  pose proof Hwf as [_ Hpos _ _].
  assert (0 <= n * itemSize l) by nia.
  destruct (read_inserted l l' (count l) n
              (firstn (Z.to_nat (n * itemSize l)) bs))
    as (Hbefore & _ & Hat); try assumption; try lia.
  { rewrite length_firstn. lia. }
  split; [assumption |]. split; [| assumption].
  exists bs. split; [reflexivity |]. intros k Hk. rewrite (Hat k Hk).
  assert (0 <= k * itemSize l) by nia.
  assert ((k + 1) * itemSize l <= n * itemSize l) by nia.
  apply slice_firstn. lia.
Qed.

Lemma addRange_appends_items_witness :
  exists l',
    scu_list_addRangeInternal generous list_1_2_3 (Some seven_eight) 2
    = Returned (SCU_ERROR_NONE, l')
    /\ count l' = count list_1_2_3 + 2
    /\ (exists bs, Some seven_eight = Some bs
          /\ forall k, 0 <= k < 2 ->
               read_item l' (count list_1_2_3 + k)
               = slice (Z.to_nat (k * itemSize list_1_2_3))
                   (Z.to_nat (itemSize list_1_2_3)) bs)
    /\ (forall j, 0 <= j < count list_1_2_3 ->
          read_item l' j = read_item list_1_2_3 j).
Proof.
  eexists. split; [reflexivity |].
  apply (addRange_appends_items generous list_1_2_3 _ 2 (Some seven_eight)).
  - wf_by_computation.
  - lia.
  - reflexivity.
Defined.

(** X4.  [removeRange(i, n)] with a valid range and [n > 0] returns
    [SCU_ERROR_NONE]: every item that was at an index [j >= i + n] moves to
    [j - n], the items before [i] stay, the count goes down by [n] and the
    capacity stays. *)
Theorem removeRange_shifts_items (l : SCUHeader) (i n : Z) :
  wf l -> 0 <= i -> 0 < n -> i + n <= count l ->
  exists l',
    scu_list_removeRangeInternal l i n = Returned (SCU_ERROR_NONE, l')
    /\ count l' = count l - n
    /\ capacity l' = capacity l
    /\ (forall j, i + n <= j < count l -> read_item l' (j - n) = read_item l j)
    /\ (forall j, 0 <= j < i -> read_item l' j = read_item l j).
Proof.
  intros Hwf Hi Hn Hin.
  destruct (removeRange_succeeds l i n Hwf Hi Hn Hin) as (l' & Hl').
  exists l'. split; [assumption |].
  apply removeRange_removes in Hl'; [| assumption ..].
  destruct Hl' as (_ & _ & Hcap & Hwf' & Hsz & Hcount & Hcontents).
  destruct (read_removed l l' i n) as (Hbefore & Hafter);
    try assumption; try lia.
  auto.
Qed.

Lemma removeRange_shifts_items_witness :
  exists l',
    scu_list_removeRangeInternal list_10_to_50 1 2
    = Returned (SCU_ERROR_NONE, l')
    /\ count l' = count list_10_to_50 - 2
    /\ capacity l' = capacity list_10_to_50
    /\ (forall j, 1 + 2 <= j < count list_10_to_50 ->
          read_item l' (j - 2) = read_item list_10_to_50 j)
    /\ (forall j, 0 <= j < 1 -> read_item l' j = read_item list_10_to_50 j).
Proof.
  apply (removeRange_shifts_items list_10_to_50 1 2).
  - wf_by_computation.
  - lia.
  - lia.
  - cbn. lia.
Defined.

(** X5.  No call other than [trimToCount] lowers the capacity, and
    [trimToCount] never raises it. *)
Theorem capacity_only_shrinks_by_trimToCount
  (a : Allocator) (c : Call) (l l' : SCUHeader) (e : SCUError) :
  wf l ->
  call a c l = Returned (e, l') ->
  match c with
  | TrimToCount => capacity l' <= capacity l
  | _ => capacity l <= capacity l'
  end.
Proof.
  intros Hwf H.
  destruct (call_error _ _ _ _ _ H) as [-> | ->];
    [| destruct c; lia].
  assert (Hrange : forall i n buf,
             scu_list_insertRangeInternal a l i buf n
             = Returned (SCU_ERROR_NONE, l') ->
             capacity l <= capacity l').
  { intros i n buf Hr. destruct (Z.lt_ge_cases 0 n) as [Hn | Hn].
    - apply insertRange_copies in Hr; [| assumption ..].
      destruct Hr as (bs & lm & _ & _ & _ & Hens & Hcap & _).
      apply ensureCapacity_Returned in Hens; [| assumption].
      cbv beta iota in Hens. destruct Hens as (_ & _ & _ & _ & Hmono & _).
      lia.
    - unfold scu_list_insertRangeInternal in Hr.
      destruct (_ || _)%bool; [discriminate |].
      replace (n >? 0) with false in Hr
        by (symmetry; rewrite Z.gtb_ltb; apply Z.ltb_ge; lia).
      outcome_step Hr. subst l'. lia. }
  assert (Hremove : forall i n,
             scu_list_removeRangeInternal l i n
             = Returned (SCU_ERROR_NONE, l') ->
             capacity l <= capacity l').
  { intros i n Hr. destruct (Z.lt_ge_cases 0 n) as [Hn | Hn].
    - apply removeRange_removes in Hr; [| assumption ..].
      destruct Hr as (_ & _ & Hcap & _). lia.
    - unfold scu_list_removeRangeInternal in Hr.
      destruct (_ || _)%bool; [discriminate |].
      apply bind_Returned in Hr. destruct Hr as (past & _ & Hr).
      destruct (past >? count l); [discriminate |].
      replace (n >? 0) with false in Hr
        by (symmetry; rewrite Z.gtb_ltb; apply Z.ltb_ge; lia).
      outcome_step Hr. subst l'. lia. }
  destruct c; cbn [call] in H.
  - rewrite add_as_insertAt, insertAt_as_insertRange in H by assumption.
    eapply Hrange; eassumption.
  - rewrite addRange_as_insertRange in H by assumption.
    eapply Hrange; eassumption.
  - rewrite insertAt_as_insertRange in H by assumption.
    eapply Hrange; eassumption.
  - eapply Hrange; eassumption.
  - apply removeAt_removes in H; [| assumption].
    destruct H as (_ & Hcap & _). lia.
  - eapply Hremove; eassumption.
  - outcome_step H. subst l'. cbn. lia.
  - apply ensureCapacity_Returned in H; [| assumption].
    cbv beta iota in H. destruct H as (_ & _ & _ & _ & Hmono & _). lia.
  - apply trimToCount_Returned in H; [| assumption].
    cbv beta iota in H. destruct H as (_ & Hcap & _).
    destruct Hwf as [Hc _ _ _]. lia.
Qed.

Lemma capacity_only_shrinks_by_trimToCount_witness :
  capacity list_1_2_3 <= capacity list_1_99_2_3
  /\ capacity list_0_to_8_trimmed <= capacity list_0_to_8.
Proof.
  split.
  - apply (capacity_only_shrinks_by_trimToCount generous
             (InsertAt 1 (Some (int32_bytes 99))) list_1_2_3 list_1_99_2_3
             SCU_ERROR_NONE).
    + wf_by_computation.
    + reflexivity.
  - apply (capacity_only_shrinks_by_trimToCount generous TrimToCount
             list_0_to_8 list_0_to_8_trimmed SCU_ERROR_NONE).
    + wf_by_computation.
    + reflexivity.
Defined.

(** X6.  A successful [ensureCapacity(n)] leaves room for [n] items and
    keeps the list: same count and item size, and the same item at every
    index below the count. *)
Theorem ensureCapacity_keeps_items
  (a : Allocator) (l l' : SCUHeader) (n : Z) :
  wf l ->
  scu_list_ensureCapacityInternal a l n = Returned (SCU_ERROR_NONE, l') ->
  n <= capacity l'
  /\ count l' = count l /\ itemSize l' = itemSize l
  /\ elements l' = elements l
  /\ (forall j, 0 <= j < count l -> read_item l' j = read_item l j).
Proof.
  intros Hwf H. apply ensureCapacity_Returned in H; [| assumption].
  cbv beta iota in H.
  destruct H as (Hn & Hwf' & Hcount & Hsz & _ & Hpre & _).
  pose proof (contents_prefix l l' Hwf Hcount Hsz Hpre) as Hc.
  split; [lia |]. split; [assumption |]. split; [assumption |]. split.
  - now apply same_contents_same_elements.
  - intros j Hj. rewrite !read_item_contents by (assumption || lia).
    now rewrite Hsz, Hc.
Qed.

Lemma ensureCapacity_keeps_items_witness :
  exists l',
    scu_list_ensureCapacityInternal generous list_1_2_3 100
    = Returned (SCU_ERROR_NONE, l')
    /\ 100 <= capacity l'
    /\ count l' = count list_1_2_3 /\ itemSize l' = itemSize list_1_2_3
    /\ elements l' = elements list_1_2_3
    /\ (forall j, 0 <= j < count list_1_2_3 ->
          read_item l' j = read_item list_1_2_3 j).
Proof.
  eexists. split; [reflexivity |].
  apply (ensureCapacity_keeps_items generous list_1_2_3 _ 100).
  - wf_by_computation.
  - reflexivity.
Defined.

(** X7.  After a successful [ensureCapacity(n)], [ensureCapacity(m)] with
    [0 <= m <= n] returns [SCU_ERROR_NONE] and changes nothing, whatever the
    allocator would answer. *)
Theorem ensureCapacity_again_changes_nothing
  (a a' : Allocator) (l l' : SCUHeader) (n m : Z) :
  scu_list_ensureCapacityInternal a l n = Returned (SCU_ERROR_NONE, l') ->
  0 <= m <= n ->
  scu_list_ensureCapacityInternal a' l' m = Returned (SCU_ERROR_NONE, l').
Proof.
  intros H Hm. apply ensureCapacity_ensured in H.
  apply ensured_ge in H. destruct H as [_ Hn].
  unfold scu_list_ensureCapacityInternal.
  replace (m <? 0) with false by (symmetry; apply Z.ltb_ge; lia).
  now replace (capacity l' <? m) with false by (symmetry; apply Z.ltb_ge; lia).
Qed.

Lemma ensureCapacity_again_changes_nothing_witness :
  exists l',
    scu_list_ensureCapacityInternal generous list_1_2_3 100
    = Returned (SCU_ERROR_NONE, l')
    /\ scu_list_ensureCapacityInternal exhausted l' 60
       = Returned (SCU_ERROR_NONE, l').
Proof.
  eexists. split; [reflexivity |].
  apply (ensureCapacity_again_changes_nothing generous exhausted list_1_2_3 _
           100 60).
  - reflexivity.
  - lia.
Defined.

(** X8.  Growing never over-allocates by more than the policy's factor: when
    [ensureCapacity(n)] has to grow a list of capacity [c < n], the new
    capacity is at least [n] and at most the larger of 8 and
    [(n - 1) * 3 / 2 + 1]. *)
Theorem ensureCapacity_growth_is_bounded
  (a : Allocator) (l l' : SCUHeader) (n : Z) :
  0 <= capacity l < n ->
  scu_list_ensureCapacityInternal a l n = Returned (SCU_ERROR_NONE, l') ->
  n <= capacity l' <= Z.max 8 ((n - 1) * 3 / 2 + 1).
Proof.
  intros Hc H. unfold scu_list_ensureCapacityInternal in H.
  replace (n <? 0) with false in H by (symmetry; apply Z.ltb_ge; lia).
  replace (capacity l <? n) with true in H by (symmetry; apply Z.ltb_lt; lia).
  apply bind_Returned in H. destruct H as (r & Hr & H).
  apply bind_Returned in H. destruct H as (size & _ & H).
  destruct (SCU_REALLOC _ _ _); [| discriminate].
  outcome_step H. subst l'. cbn [capacity set_capacity].
  rewrite SCU_MAX_max in Hr. unfold SCU_INITIAL_CAPACITY in Hr.
  apply grow_Returned in Hr; [| lia].
  destruct Hr as (k & -> & Hge & Hmin). split; [assumption |].
  assert (Hlow : n - 1 <= (n - 1) * 3 / 2)
    by (apply Z.div_le_lower_bound; lia).
  destruct k as [|k]; [simpl; lia |].
  specialize (Hmin k ltac:(lia)).
  change (Nat.iter (S k) expand (Z.max (capacity l) 8))
    with (expand (Nat.iter k expand (Z.max (capacity l) 8))).
  unfold expand at 1.
  assert (Nat.iter k expand (Z.max (capacity l) 8) * 3 / 2
          <= (n - 1) * 3 / 2) by (apply Z.div_le_mono; lia).
  lia.
Qed.

Lemma ensureCapacity_growth_is_bounded_witness :
  exists l',
    scu_list_ensureCapacityInternal generous list_1_2_3 100
    = Returned (SCU_ERROR_NONE, l')
    /\ 100 <= capacity l' <= Z.max 8 ((100 - 1) * 3 / 2 + 1).
Proof.
  eexists. split; [reflexivity |].
  apply (ensureCapacity_growth_is_bounded generous list_1_2_3 _ 100).
  - cbn. lia.
  - reflexivity.
Defined.

(** X9.  A successful [trimToCount] loses no item: count, item size and
    every item stay, the capacity becomes the count and the storage holds
    exactly the items. *)
Theorem trimToCount_keeps_items (a : Allocator) (l l' : SCUHeader) :
  wf l ->
  scu_list_trimToCountInternal a l = Returned (SCU_ERROR_NONE, l') ->
  capacity l' = count l
  /\ count l' = count l /\ itemSize l' = itemSize l
  /\ elements l' = elements l
  /\ items l' = contents l.
Proof.
  intros Hwf H. pose proof H as H0.
  apply trimToCount_Returned in H; [| assumption]. cbv beta iota in H.
  destruct H as (Hwf' & Hcap & Hcount & Hsz & Hc & _).
  split; [assumption |]. split; [assumption |]. split; [assumption |].
  split; [now apply same_contents_same_elements |].
  rewrite <- Hc. unfold contents. symmetry. apply firstn_all2.
  destruct Hwf' as [_ _ _ Hlen]. rewrite Hlen, Hcap, Hcount. lia.
Qed.

Lemma trimToCount_keeps_items_witness :
  capacity list_0_to_8_trimmed = count list_0_to_8
  /\ count list_0_to_8_trimmed = count list_0_to_8
  /\ itemSize list_0_to_8_trimmed = itemSize list_0_to_8
  /\ elements list_0_to_8_trimmed = elements list_0_to_8
  /\ items list_0_to_8_trimmed = contents list_0_to_8.
Proof.
  apply (trimToCount_keeps_items generous list_0_to_8 list_0_to_8_trimmed).
  - wf_by_computation.
  - reflexivity.
Defined.
(** [removeRange(i, n)] after a successful [insertRange(i, items, n)]. *)
Lemma removeRange_undoes_insertRange
  (a : Allocator) (l l1 : SCUHeader) (i n : Z) (items' : Items) :
  wf l ->
  scu_list_insertRangeInternal a l i items' n = Returned (SCU_ERROR_NONE, l1) ->
  exists l2,
    scu_list_removeRangeInternal l1 i n = Returned (SCU_ERROR_NONE, l2)
    /\ count l2 = count l /\ itemSize l2 = itemSize l
    /\ capacity l2 = capacity l1
    /\ elements l2 = elements l.
Proof.
  intros Hwf H.
  destruct (Z.lt_ge_cases 0 n) as [Hn | Hn].
  - apply insertRange_copies in H; [| assumption ..].
    destruct H as (bs & lm & _ & Hi & Hbs & _ & _ & Hwf1 & Hsz1 & Hcount1 & Hc1).
    destruct (removeRange_succeeds l1 i n Hwf1 ltac:(lia) Hn ltac:(lia))
      as (l2 & Hl2).
    exists l2. split; [assumption |].
    apply removeRange_removes in Hl2; [| assumption ..].
    destruct Hl2 as (_ & _ & Hcap2 & Hwf2 & Hsz2 & Hcount2 & Hc2).
    split; [lia |]. split; [congruence |]. split; [assumption |].
    apply same_contents_same_elements; [assumption | assumption | lia
                                       | congruence |].
    rewrite Hc2, Hc1, Hsz1.
    pose proof (length_contents l Hwf) as Hlen.
    pose proof Hwf as [Hc Hpos _ _].
    set (sz := itemSize l) in *.
    assert (0 <= i * sz <= count l * sz) by nia.
    assert (0 <= n * sz) by nia.
    set (C := contents l) in *.
    set (p := Z.to_nat (i * sz)). set (q := Z.to_nat (n * sz)).
    assert (HX : length (firstn q bs) = q) by (rewrite length_firstn; lia).
    rewrite (firstn_app_at (firstn p C)) by len.
    rewrite (skipn_app_past (firstn p C) _ q) by len.
    rewrite (skipn_app_at (firstn q bs)) by assumption.
    apply firstn_skipn.
  - unfold scu_list_insertRangeInternal in H.
    destruct (_ || _)%bool eqn:Hguard; [discriminate |]. bool_to_prop.
    replace (n >? 0) with false in H
      by (symmetry; rewrite Z.gtb_ltb; apply Z.ltb_ge; lia).
    outcome_step H. subst l1. assert (n = 0) by lia. subst n.
    exists l. pose proof (wf_capacity_in_range l Hwf).
    pose proof Hwf as [Hc _ _ _].
    rewrite removeRange_nothing by lia. auto.
Qed.

(** X10.  Removing what was just inserted gives the list back: after a
    successful [insertRange(i, items, n)], [removeRange(i, n)] returns
    [SCU_ERROR_NONE] and the list has the count and the items it had before
    the insertion (the capacity may have grown). *)
Theorem insertRange_then_removeRange
  (a : Allocator) (l l1 : SCUHeader) (i n : Z) (items' : Items) :
  wf l ->
  scu_list_insertRangeInternal a l i items' n = Returned (SCU_ERROR_NONE, l1) ->
  exists l2,
    scu_list_removeRangeInternal l1 i n = Returned (SCU_ERROR_NONE, l2)
    /\ count l2 = count l /\ itemSize l2 = itemSize l
    /\ capacity l2 = capacity l1
    /\ elements l2 = elements l.
Proof.
  intros Hwf H.
  destruct (removeRange_undoes_insertRange a l l1 i n items' Hwf H)
    as (l2 & Hl2).
  exists l2. exact Hl2.
Qed.

Lemma insertRange_then_removeRange_witness :
  exists l2,
    scu_list_removeRangeInternal list_1_7_8_2_3 1 2
    = Returned (SCU_ERROR_NONE, l2)
    /\ count l2 = count list_1_2_3 /\ itemSize l2 = itemSize list_1_2_3
    /\ capacity l2 = capacity list_1_7_8_2_3
    /\ elements l2 = elements list_1_2_3.
Proof.
  apply (insertRange_then_removeRange generous list_1_2_3 list_1_7_8_2_3 1 2
           (Apart (Some seven_eight))).
  - wf_by_computation.
  - reflexivity.
Defined.

(** X11.  [removeAt(i)] undoes [insertAt(i, x)]: after a successful
    insertion the removal returns [SCU_ERROR_NONE] and the list has the
    count and the items it had before. *)
Theorem insertAt_then_removeAt
  (a : Allocator) (l l1 : SCUHeader) (i : Z) (item : Buffer) :
  wf l ->
  scu_list_insertAtInternal a l i item = Returned (SCU_ERROR_NONE, l1) ->
  exists l2,
    scu_list_removeAtInternal l1 i = Returned (SCU_ERROR_NONE, l2)
    /\ count l2 = count l /\ itemSize l2 = itemSize l
    /\ elements l2 = elements l.
Proof.
  intros Hwf H. rewrite insertAt_as_insertRange in H by assumption.
  pose proof H as Hins.
  apply insertRange_inserts in Hins; [| assumption | lia].
  destruct Hins as (_ & _ & _ & Hi & _ & _ & _ & Hwf1 & _ & Hcount1 & _).
  pose proof (wf_capacity_in_range l1 Hwf1) as Hmax.
  pose proof Hwf1 as [Hc1 _ _ _].
  rewrite removeAt_as_removeRange by lia.
  destruct (removeRange_undoes_insertRange a l l1 i 1 (Apart item) Hwf H)
    as (l2 & Hl2 & Hcount & Hsz & _ & Hel).
  exists l2. auto.
Qed.

Lemma insertAt_then_removeAt_witness :
  exists l2,
    scu_list_removeAtInternal list_1_99_2_3 1 = Returned (SCU_ERROR_NONE, l2)
    /\ count l2 = count list_1_2_3 /\ itemSize l2 = itemSize list_1_2_3
    /\ elements l2 = elements list_1_2_3.
Proof.
  apply (insertAt_then_removeAt generous list_1_2_3 list_1_99_2_3 1
           (Some (int32_bytes 99))).
  - wf_by_computation.
  - reflexivity.
Defined.
(** X12.  With room to spare no memory is requested: when
    [count + n <= capacity], [insertRange] succeeds whatever the allocator
    would answer, and the capacity stays as it is. *)
Theorem insertRange_within_capacity
  (a : Allocator) (l : SCUHeader) (i n : Z) (bs : list byte) :
  wf l -> 0 <= i <= count l -> 0 < n -> count l + n <= capacity l ->
  n * itemSize l <= Z.of_nat (length bs) ->
  exists l',
    scu_list_insertRangeInternal a l i (Apart (Some bs)) n
    = Returned (SCU_ERROR_NONE, l')
    /\ capacity l' = capacity l /\ count l' = count l + n.
Proof.
  intros Hwf Hi Hn Hroom Hbs.
  pose proof (wf_capacity_in_range l Hwf) as Hmax.
  assert (Hens : scu_list_ensureCapacityInternal a l (count l + n)
                 = Returned (SCU_ERROR_NONE, l)).
  { unfold scu_list_ensureCapacityInternal.
    replace (count l + n <? 0) with false by (symmetry; apply Z.ltb_ge; lia).
    now replace (capacity l <? count l + n) with false
      by (symmetry; apply Z.ltb_ge; lia). }
  destruct (insertRange_succeeds a l l i n bs Hwf Hi Hn Hbs Hens ltac:(lia))
    as (l' & Hl').
  exists l'. split; [assumption |].
  apply insertRange_inserts in Hl'; [| assumption ..].
  destruct Hl' as (bs' & lm & _ & _ & _ & Hens' & Hcap & _ & _ & Hcount & _).
  rewrite Hens in Hens'. apply Returned_pair_inj in Hens'.
  destruct Hens' as [_ <-]. auto.
Qed.

Lemma insertRange_within_capacity_witness :
  exists l',
    scu_list_insertRangeInternal exhausted list_10_40_50 1
      (Apart (Some seven_eight)) 2
    = Returned (SCU_ERROR_NONE, l')
    /\ capacity l' = capacity list_10_40_50
    /\ count l' = count list_10_40_50 + 2.
Proof.
  apply (insertRange_within_capacity exhausted list_10_40_50 1 2 seven_eight).
  - wf_by_computation.
  - cbn. lia.
  - lia.
  - cbn. lia.
  - cbn. lia.
Defined.

(** X13.  [scu_list_withCapacity(cap, sz)] with [cap >= 0], [sz > 0], a
    payload of at most [INT64_MAX] bytes and an allocator that grants the
    block returns an empty list of that capacity and item size. *)
Theorem withCapacity_creates_empty_list (a : Allocator) (cap sz : Z) :
  0 <= cap -> 0 < sz -> cap * sz <= INT64_MAX ->
  grants a (sizeof_SCUHeader + cap * sz) = true ->
  exists l,
    scu_list_withCapacityInternal a cap sz = Returned (Some l)
    /\ scu_list_capacityInternal l = cap
    /\ scu_list_countInternal l = 0
    /\ scu_list_itemSizeInternal l = sz
    /\ scu_list_isEmptyInternal l = true
    /\ elements l = []
    /\ Z.of_nat (length (items l)) = cap * sz.
Proof.
  intros Hcap Hsz Hfit Hgrants. unfold scu_list_withCapacityInternal.
  replace (cap <? 0) with false by (symmetry; apply Z.ltb_ge; lia).
  replace (sz <=? 0) with false by (symmetry; apply Z.leb_gt; lia).
  cbn [orb]. rewrite block_size_in_range by lia. cbn [bind].
  unfold SCU_MALLOC, SCU_REALLOC. rewrite Hgrants.
  eexists. split; [reflexivity |].
  unfold scu_list_capacityInternal, scu_list_countInternal,
    scu_list_itemSizeInternal, scu_list_isEmptyInternal, elements.
  cbn [capacity count itemSize items].
  repeat (split; [reflexivity |]).
  rewrite length_resize. assert (0 <= cap * sz) by nia. lia.
Qed.

Lemma withCapacity_creates_empty_list_witness :
  exists l,
    scu_list_withCapacityInternal generous 5 4 = Returned (Some l)
    /\ scu_list_capacityInternal l = 5
    /\ scu_list_countInternal l = 0
    /\ scu_list_itemSizeInternal l = 4
    /\ scu_list_isEmptyInternal l = true
    /\ elements l = []
    /\ Z.of_nat (length (items l)) = 5 * 4.
Proof.
  apply (withCapacity_creates_empty_list generous 5 4).
  - lia.
  - lia.
  - int64. lia.
  - reflexivity.
Defined.

(** X15.  [scu_list_removeAt] on a well-formed list returns for every
    index: [SCU_ERROR_INVALID_ARGUMENT] with the list untouched when the
    index is outside [0 .. count - 1], [SCU_ERROR_NONE] with one item fewer
    otherwise.  None of its computations leaves the [int64_t] range or the
    storage. *)
Theorem removeAt_always_returns (l : SCUHeader) (i : Z) :
  wf l ->
  exists e l',
    scu_list_removeAtInternal l i = Returned (e, l')
    /\ ((i < 0 \/ count l <= i) ->
        e = SCU_ERROR_INVALID_ARGUMENT /\ l' = l)
    /\ (0 <= i < count l ->
        e = SCU_ERROR_NONE /\ count l' = count l - 1
        /\ capacity l' = capacity l).
Proof.
  intros Hwf. pose proof (wf_capacity_in_range l Hwf) as Hmax.
  pose proof Hwf as [Hc _ _ _].
  destruct (Z.lt_ge_cases i 0) as [Hneg | Hpos].
  - exists SCU_ERROR_INVALID_ARGUMENT, l.
    rewrite removeAt_invalid by lia.
    split; [reflexivity |]. split; [auto | lia].
  - destruct (Z.lt_ge_cases i (count l)) as [Hin | Hout].
    + destruct (removeRange_succeeds l i 1 Hwf Hpos ltac:(lia) ltac:(lia))
        as (l' & Hl').
      rewrite <- removeAt_as_removeRange in Hl' by lia.
      exists SCU_ERROR_NONE, l'. split; [assumption |].
      split; [lia |]. intros _.
      apply removeAt_removes in Hl'; [| assumption].
      destruct Hl' as (_ & Hcap & _ & _ & Hcount & _). auto.
    + exists SCU_ERROR_INVALID_ARGUMENT, l.
      rewrite removeAt_invalid by lia.
      split; [reflexivity |]. split; [auto | lia].
Qed.

Lemma removeAt_always_returns_witness :
  exists e l',
    scu_list_removeAtInternal list_10_to_50 5 = Returned (e, l')
    /\ ((5 < 0 \/ count list_10_to_50 <= 5) ->
        e = SCU_ERROR_INVALID_ARGUMENT /\ l' = list_10_to_50)
    /\ (0 <= 5 < count list_10_to_50 ->
        e = SCU_ERROR_NONE /\ count l' = count list_10_to_50 - 1
        /\ capacity l' = capacity list_10_to_50).
Proof.
  apply (removeAt_always_returns list_10_to_50 5). wf_by_computation.
Defined.
(** ** Sampling in a range, and seeding again *)

Module SamplerFacts.
Import Random.

Lemma to_int64_uint64 (x : Z) : - 2 ^ 63 <= x < 2 ^ 63 -> to_int64 (uint64 x) = x.
Proof.
  intros Hx. unfold to_int64, uint64.
  destruct (Z.lt_ge_cases x 0) as [Hneg | Hpos].
  - replace (x mod 2 ^ 64) with (x + 2 ^ 64).
    + replace (x + 2 ^ 64 <? 2 ^ 63) with false
        by (symmetry; apply Z.ltb_ge; lia).
      lia.
    + symmetry.
      replace x with (x + 2 ^ 64 + (-1) * 2 ^ 64) at 1 by lia.
      rewrite Z.mod_add by lia. apply Z.mod_small. lia.
  - rewrite Z.mod_small by lia.
    now replace (x <? 2 ^ 63) with true by (symmetry; apply Z.ltb_lt; lia).
Qed.

Lemma to_int32_uint32 (x : Z) : - 2 ^ 31 <= x < 2 ^ 31 -> to_int32 (uint32 x) = x.
Proof.
  intros Hx. unfold to_int32, uint32.
  destruct (Z.lt_ge_cases x 0) as [Hneg | Hpos].
  - replace (x mod 2 ^ 32) with (x + 2 ^ 32).
    + replace (x + 2 ^ 32 <? 2 ^ 31) with false
        by (symmetry; apply Z.ltb_ge; lia).
      lia.
    + symmetry.
      replace x with (x + 2 ^ 32 + (-1) * 2 ^ 32) at 1 by lia.
      rewrite Z.mod_add by lia. apply Z.mod_small. lia.
  - rewrite Z.mod_small by lia.
    now replace (x <? 2 ^ 31) with true by (symmetry; apply Z.ltb_lt; lia).
Qed.

Lemma signed_range (m lo hi : Z) :
  0 < m -> lo < hi -> hi - lo < m -> (hi mod m - lo) mod m = hi - lo.
Proof.
  intros Hm Hlt Hfit. rewrite Zminus_mod_idemp_l. apply Z.mod_small. lia.
Qed.

(** X16.  [scu_random_uint64(min, max)] with [min < max] returns a value
    in [[min, max)]; with [min >= max] it returns [min] and leaves the
    generator as it was. *)
Theorem uint64_in_range
  (rounds : nat) (random random' : SCURandom) (min max v : Z) :
  0 <= min < 2 ^ 64 -> 0 <= max < 2 ^ 64 ->
  scu_random_uint64 rounds random min max = Some (v, random') ->
  if min <? max then min <= v < max else v = min /\ random' = random.
Proof.
  intros Hmin Hmax H. unfold scu_random_uint64 in H.
  destruct (min <? max) eqn:Hlt; bool_to_prop.
  - replace (min >=? max) with false in H
      by (symmetry; rewrite Z.geb_leb; apply Z.leb_gt; lia).
    destruct (reject _ _ _ _) as [[result r]|]; [| discriminate].
    injection H as <- _. unfold uint64.
    rewrite (Z.mod_small (max - min)) by lia.
    pose proof (Z.mod_pos_bound result (max - min) ltac:(lia)).
    rewrite Z.mod_small by lia. lia.
  - replace (min >=? max) with true in H
      by (symmetry; rewrite Z.geb_leb; apply Z.leb_le; lia).
    injection H as <- <-. auto.
Qed.

Lemma uint64_in_range_witness :
  exists v random',
    scu_random_uint64 4 seeded_42 3 10 = Some (v, random') /\ 3 <= v < 10.
Proof.
  eexists _, _. split; [vm_compute; reflexivity |].
  eapply (uint64_in_range 4 seeded_42 _ 3 10);
    [lia | lia | vm_compute; reflexivity].
Defined.

(** X17.  [scu_random_int64(min, max)] with [min < max] returns a value in
    [[min, max)], also when [max - min] does not fit an [int64_t]; with
    [min >= max] it returns [min] and leaves the generator as it was. *)
Theorem int64_in_range
  (rounds : nat) (random random' : SCURandom) (min max v : Z) :
  - 2 ^ 63 <= min < 2 ^ 63 -> - 2 ^ 63 <= max < 2 ^ 63 ->
  scu_random_int64 rounds random min max = Some (v, random') ->
  if min <? max then min <= v < max else v = min /\ random' = random.
Proof.
  intros Hmin Hmax H. unfold scu_random_int64 in H.
  destruct (min <? max) eqn:Hlt; bool_to_prop.
  - replace (min >=? max) with false in H
      by (symmetry; rewrite Z.geb_leb; apply Z.leb_gt; lia).
    destruct (reject _ _ _ _) as [[result r]|]; [| discriminate].
    injection H as <- _.
    assert (Hr : uint64 (uint64 max - min) = max - min)
      by (unfold uint64; apply signed_range; lia).
    rewrite Hr.
    pose proof (Z.mod_pos_bound result (max - min) ltac:(lia)).
    rewrite to_int64_uint64 by lia. lia.
  - replace (min >=? max) with true in H
      by (symmetry; rewrite Z.geb_leb; apply Z.leb_le; lia).
    injection H as <- <-. auto.
Qed.

Lemma int64_in_range_witness :
  exists v random',
    scu_random_int64 4 seeded_42 (- 2 ^ 63) (2 ^ 63 - 1) = Some (v, random')
    /\ - 2 ^ 63 <= v < 2 ^ 63 - 1.
Proof.
  eexists _, _. split; [vm_compute; reflexivity |].
  eapply (int64_in_range 4 seeded_42 _ (- 2 ^ 63) (2 ^ 63 - 1));
    [lia | lia | vm_compute; reflexivity].
Defined.

(** X18.  [scu_random_uint32(min, max)] with [min < max] returns a value
    in [[min, max)]; with [min >= max] it returns [min] and leaves the
    generator as it was. *)
Theorem uint32_in_range
  (rounds : nat) (random random' : SCURandom) (min max v : Z) :
  0 <= min < 2 ^ 32 -> 0 <= max < 2 ^ 32 ->
  scu_random_uint32 rounds random min max = Some (v, random') ->
  if min <? max then min <= v < max else v = min /\ random' = random.
Proof.
  intros Hmin Hmax H. unfold scu_random_uint32 in H.
  destruct (min <? max) eqn:Hlt; bool_to_prop.
  - replace (min >=? max) with false in H
      by (symmetry; rewrite Z.geb_leb; apply Z.leb_gt; lia).
    destruct (reject _ _ _ _) as [[result r]|]; [| discriminate].
    injection H as <- _. unfold uint32.
    rewrite (Z.mod_small (max - min)) by lia.
    pose proof (Z.mod_pos_bound result (max - min) ltac:(lia)).
    rewrite Z.mod_small by lia. lia.
  - replace (min >=? max) with true in H
      by (symmetry; rewrite Z.geb_leb; apply Z.leb_le; lia).
    injection H as <- <-. auto.
Qed.

Lemma uint32_in_range_witness :
  exists v random',
    scu_random_uint32 4 seeded_42 3 10 = Some (v, random') /\ 3 <= v < 10.
Proof.
  eexists _, _. split; [vm_compute; reflexivity |].
  eapply (uint32_in_range 4 seeded_42 _ 3 10);
    [lia | lia | vm_compute; reflexivity].
Defined.

(** X19.  [scu_random_int32(min, max)] with [min < max] returns a value in
    [[min, max)], also when [max - min] does not fit an [int32_t]; with
    [min >= max] it returns [min] and leaves the generator as it was. *)
Theorem int32_in_range
  (rounds : nat) (random random' : SCURandom) (min max v : Z) :
  - 2 ^ 31 <= min < 2 ^ 31 -> - 2 ^ 31 <= max < 2 ^ 31 ->
  scu_random_int32 rounds random min max = Some (v, random') ->
  if min <? max then min <= v < max else v = min /\ random' = random.
Proof.
  intros Hmin Hmax H. unfold scu_random_int32 in H.
  destruct (min <? max) eqn:Hlt; bool_to_prop.
  - replace (min >=? max) with false in H
      by (symmetry; rewrite Z.geb_leb; apply Z.leb_gt; lia).
    destruct (reject _ _ _ _) as [[result r]|]; [| discriminate].
    injection H as <- _.
    assert (Hr : uint32 (uint32 max - min) = max - min)
      by (unfold uint32; apply signed_range; lia).
    rewrite Hr.
    pose proof (Z.mod_pos_bound result (max - min) ltac:(lia)).
    rewrite to_int32_uint32 by lia. lia.
  - replace (min >=? max) with true in H
      by (symmetry; rewrite Z.geb_leb; apply Z.leb_le; lia).
    injection H as <- <-. auto.
Qed.

Lemma int32_in_range_witness :
  exists v random',
    scu_random_int32 4 seeded_42 (- 2 ^ 31) (2 ^ 31 - 1) = Some (v, random')
    /\ - 2 ^ 31 <= v < 2 ^ 31 - 1.
Proof.
  eexists _, _. split; [vm_compute; reflexivity |].
  eapply (int32_in_range 4 seeded_42 _ (- 2 ^ 31) (2 ^ 31 - 1));
    [lia | lia | vm_compute; reflexivity].
Defined.

(** X20.  The seed [scu_random_getSeed] returns, given back to
    [scu_random_setSeed], restores the generator: although the seed comes
    back as an [int64_t], its conversion to [uint64_t] is the seed that was
    set. *)
Theorem setSeed_of_getSeed (random random' : SCURandom) (s : Z) :
  scu_random_setSeed random'
    (scu_random_getSeed (scu_random_setSeed random s))
  = scu_random_setSeed random s.
Proof.
  assert (H : uint64 (scu_random_getSeed (scu_random_setSeed random s))
              = uint64 s).
  { change (scu_random_getSeed (scu_random_setSeed random s))
      with (to_int64 (uint64 s)).
    unfold to_int64. pose proof (Z.mod_pos_bound s (2 ^ 64) ltac:(lia)) as Hs.
    fold (uint64 s) in Hs.
    destruct (uint64 s <? 2 ^ 63).
    - unfold uint64. apply Z.mod_mod. lia.
    - unfold uint64 at 1.
      replace (uint64 s - 2 ^ 64) with (uint64 s + (-1) * 2 ^ 64) by lia.
      rewrite Z.mod_add by lia. unfold uint64. apply Z.mod_mod. lia. }
  unfold scu_random_setSeed at 1 3.
  cbv zeta. rewrite H. reflexivity.
Qed.

(** X21.  The generator [scu_random_withSeed] returns does not depend on
    what the fresh block held: its seed is the one given, its state is the
    first four outputs of SplitMix64 started there, and it answers every
    sequence of sampling calls as any generator seeded alike. *)
Theorem withSeed_ignores_fresh_memory
  (a : Allocator) (s : Z) (random : SCURandom) :
  scu_random_withSeed a s = Some random ->
  seed random = uint64 s
  /\ state random = splitmix64_state (uint64 s)
  /\ forall other rounds cs,
       outputs rounds random cs
       = outputs rounds (scu_random_setSeed other s) cs.
Proof.
  unfold scu_random_withSeed. destruct (grants a 40); [| discriminate].
  intros [= <-]. split; [reflexivity |]. split; [reflexivity |].
  intros other rounds cs. reflexivity.
Qed.

Lemma withSeed_ignores_fresh_memory_witness :
  seed seeded_42 = uint64 42
  /\ state seeded_42 = splitmix64_state (uint64 42)
  /\ forall other rounds cs,
       outputs rounds seeded_42 cs
       = outputs rounds (scu_random_setSeed other 42) cs.
Proof.
  apply (withSeed_ignores_fresh_memory generous 42 seeded_42).
  vm_compute. reflexivity.
Defined.

End SamplerFacts.
(** * Lines and formatted text in a growing buffer *)

Module IOFacts.
Import IO.

(** The growth loop returns whenever the requirement is at most [2^61] and
    the rounds suffice to reach it; it stops within twice the
    requirement. *)
Lemma grow_returns (rounds : nat) :
  forall x n,
    1 <= x -> n <= 2 ^ 61 ->
    n * n <= x * x * 2 ^ Z.of_nat rounds ->
    exists r,
      grow rounds x n = Returned r
      /\ x <= r /\ n <= r /\ r <= Z.max x (2 * n).
Proof.
  induction rounds as [|rounds IH]; intros x n Hx Hn Hbig.
  - change (2 ^ Z.of_nat 0) with 1 in Hbig.
    assert (n <= x) by nia.
    exists x. rewrite grow_reached by lia. split; [reflexivity | lia].
  - destruct (Z.le_gt_cases n x) as [Hle | Hlt].
    { exists x. rewrite grow_reached by lia. split; [reflexivity | lia]. }
    cbn [grow]. replace (x <? n) with true by (symmetry; apply Z.ltb_lt; lia).
    assert (0 <= x * 3 / 2) by (apply Z.div_pos; lia).
    assert (x * 3 / 2 <= x * 3) by (apply Z.div_le_upper_bound; lia).
    assert (2 * (x * 3 / 2) <= 3 * x)
      by (pose proof (Z.mul_div_le (x * 3) 2 ltac:(lia)); lia).
    unfold mul64, add64. rewrite checked_in_range by (int64; lia).
    cbn [bind]. rewrite Z.quot_div_nonneg by lia.
    rewrite checked_in_range by (int64; lia). cbn [bind].
    destruct (IH (x * 3 / 2 + 1) n ltac:(lia) Hn) as (r & Hr & Hge & Hnr & Hmax).
    + pose proof (expand_squares x ltac:(lia)) as Hsq. unfold expand in Hsq.
      rewrite Nat2Z.inj_succ, Z.pow_succ_r in Hbig by lia.
      assert (0 < 2 ^ Z.of_nat rounds) by (apply Z.pow_pos_nonneg; lia).
      nia.
    + exists r. split; [assumption |]. lia.
Qed.

Lemma usable_guard (t : Target) :
  usable t ->
  ((capacity t <? 0) || xorb (is_null (buffer t)) (capacity t =? 0))%bool
  = false.
Proof.
  unfold usable. destruct (buffer t) as [mem|]; cbn [is_null].
  - intros [Hc _].
    replace (capacity t <? 0) with false by (symmetry; apply Z.ltb_ge; lia).
    now replace (capacity t =? 0) with false
      by (symmetry; apply Z.eqb_neq; lia).
  - now intros ->.
Qed.

(** [scu_ensureCapacity] on a usable pair, for a requirement of at most
    [2^61]. *)
Lemma ensureCapacity_usable (a : Allocator) (t : Target) (n : Z) :
  usable t -> 0 <= n <= 2 ^ 61 ->
  exists e t',
    scu_ensureCapacity a t n = Returned (e, t')
    /\ usable t'
    /\ capacity t <= capacity t'
    /\ (e = SCU_ERROR_NONE
        /\ n <= capacity t' <= Z.max (capacity t) (2 * n)
        /\ (n <= capacity t -> t' = t)
        /\ (0 < n -> exists mem',
               buffer t' = Some mem'
               /\ forall mem, buffer t = Some mem ->
                              firstn (length mem) mem' = mem)
        \/ e = SCU_ERROR_OUT_OF_MEMORY /\ t' = t /\ capacity t < n
           /\ exists size, grants a size = false)
    /\ ((forall size, grants a size = true) -> e = SCU_ERROR_NONE).
Proof.
  intros Hu Hn. unfold scu_ensureCapacity.
  pose proof (usable_guard t Hu) as Hg. apply orb_false_iff in Hg.
  destruct Hg as [Hneg Hxor]. rewrite Hneg, Hxor.
  replace (n <? 0) with false by (symmetry; apply Z.ltb_ge; lia).
  cbn [orb].
  destruct (capacity t <? n) eqn:Hlt; bool_to_prop.
  - rewrite SCU_MAX_max.
    destruct (grow_returns growth_rounds (Z.max (capacity t) 1) n
                ltac:(lia) ltac:(lia)) as (r & Hr & Hxr & Hnr & Hmax).
    { unfold growth_rounds. change (2 ^ Z.of_nat 128) with (2 ^ 128).
      assert (1 <= Z.max (capacity t) 1 * Z.max (capacity t) 1) by nia.
      nia. }
    rewrite Hr. cbn [bind]. unfold SCU_REALLOC.
    destruct (grants a r) eqn:Hgrant.
    + eexists _, _. split; [reflexivity |].
      cbn [buffer capacity]. unfold usable at 1. cbn [buffer capacity].
      rewrite length_resize. int64.
      split; [lia |]. split; [lia |]. split.
      * left. split; [reflexivity |]. split; [lia |]. split; [lia |].
        intros _. eexists. split; [reflexivity |].
        intros mem Hmem. rewrite Hmem. apply resize_grow.
        unfold usable in Hu. rewrite Hmem in Hu. lia.
      * reflexivity.
    + exists SCU_ERROR_OUT_OF_MEMORY, t. split; [reflexivity |].
      split; [assumption |]. split; [lia |]. split.
      * right. split; [reflexivity |]. split; [reflexivity |].
        split; [lia |]. now exists r.
      * intros Hall. rewrite Hall in Hgrant. discriminate.
  - exists SCU_ERROR_NONE, t. split; [reflexivity |].
    split; [assumption |]. split; [lia |]. split.
    + left. split; [reflexivity |]. split; [lia |]. split; [reflexivity |].
      intros Hpos. unfold usable in Hu.
      destruct (buffer t) as [mem|] eqn:Hmem; [| lia].
      exists mem. split; [reflexivity |].
      intros mem0 [= <-]. apply firstn_all.
    + reflexivity.
Qed.

Lemma store_in_bounds (t : Target) (mem : list byte) (index : Z) (c : byte) :
  buffer t = Some mem -> 0 <= index < Z.of_nat (length mem) ->
  store t index c
  = Returned {| buffer := Some (firstn (Z.to_nat index) mem
                                ++ c :: skipn (S (Z.to_nat index)) mem);
                capacity := capacity t |}.
Proof.
  intros Hmem Hi. unfold store. rewrite Hmem.
  replace (0 <=? index) with true by (symmetry; apply Z.leb_le; lia).
  now replace (index <? Z.of_nat (length mem)) with true
    by (symmetry; apply Z.ltb_lt; lia).
Qed.

Lemma length_stored (mem : list byte) (i : nat) (c : byte) :
  (i < length mem)%nat ->
  length (firstn i mem ++ c :: skipn (S i) mem) = length mem.
Proof. intros H. rewrite length_app. cbn [length]. len. Qed.

Lemma firstn_stored (mem : list byte) (i : nat) (c : byte) :
  (i < length mem)%nat ->
  firstn (S i) (firstn i mem ++ c :: skipn (S i) mem) = firstn i mem ++ [c].
Proof.
  intros H.
  change (firstn i mem ++ c :: skipn (S i) mem)
    with (firstn i mem ++ [c] ++ skipn (S i) mem).
  rewrite app_assoc. apply firstn_app_at. rewrite length_app. cbn [length]. len.
Qed.

(** The reading loop on a stream whose end-of-file indicator is clear. *)
Lemma read_chars_returns (a : Allocator) :
  forall (chars : list byte) (rounds : nat) (stream : FILE) (t : Target)
         (mem : list byte) (index : Z),
    pending stream = chars -> eof_indicator stream = false ->
    (length chars < rounds)%nat ->
    usable t -> buffer t = Some mem -> 0 <= index < capacity t ->
    index + Z.of_nat (length chars) + 2 <= 2 ^ 61 ->
    exists e stream' t' index',
      read_chars rounds a stream t index = Returned (e, stream', t', index')
      /\ usable t' /\ capacity t <= capacity t'
      /\ (e = SCU_ERROR_OUT_OF_MEMORY
          \/ e = SCU_ERROR_NONE
             /\ index' = index + Z.of_nat (length (first_line chars))
             /\ index' < capacity t'
             /\ (exists mem',
                    buffer t' = Some mem'
                    /\ firstn (Z.to_nat index') mem'
                       = firstn (Z.to_nat index) mem ++ first_line chars)
             /\ pending stream' = after_first_line chars
             /\ failing stream' = failing stream
             /\ eof_indicator stream'
                = (negb (has_newline chars) && negb (failing stream))%bool
             /\ error_indicator stream'
                = (error_indicator stream
                   || negb (has_newline chars) && failing stream)%bool)
      /\ ((forall size, grants a size = true) -> e = SCU_ERROR_NONE).
Proof.
  induction chars as [|c rest IH];
    intros rounds stream t mem index Hp Heof Hrounds Hu Hmem Hi Hbound;
    (destruct rounds as [|rounds]; [cbn [length] in Hrounds; lia |]);
    cbn [read_chars]; unfold fgetc; rewrite Heof, Hp.
  - destruct (failing stream) eqn:Hf;
      (eexists _, _, _, _; split; [reflexivity |]);
      (split; [assumption |]); (split; [lia |]);
      (split; [| reflexivity]); right;
      cbn [first_line after_first_line has_newline length pending failing
           eof_indicator error_indicator negb andb];
      (split; [reflexivity |]); (split; [lia |]); (split; [lia |]);
      (split; [exists mem; split; [assumption | now rewrite app_nil_r] |]);
      repeat split; auto using orb_true_r, orb_false_r.
  - cbn [length] in Hbound, Hrounds.
    unfold add64 at 1. rewrite checked_in_range by (int64; lia). cbn [bind].
    destruct (ensureCapacity_usable a t (index + 2) Hu ltac:(lia))
      as (e1 & t1 & Hens & Hu1 & Hmono & Hcases & Hgrants).
    rewrite Hens. cbn [bind].
    destruct Hcases as [(-> & Hcap1 & _ & Hkeep) | (-> & -> & _)].
    2:{ eexists _, _, _, _. split; [reflexivity |].
        split; [assumption |]. split; [lia |]. split; [now left |].
        intros Hall. now apply Hgrants. }
    destruct (Hkeep ltac:(lia)) as (mem1 & Hmem1 & Hprefix).
    specialize (Hprefix mem Hmem).
    assert (Hlen : Z.of_nat (length mem) = capacity t)
      by (unfold usable in Hu; rewrite Hmem in Hu; lia).
    assert (Hlen1 : Z.of_nat (length mem1) = capacity t1)
      by (unfold usable in Hu1; rewrite Hmem1 in Hu1; lia).
    assert (Hmax1 : capacity t1 <= INT64_MAX)
      by (unfold usable in Hu1; rewrite Hmem1 in Hu1; lia).
    rewrite (store_in_bounds t1 mem1 index c Hmem1) by lia. cbn [bind].
    unfold add64 at 1. rewrite checked_in_range by (int64; lia). cbn [bind].
    set (mem2 := firstn (Z.to_nat index) mem1
                 ++ c :: skipn (S (Z.to_nat index)) mem1).
    set (t2 := {| buffer := Some mem2; capacity := capacity t1 |}).
    assert (Hlen2 : length mem2 = length mem1)
      by (apply length_stored; lia).
    assert (Hu2 : usable t2).
    { unfold usable, t2. cbn [buffer capacity]. rewrite Hlen2. lia. }
    assert (Hfirst : firstn (Z.to_nat (index + 1)) mem2
                     = firstn (Z.to_nat index) mem ++ [c]).
    { replace (Z.to_nat (index + 1)) with (S (Z.to_nat index)) by lia.
      unfold mem2. rewrite firstn_stored by lia. f_equal.
      rewrite <- Hprefix at 1. rewrite firstn_firstn. f_equal. lia. }
    destruct (is_newline c) eqn:Hnl.
    + eexists _, _, _, _. split; [reflexivity |].
      split; [assumption |]. split; [assumption |].
      split; [| intros _; reflexivity]. right.
      cbn [first_line after_first_line has_newline length pending failing
           eof_indicator error_indicator]. rewrite Hnl.
      cbn [orb negb andb length].
      split; [reflexivity |]. split; [lia |].
      split; [cbn [capacity t2]; unfold t2; cbn [capacity]; lia |].
      split; [exists mem2; split; [reflexivity | assumption] |].
      rewrite orb_false_r. auto.
    + destruct (IH rounds
                  {| pending := rest; failing := failing stream;
                     eof_indicator := false;
                     error_indicator := error_indicator stream |}
                  t2 mem2 (index + 1) eq_refl eq_refl ltac:(lia) Hu2 eq_refl
                  ltac:(unfold t2; cbn [capacity]; lia) ltac:(lia))
        as (e & s' & t' & i' & Hrun & Hu' & Hmono' & Hcases' & Hgrants').
      rewrite Hrun. exists e, s', t', i'. split; [reflexivity |].
      split; [assumption |].
      split; [unfold t2 in Hmono'; cbn [capacity] in Hmono'; lia |].
      split; [| assumption].
      destruct Hcases' as [-> | (-> & Hi' & Hroom & (mem' & Hmem' & Hf')
                                  & Hpend & Hfail & Heof' & Herr')];
        [now left | right].
      cbn [first_line after_first_line has_newline length failing
           error_indicator] in *.
      rewrite Hnl. cbn [orb length].
      split; [reflexivity |]. split; [lia |]. split; [assumption |].
      split; [| auto].
      exists mem'. split; [assumption |].
      rewrite Hf', Hfirst, <- app_assoc. reflexivity.
Qed.

(** Before the loop: a pair without block gets one of at least
    [SCU_INITIAL_CAPACITY] characters. *)
Lemma first_block (a : Allocator) (t : Target) :
  usable t ->
  exists e t1,
    (if is_null (buffer t)
     then scu_ensureCapacity a t SCU_INITIAL_CAPACITY
     else Returned (SCU_ERROR_NONE, t)) = Returned (e, t1)
    /\ usable t1 /\ capacity t <= capacity t1
    /\ (e = SCU_ERROR_OUT_OF_MEMORY /\ t1 = t
        \/ e = SCU_ERROR_NONE /\ 0 < capacity t1
           /\ exists mem1, buffer t1 = Some mem1)
    /\ ((forall size, grants a size = true) -> e = SCU_ERROR_NONE).
Proof.
  intros Hu. destruct (buffer t) as [mem|] eqn:Hmem; cbn [is_null].
  - exists SCU_ERROR_NONE, t. split; [reflexivity |].
    split; [assumption |]. split; [lia |]. split; [| auto].
    right. split; [reflexivity |]. unfold usable in Hu. rewrite Hmem in Hu.
    split; [lia | eauto].
  - destruct (ensureCapacity_usable a t SCU_INITIAL_CAPACITY Hu
                ltac:(unfold SCU_INITIAL_CAPACITY; lia))
      as (e & t1 & Hens & Hu1 & Hmono & Hcases & Hgrants).
    exists e, t1. split; [assumption |]. split; [assumption |].
    split; [assumption |]. split; [| assumption].
    destruct Hcases as [(-> & Hcap & _ & Hkeep) | (-> & -> & _)];
      [right | now left].
    unfold SCU_INITIAL_CAPACITY in *.
    destruct (Hkeep ltac:(lia)) as (mem1 & Hmem1 & _).
    split; [reflexivity |]. split; [lia | eauto].
Qed.

Lemma store_holds (t : Target) (mem : list byte) (index : Z) (s : list byte) :
  buffer t = Some mem -> 0 <= index < Z.of_nat (length mem) ->
  firstn (Z.to_nat index) mem = s ->
  exists t',
    store t index x00 = Returned t'
    /\ holds t' s /\ capacity t' = capacity t
    /\ (usable t -> usable t').
Proof.
  intros Hmem Hi Hs. eexists. split; [apply (store_in_bounds t mem index x00 Hmem Hi) |].
  unfold holds, usable. cbn [buffer capacity]. rewrite Hs.
  split; [eauto |]. split; [reflexivity |].
  rewrite Hmem, <- Hs, length_stored by lia. auto.
Qed.

(** [scu_readLine] on a stream whose end-of-file indicator is clear. *)
Lemma readLine_open_stream (a : Allocator) (stream : FILE) (t : Target) :
  usable t -> eof_indicator stream = false ->
  Z.of_nat (length (pending stream)) + 2 <= 2 ^ 61 ->
  exists e stream' t',
    scu_readLine a stream t = Returned (e, stream', t')
    /\ usable t' /\ capacity t <= capacity t'
    /\ ((forall size, grants a size = true) -> e <> SCU_ERROR_OUT_OF_MEMORY)
    /\ (e = SCU_ERROR_OUT_OF_MEMORY
        \/ holds t' (first_line (pending stream))
           /\ pending stream' = after_first_line (pending stream)
           /\ e = (if (error_indicator stream
                       || negb (has_newline (pending stream))
                          && failing stream)%bool
                   then SCU_ERROR_READING_STREAM_FAILED
                   else if (negb (has_newline (pending stream))
                            && negb (failing stream)
                            && (Z.of_nat (length (first_line (pending stream)))
                                =? 0))%bool
                        then SCU_ERROR_END_OF_FILE
                        else SCU_ERROR_NONE)
           /\ failing stream' = failing stream
           /\ eof_indicator stream'
              = (negb (has_newline (pending stream))
                 && negb (failing stream))%bool
           /\ error_indicator stream'
              = (error_indicator stream
                 || negb (has_newline (pending stream))
                    && failing stream)%bool).
Proof.
  intros Hu Heof Hbound. unfold scu_readLine.
  rewrite (usable_guard t Hu).
  destruct (first_block a t Hu)
    as (e1 & t1 & Hfirst & Hu1 & Hmono1 & Hcases1 & Hgrants1).
  rewrite Hfirst. cbn [bind].
  destruct Hcases1 as [(-> & ->) | (-> & Hcap1 & mem1 & Hmem1)].
  { eexists _, _, _. split; [reflexivity |]. split; [assumption |].
    split; [lia |]. split; [| now left].
    intros Hall. specialize (Hgrants1 Hall). discriminate. }
  destruct (read_chars_returns a (pending stream)
              (S (length (pending stream))) stream t1 mem1 0
              eq_refl Heof ltac:(lia) Hu1 Hmem1 ltac:(lia) ltac:(lia))
    as (e & s' & t2 & i' & Hrun & Hu2 & Hmono2 & Hcases2 & Hgrants2).
  rewrite Hrun. cbn [bind].
  destruct Hcases2 as [-> | (-> & Hi' & Hroom & (mem2 & Hmem2 & Hf2)
                              & Hpend & Hfail & Heof' & Herr')].
  { eexists _, _, _. split; [reflexivity |]. split; [assumption |].
    split; [lia |]. split; [| now left].
    intros Hall. specialize (Hgrants2 Hall). discriminate. }
  cbn [Z.to_nat firstn app] in Hf2.
  assert (Hlen2 : Z.of_nat (length mem2) = capacity t2)
    by (unfold usable in Hu2; rewrite Hmem2 in Hu2; lia).
  destruct (store_holds t2 mem2 i' (first_line (pending stream)) Hmem2
              ltac:(lia) Hf2) as (t3 & Hstore & Hholds & Hcap3 & Hu3).
  rewrite Hstore. cbn [bind]. unfold ferror, feof.
  rewrite Herr', Heof', Hi', Z.add_0_l.
  set (failed := (error_indicator stream
                  || negb (has_newline (pending stream))
                     && failing stream)%bool) in *.
  set (ended := (negb (has_newline (pending stream))
                 && negb (failing stream)
                 && (Z.of_nat (length (first_line (pending stream)))
                     =? 0))%bool).
  exists (if failed then SCU_ERROR_READING_STREAM_FAILED
          else if ended then SCU_ERROR_END_OF_FILE else SCU_ERROR_NONE),
         s', t3.
  split; [now destruct failed, ended |].
  split; [auto |]. split; [lia |].
  split; [now destruct failed, ended |]. right.
  repeat (split; [assumption || reflexivity |]). assumption.
Qed.

(** [scu_readLine] on a stream whose end-of-file indicator is set: nothing
    is read. *)
Lemma readLine_closed_stream (a : Allocator) (stream : FILE) (t : Target) :
  usable t -> eof_indicator stream = true ->
  exists e t',
    scu_readLine a stream t = Returned (e, stream, t')
    /\ usable t' /\ capacity t <= capacity t'
    /\ ((forall size, grants a size = true) -> e <> SCU_ERROR_OUT_OF_MEMORY)
    /\ (e = SCU_ERROR_OUT_OF_MEMORY
        \/ holds t' []
           /\ e = if error_indicator stream
                  then SCU_ERROR_READING_STREAM_FAILED
                  else SCU_ERROR_END_OF_FILE).
Proof.
  intros Hu Heof. unfold scu_readLine.
  rewrite (usable_guard t Hu).
  destruct (first_block a t Hu)
    as (e1 & t1 & Hfirst & Hu1 & Hmono1 & Hcases1 & Hgrants1).
  rewrite Hfirst. cbn [bind].
  destruct Hcases1 as [(-> & ->) | (-> & Hcap1 & mem1 & Hmem1)].
  { eexists _, _. split; [reflexivity |]. split; [assumption |].
    split; [lia |]. split; [| now left].
    intros Hall. specialize (Hgrants1 Hall). discriminate. }
  cbn [read_chars]. unfold fgetc. rewrite Heof. cbn [bind].
  assert (Hlen1 : Z.of_nat (length mem1) = capacity t1)
    by (unfold usable in Hu1; rewrite Hmem1 in Hu1; lia).
  destruct (store_holds t1 mem1 0 [] Hmem1 ltac:(lia) eq_refl)
    as (t2 & Hstore & Hholds & Hcap2 & Hu2).
  rewrite Hstore. cbn [bind]. unfold ferror, feof. rewrite Heof.
  cbn [andb Z.eqb].
  destruct (error_indicator stream).
  - eexists _, _. split; [reflexivity |]. split; [auto |].
    split; [lia |]. split; [discriminate |]. right. auto.
  - eexists _, _. split; [reflexivity |]. split; [auto |].
    split; [lia |]. split; [discriminate |]. right. auto.
Qed.

Lemma first_line_nonempty (c : byte) (rest : list byte) :
  (Z.of_nat (length (first_line (c :: rest))) =? 0) = false.
Proof.
  apply Z.eqb_neq. cbn [first_line].
  destruct (is_newline c); cbn [length]; lia.
Qed.

Lemma c_string_holds (s rest : list byte) :
  (forall c, In c s -> is_nul c = false) ->
  c_string (s ++ x00 :: rest) = s.
Proof.
  induction s as [|c s IH]; intros Hs; cbn [app c_string].
  - reflexivity.
  - rewrite (Hs c (or_introl eq_refl)). f_equal. apply IH.
    intros c' Hc'. apply Hs. now right.
Qed.

Lemma scan_block (mem : list byte) :
  scan mem (length mem) = Returned (Z.of_nat (length (c_string mem))).
Proof.
  induction mem as [|c mem IH]; cbn [length scan c_string].
  - reflexivity.
  - destruct (is_nul c); [reflexivity |].
    rewrite IH. cbn [bind length]. f_equal. lia.
Qed.

Lemma c_string_prefix (mem : list byte) :
  firstn (length (c_string mem)) mem = c_string mem.
Proof.
  induction mem as [|c mem IH]; cbn [c_string].
  - reflexivity.
  - destruct (is_nul c); [reflexivity |]. cbn [length firstn]. now rewrite IH.
Qed.

Lemma length_c_string (mem : list byte) :
  (length (c_string mem) <= length mem)%nat.
Proof.
  induction mem as [|c mem IH]; cbn [c_string length]; [lia |].
  destruct (is_nul c); cbn [length]; lia.
Qed.

(** What [vsnprintf] leaves in a block with room for the text and its
    terminating zero. *)
Lemma vsnprintf_fits (mem s : list byte) (offset n : Z) :
  0 <= offset -> Z.of_nat (length s) < n ->
  offset + n <= Z.of_nat (length mem) -> n <= INT64_MAX ->
  Z.of_nat (length s) <= INT_MAX ->
  exists rest,
    vsnprintf (Some mem) offset n (Some s)
    = Returned (Z.of_nat (length s),
                Some (firstn (Z.to_nat offset) mem ++ s ++ x00 :: rest))
    /\ length (firstn (Z.to_nat offset) mem ++ s ++ x00 :: rest) = length mem.
Proof.
  intros Ho Hn Hroom Hmax Hint. unfold vsnprintf, vsnprintf_length.
  replace (Z.of_nat (length s) <=? INT_MAX) with true
    by (symmetry; apply Z.leb_le; lia).
  int64. rewrite Z.mod_small by lia.
  replace (n =? 0) with false by (symmetry; apply Z.eqb_neq; lia).
  rewrite firstn_all2 by lia.
  rewrite length_app. cbn [length].
  replace (0 <=? offset) with true by (symmetry; apply Z.leb_le; lia).
  replace (offset + Z.of_nat (length s + 1) <=? Z.of_nat (length mem))
    with true by (symmetry; apply Z.leb_le; lia).
  cbn [andb]. eexists. rewrite <- (app_assoc s). cbn [app].
  split; [reflexivity |]. rewrite !length_app. cbn [length]. len.
Qed.

(** X22.  [scu_ensureCapacity] on a usable pair returns for every
    requirement up to [2^61]: with [SCU_ERROR_NONE] the pair is usable, its
    capacity reaches the requirement without exceeding twice it (or the
    capacity it had), and the characters of the old block are kept; with
    [SCU_ERROR_OUT_OF_MEMORY] block and capacity are as before. *)
Theorem buffer_growth_keeps_characters
  (a : Allocator) (t : Target) (n : Z) :
  usable t -> 0 <= n <= 2 ^ 61 ->
  exists e t',
    scu_ensureCapacity a t n = Returned (e, t')
    /\ usable t'
    /\ (e = SCU_ERROR_NONE
        /\ n <= capacity t' <= Z.max (capacity t) (2 * n)
        /\ capacity t <= capacity t'
        /\ (forall mem, buffer t = Some mem ->
              exists mem',
                buffer t' = Some mem' /\ firstn (length mem) mem' = mem)
        \/ e = SCU_ERROR_OUT_OF_MEMORY /\ t' = t).
Proof.
  intros Hu Hn.
  destruct (ensureCapacity_usable a t n Hu Hn)
    as (e & t' & Hens & Hu' & Hmono & Hcases & _).
  exists e, t'. split; [assumption |]. split; [assumption |].
  destruct Hcases as [(-> & Hcap & Hsame & Hkeep) | (-> & -> & _)];
    [left | now right].
  split; [reflexivity |]. split; [assumption |]. split; [assumption |].
  intros mem Hmem.
  destruct (Z.le_gt_cases n (capacity t)) as [Hle | Hgt].
  - rewrite (Hsame Hle). exists mem. split; [assumption | apply firstn_all].
  - unfold usable in Hu. rewrite Hmem in Hu.
    destruct (Hkeep ltac:(lia)) as (mem' & Hmem' & Hprefix). eauto.
Qed.

Lemma buffer_growth_keeps_characters_witness :
  exists e t',
    scu_ensureCapacity generous no_buffer 128 = Returned (e, t')
    /\ usable t'
    /\ (e = SCU_ERROR_NONE
        /\ 128 <= capacity t' <= Z.max (capacity no_buffer) (2 * 128)
        /\ capacity no_buffer <= capacity t'
        /\ (forall mem, buffer no_buffer = Some mem ->
              exists mem',
                buffer t' = Some mem' /\ firstn (length mem) mem' = mem)
        \/ e = SCU_ERROR_OUT_OF_MEMORY /\ t' = no_buffer).
Proof.
  apply (buffer_growth_keeps_characters generous no_buffer 128).
  - reflexivity.
  - lia.
Defined.

(** X23.  [scu_readLine] on a stream with both indicators clear, given a
    usable pair and enough memory: the buffer holds the first line of what
    was pending -- up to and including the first newline, or everything when
    there is none -- followed by a terminating zero, and the stream is left
    just after it, its indicators still clear when a newline was found.  The result is [SCU_ERROR_NONE] when a newline was found;
    without one it is [SCU_ERROR_READING_STREAM_FAILED] when reading failed,
    [SCU_ERROR_END_OF_FILE] when nothing at all was pending, and
    [SCU_ERROR_NONE] otherwise. *)
Theorem readLine_reads_first_line
  (a : Allocator) (stream : FILE) (t : Target) :
  usable t -> (forall size, grants a size = true) ->
  eof_indicator stream = false -> error_indicator stream = false ->
  Z.of_nat (length (pending stream)) + 2 <= 2 ^ 61 ->
  exists stream' t',
    scu_readLine a stream t
    = Returned (if has_newline (pending stream) then SCU_ERROR_NONE
                else if failing stream then SCU_ERROR_READING_STREAM_FAILED
                else match pending stream with
                     | [] => SCU_ERROR_END_OF_FILE
                     | _ :: _ => SCU_ERROR_NONE
                     end,
                stream', t')
    /\ usable t'
    /\ holds t' (first_line (pending stream))
    /\ pending stream' = after_first_line (pending stream)
    /\ failing stream' = failing stream
    /\ eof_indicator stream'
       = (negb (has_newline (pending stream)) && negb (failing stream))%bool
    /\ error_indicator stream'
       = (negb (has_newline (pending stream)) && failing stream)%bool.
Proof.
  intros Hu Hall Heof Herr Hbound.
  destruct (readLine_open_stream a stream t Hu Heof Hbound)
    as (e & s' & t' & Hrun & Hu' & _ & Hgrants & Hcases).
  destruct Hcases as [-> | (Hholds & Hpend & He & Hfl & Heof' & Herr')];
    [now specialize (Hgrants Hall) |].
  rewrite Herr in Herr'. cbn [orb] in Herr'.
  exists s', t'. split; [| repeat (split; [assumption |]); assumption].
  rewrite Hrun. f_equal. f_equal. f_equal. rewrite He, Herr. cbn [orb].
  destruct (has_newline (pending stream)); cbn [negb andb]; [reflexivity |].
  destruct (failing stream); cbn [negb andb]; [reflexivity |].
  destruct (pending stream) as [|c rest]; [reflexivity |].
  now rewrite first_line_nonempty.
Qed.

Lemma readLine_reads_first_line_witness :
  exists stream' t',
    scu_readLine generous two_lines no_buffer
    = Returned (if has_newline (pending two_lines) then SCU_ERROR_NONE
                else if failing two_lines then SCU_ERROR_READING_STREAM_FAILED
                else match pending two_lines with
                     | [] => SCU_ERROR_END_OF_FILE
                     | _ :: _ => SCU_ERROR_NONE
                     end,
                stream', t')
    /\ usable t'
    /\ holds t' (first_line (pending two_lines))
    /\ pending stream' = after_first_line (pending two_lines)
    /\ failing stream' = failing two_lines
    /\ eof_indicator stream'
       = (negb (has_newline (pending two_lines))
          && negb (failing two_lines))%bool
    /\ error_indicator stream'
       = (negb (has_newline (pending two_lines)) && failing two_lines)%bool.
Proof.
  apply (readLine_reads_first_line generous two_lines no_buffer).
  - reflexivity.
  - intros size. reflexivity.
  - reflexivity.
  - reflexivity.
  - vm_compute. discriminate.
Defined.

(** X24.  Whatever the allocator answers and whatever the indicators of
    the stream are, [scu_readLine] on a usable pair returns, the pair it
    leaves is usable again and its capacity has not shrunk; the result is
    never [SCU_ERROR_INVALID_ARGUMENT], and it is
    [SCU_ERROR_OUT_OF_MEMORY] only if the allocator refused a request. *)
Theorem readLine_leaves_buffer_usable
  (a : Allocator) (stream : FILE) (t : Target) :
  usable t ->
  Z.of_nat (length (pending stream)) + 2 <= 2 ^ 61 ->
  exists e stream' t',
    scu_readLine a stream t = Returned (e, stream', t')
    /\ usable t' /\ capacity t <= capacity t'
    /\ e <> SCU_ERROR_INVALID_ARGUMENT
    /\ ((forall size, grants a size = true) -> e <> SCU_ERROR_OUT_OF_MEMORY).
Proof.
  intros Hu Hbound. destruct (eof_indicator stream) eqn:Heof.
  - destruct (readLine_closed_stream a stream t Hu Heof)
      as (e & t' & Hrun & Hu' & Hmono & Hgrants & Hcases).
    exists e, stream, t'. split; [assumption |]. split; [assumption |].
    split; [assumption |]. split; [| assumption].
    destruct Hcases as [-> | (_ & ->)]; [discriminate |].
    destruct (error_indicator stream); discriminate.
  - destruct (readLine_open_stream a stream t Hu Heof Hbound)
      as (e & s' & t' & Hrun & Hu' & Hmono & Hgrants & Hcases).
    exists e, s', t'. split; [assumption |]. split; [assumption |].
    split; [assumption |]. split; [| assumption].
    destruct Hcases as [-> | (_ & _ & -> & _)]; [discriminate |].
    destruct (_ || _)%bool; [discriminate |].
    destruct (_ && _)%bool; discriminate.
Qed.

Lemma readLine_leaves_buffer_usable_witness :
  exists e stream' t',
    scu_readLine exhausted two_lines no_buffer = Returned (e, stream', t')
    /\ usable t' /\ capacity no_buffer <= capacity t'
    /\ e <> SCU_ERROR_INVALID_ARGUMENT
    /\ ((forall size, grants exhausted size = true) ->
        e <> SCU_ERROR_OUT_OF_MEMORY).
Proof.
  apply (readLine_leaves_buffer_usable exhausted two_lines no_buffer).
  - reflexivity.
  - vm_compute. discriminate.
Defined.

(** X25.  The indicators a stream already carries decide the result.  With
    the error indicator set (and the end-of-file indicator clear) the line
    is read into the buffer and taken off the stream, yet the call reports
    [SCU_ERROR_READING_STREAM_FAILED].  With the end-of-file indicator set
    nothing is read: the stream is untouched, the buffer holds the empty
    string, and the result is [SCU_ERROR_END_OF_FILE], or
    [SCU_ERROR_READING_STREAM_FAILED] if the error indicator is set too. *)
Theorem readLine_with_indicator_set
  (a : Allocator) (stream : FILE) (t : Target) :
  usable t -> (forall size, grants a size = true) ->
  Z.of_nat (length (pending stream)) + 2 <= 2 ^ 61 ->
  (eof_indicator stream || error_indicator stream)%bool = true ->
  exists e stream' t',
    scu_readLine a stream t = Returned (e, stream', t')
    /\ if eof_indicator stream
       then stream' = stream /\ holds t' []
            /\ e = (if error_indicator stream
                    then SCU_ERROR_READING_STREAM_FAILED
                    else SCU_ERROR_END_OF_FILE)
       else holds t' (first_line (pending stream))
            /\ pending stream' = after_first_line (pending stream)
            /\ e = SCU_ERROR_READING_STREAM_FAILED.
Proof.
  intros Hu Hall Hbound Hset. destruct (eof_indicator stream) eqn:Heof.
  - destruct (readLine_closed_stream a stream t Hu Heof)
      as (e & t' & Hrun & _ & _ & Hgrants & Hcases).
    exists e, stream, t'. split; [assumption |].
    destruct Hcases as [-> | (Hholds & ->)];
      [now specialize (Hgrants Hall) | auto].
  - cbn [orb] in Hset.
    destruct (readLine_open_stream a stream t Hu Heof Hbound)
      as (e & s' & t' & Hrun & _ & _ & Hgrants & Hcases).
    exists e, s', t'. split; [assumption |].
    destruct Hcases as [-> | (Hholds & Hpend & -> & _)];
      [now specialize (Hgrants Hall) |].
    rewrite Hset. cbn [orb]. auto.
Qed.

Lemma readLine_with_indicator_set_witness :
  exists e stream' t',
    scu_readLine generous
      {| pending := pending two_lines; failing := false;
         eof_indicator := false; error_indicator := true |} no_buffer
    = Returned (e, stream', t')
    /\ holds t' (first_line (pending two_lines))
    /\ pending stream' = after_first_line (pending two_lines)
    /\ e = SCU_ERROR_READING_STREAM_FAILED.
Proof.
  apply (readLine_with_indicator_set generous
           {| pending := pending two_lines; failing := false;
              eof_indicator := false; error_indicator := true |} no_buffer).
  - reflexivity.
  - intros size. reflexivity.
  - vm_compute. discriminate.
  - reflexivity.
Defined.

(** [scu_vrsnprintf] on a usable pair. *)
Lemma vrsnprintf_returns
  (a : Allocator) (t : Target) (s : list byte) :
  usable t -> Z.of_nat (length s) <= INT_MAX ->
  exists e t',
    scu_vrsnprintf a t (Some s) = Returned (e, t')
    /\ usable t'
    /\ (e = SCU_ERROR_NONE
        /\ holds t' s
        /\ capacity t <= capacity t'
        /\ Z.of_nat (length s) < capacity t'
        /\ (Z.of_nat (length s) < capacity t -> capacity t' = capacity t)
        \/ e = SCU_ERROR_OUT_OF_MEMORY /\ t' = t)
    /\ ((forall size, grants a size = true) -> e = SCU_ERROR_NONE).
Proof.
  intros Hu Hint. unfold scu_vrsnprintf. rewrite (usable_guard t Hu).
  assert (Hlength : vsnprintf_length (Some s) = Z.of_nat (length s)).
  { unfold vsnprintf_length.
    now replace (Z.of_nat (length s) <=? INT_MAX) with true
      by (symmetry; apply Z.leb_le; lia). }
  cbv zeta. rewrite Hlength.
  replace (Z.of_nat (length s) <? 0) with false
    by (symmetry; apply Z.ltb_ge; lia).
  unfold INT_MAX in Hint.
  unfold add64. rewrite checked_in_range by (int64; lia). cbn [bind].
  destruct (ensureCapacity_usable a t (Z.of_nat (length s) + 1) Hu
              ltac:(lia))
    as (e1 & t1 & Hens & Hu1 & Hmono & Hcases & Hgrants).
  rewrite Hens. cbn [bind].
  destruct Hcases as [(-> & Hcap1 & Hsame & Hkeep) | (-> & -> & _)].
  2:{ eexists _, _. split; [reflexivity |]. split; [assumption |].
      split; [now right | assumption]. }
  destruct (Hkeep ltac:(lia)) as (mem1 & Hmem1 & _).
  assert (Hlen1 : Z.of_nat (length mem1) = capacity t1 /\ capacity t1 <= INT64_MAX)
    by (unfold usable in Hu1; rewrite Hmem1 in Hu1; lia).
  destruct (vsnprintf_fits mem1 s 0 (capacity t1) ltac:(lia) ltac:(lia)
              ltac:(lia) ltac:(lia) ltac:(unfold INT_MAX; lia))
    as (rest & Hwrite & Hlen').
  rewrite Hmem1, Hwrite. cbn [bind Z.to_nat firstn app] in *.
  replace (Z.of_nat (length s) <? 0) with false
    by (symmetry; apply Z.ltb_ge; lia).
  eexists _, _. split; [reflexivity |].
  split; [unfold usable; cbn [buffer capacity]; rewrite Hlen'; lia |].
  split; [| intros _; reflexivity]. left.
  split; [reflexivity |].
  split; [unfold holds; cbn [buffer]; eauto |].
  cbn [capacity]. split; [lia |]. split; [lia |].
  intros Hroom. now rewrite (Hsame ltac:(lia)).
Qed.


(** X26.  [scu_vrsnprintf] on a usable pair, for a text of at most
    [INT_MAX] characters: with [SCU_ERROR_NONE] the buffer holds the text
    and a terminating zero (so that, the text being free of zeros, the
    string in the buffer is the text), the pair is usable, and the capacity
    is that of before when it sufficed; with [SCU_ERROR_OUT_OF_MEMORY]
    block and capacity are as before.  There is no other result, and with
    enough memory the call succeeds. *)
Theorem vrsnprintf_writes_text
  (a : Allocator) (t : Target) (s : list byte) :
  usable t -> Z.of_nat (length s) <= INT_MAX ->
  exists e t',
    scu_vrsnprintf a t (Some s) = Returned (e, t')
    /\ usable t'
    /\ (e = SCU_ERROR_NONE
        /\ holds t' s
        /\ ((forall c, In c s -> is_nul c = false) -> text_of t' = s)
        /\ Z.of_nat (length s) < capacity t'
        /\ (Z.of_nat (length s) < capacity t -> capacity t' = capacity t)
        \/ e = SCU_ERROR_OUT_OF_MEMORY /\ t' = t)
    /\ ((forall size, grants a size = true) -> e = SCU_ERROR_NONE).
Proof.
  intros Hu Hint.
  destruct (vrsnprintf_returns a t s Hu Hint)
    as (e & t' & Hrun & Hu' & Hcases & Hgrants).
  exists e, t'. split; [assumption |]. split; [assumption |].
  split; [| assumption].
  destruct Hcases as [(-> & Hholds & _ & Hroom & Hsame) | ?];
    [left | now right].
  split; [reflexivity |]. split; [assumption |].
  split; [| auto].
  intros Hs. destruct Hholds as (rest & Hbuf).
  unfold text_of. rewrite Hbuf. now apply c_string_holds.
Qed.

Lemma vrsnprintf_writes_text_witness :
  exists e t',
    scu_vrsnprintf generous no_buffer (Some (bytes_of [104; 105]))
    = Returned (e, t')
    /\ usable t'
    /\ (e = SCU_ERROR_NONE
        /\ holds t' (bytes_of [104; 105])
        /\ ((forall c, In c (bytes_of [104; 105]) -> is_nul c = false) ->
            text_of t' = bytes_of [104; 105])
        /\ Z.of_nat (length (bytes_of [104; 105])) < capacity t'
        /\ (Z.of_nat (length (bytes_of [104; 105])) < capacity no_buffer ->
            capacity t' = capacity no_buffer)
        \/ e = SCU_ERROR_OUT_OF_MEMORY /\ t' = no_buffer)
    /\ ((forall size, grants generous size = true) -> e = SCU_ERROR_NONE).
Proof.
  apply (vrsnprintf_writes_text generous no_buffer (bytes_of [104; 105])).
  - reflexivity.
  - vm_compute. discriminate.
Defined.

(** X27.  [scu_vrasnprintf] appends: on a usable pair, for a text of at
    most [INT_MAX] characters, with [SCU_ERROR_NONE] the buffer holds the
    string it held before followed by the text and a terminating zero;
    with [SCU_ERROR_OUT_OF_MEMORY] block and capacity are as before.  There
    is no other result, and with enough memory the call succeeds. *)
Theorem vrasnprintf_appends_text
  (a : Allocator) (t : Target) (s : list byte) :
  usable t -> Z.of_nat (length s) <= INT_MAX ->
  capacity t + Z.of_nat (length s) + 1 <= 2 ^ 61 ->
  exists e t',
    scu_vrasnprintf a t (Some s) = Returned (e, t')
    /\ usable t'
    /\ (e = SCU_ERROR_NONE
        /\ holds t' (text_of t ++ s)
        /\ capacity t <= capacity t'
        \/ e = SCU_ERROR_OUT_OF_MEMORY /\ t' = t)
    /\ ((forall size, grants a size = true) -> e = SCU_ERROR_NONE).
Proof.
  intros Hu Hint Hbound. unfold scu_vrasnprintf.
  rewrite (usable_guard t Hu).
  destruct (buffer t) as [mem|] eqn:Hmem.
  2:{ destruct (vrsnprintf_returns a t s Hu Hint)
        as (e & t' & Hrun & Hu' & Hcases & Hgrants).
      exists e, t'. split; [assumption |]. split; [assumption |].
      split; [| assumption]. unfold text_of. rewrite Hmem. cbn [app].
      destruct Hcases as [(-> & Hholds & Hmono & _) | ?]; [left | now right].
      auto. }
  assert (Hlen : Z.of_nat (length mem) = capacity t /\ 0 < capacity t <= INT64_MAX)
    by (unfold usable in Hu; rewrite Hmem in Hu; lia).
  unfold strnlen. int64. rewrite Z.mod_small by lia.
  replace (Z.to_nat (capacity t)) with (length mem) by lia.
  rewrite scan_block. cbn [bind].
  pose proof (length_c_string mem) as Hoff.
  pose proof (c_string_prefix mem) as Hprefix.
  set (old := c_string mem) in *.
  assert (Hlength : vsnprintf_length (Some s) = Z.of_nat (length s)).
  { unfold vsnprintf_length.
    now replace (Z.of_nat (length s) <=? INT_MAX) with true
      by (symmetry; apply Z.leb_le; lia). }
  cbv zeta. rewrite Hlength.
  replace (Z.of_nat (length s) <? 0) with false
    by (symmetry; apply Z.ltb_ge; lia).
  unfold add64.
  rewrite checked_in_range by (unfold INT64_MIN, INT64_MAX; lia).
  cbn [bind].
  rewrite checked_in_range by (unfold INT64_MIN, INT64_MAX; lia).
  cbn [bind].
  destruct (ensureCapacity_usable a t
              (Z.of_nat (length old) + Z.of_nat (length s) + 1) Hu
              ltac:(lia))
    as (e1 & t1 & Hens & Hu1 & Hmono & Hcases & Hgrants).
  rewrite Hens. cbn [bind].
  destruct Hcases as [(-> & Hcap1 & Hsame & Hkeep) | (-> & -> & _)].
  2:{ eexists _, _. split; [reflexivity |]. split; [assumption |].
      split; [now right | assumption]. }
  destruct (Hkeep ltac:(lia)) as (mem1 & Hmem1 & Hkept).
  specialize (Hkept mem Hmem).
  assert (Hlen1 : Z.of_nat (length mem1) = capacity t1 /\ capacity t1 <= INT64_MAX)
    by (unfold usable in Hu1; rewrite Hmem1 in Hu1;
        unfold INT64_MAX in *; lia).
  unfold sub64.
  rewrite checked_in_range by (unfold INT64_MIN, INT64_MAX; lia).
  cbn [bind].
  destruct (vsnprintf_fits mem1 s (Z.of_nat (length old))
              (capacity t1 - Z.of_nat (length old))
              ltac:(lia) ltac:(lia) ltac:(lia)
              ltac:(unfold INT64_MAX; lia) Hint)
    as (rest & Hwrite & Hlen').
  rewrite Hmem1, Hwrite. cbn [bind].
  replace (Z.of_nat (length s) <? 0) with false
    by (symmetry; apply Z.ltb_ge; lia).
  rewrite Nat2Z.id in *.
  assert (Hold : firstn (length old) mem1 = old).
  { rewrite <- Hkept in Hprefix. rewrite firstn_firstn in Hprefix.
    now replace (Nat.min (length old) (length mem)) with (length old)
      in Hprefix by lia. }
  rewrite Hold in *.
  eexists _, _. split; [reflexivity |].
  split; [unfold usable; cbn [buffer capacity]; rewrite Hlen';
          unfold INT64_MAX; lia |].
  split; [| intros _; reflexivity]. left.
  split; [reflexivity |]. split; [| cbn [capacity]; lia].
  unfold holds, text_of. cbn [buffer]. fold old.
  exists rest. rewrite Hmem. fold old. now rewrite <- app_assoc.
Qed.

Lemma vrasnprintf_appends_text_witness :
  exists e t',
    scu_vrasnprintf generous
      {| buffer := Some (bytes_of [104; 105; 0; 120]); capacity := 4 |}
      (Some (bytes_of [33; 33; 33]))
    = Returned (e, t')
    /\ usable t'
    /\ (e = SCU_ERROR_NONE
        /\ holds t' (bytes_of [104; 105] ++ bytes_of [33; 33; 33])
        /\ 4 <= capacity t'
        \/ e = SCU_ERROR_OUT_OF_MEMORY
           /\ t' = {| buffer := Some (bytes_of [104; 105; 0; 120]);
                      capacity := 4 |})
    /\ ((forall size, grants generous size = true) -> e = SCU_ERROR_NONE).
Proof.
  apply (vrasnprintf_appends_text generous
           {| buffer := Some (bytes_of [104; 105; 0; 120]); capacity := 4 |}
           (bytes_of [33; 33; 33])).
  - unfold usable. cbn [buffer capacity]. int64. split; [lia | reflexivity].
  - vm_compute. discriminate.
  - vm_compute. discriminate.
Defined.

Lemma length_after_first_line (chars : list byte) :
  (length (after_first_line chars) <= length chars)%nat.
Proof.
  induction chars as [|c rest IH]; cbn [after_first_line length]; [lia |].
  destruct (is_newline c); lia.
Qed.

(** X28.  Lines come one after the other: when the pending characters
    hold a complete line, a first call returns [SCU_ERROR_NONE] with that
    line in the buffer, and a second call with the same pair reads the line
    after it, the capacity never shrinking. *)
Theorem readLine_again_reads_next_line
  (a : Allocator) (stream : FILE) (t : Target) :
  usable t -> (forall size, grants a size = true) ->
  eof_indicator stream = false -> error_indicator stream = false ->
  Z.of_nat (length (pending stream)) + 2 <= 2 ^ 61 ->
  has_newline (pending stream) = true ->
  exists stream1 t1 e stream2 t2,
    scu_readLine a stream t = Returned (SCU_ERROR_NONE, stream1, t1)
    /\ holds t1 (first_line (pending stream))
    /\ scu_readLine a stream1 t1 = Returned (e, stream2, t2)
    /\ holds t2 (first_line (after_first_line (pending stream)))
    /\ pending stream2
       = after_first_line (after_first_line (pending stream))
    /\ capacity t <= capacity t1 <= capacity t2.
Proof.
  intros Hu Hall Heof Herr Hbound Hnl.
  destruct (readLine_open_stream a stream t Hu Heof Hbound)
    as (e1 & s1 & t1 & Hrun1 & Hu1 & Hmono1 & Hgrants1 & Hcases1).
  destruct Hcases1 as [-> | (Hholds1 & Hpend1 & He1 & _ & Heof1 & _)];
    [now specialize (Hgrants1 Hall) |].
  rewrite Herr, Hnl in He1. cbn [negb andb orb] in He1. subst e1.
  rewrite Hnl in Heof1. cbn [negb andb] in Heof1.
  pose proof (length_after_first_line (pending stream)) as Hshorter.
  destruct (readLine_open_stream a s1 t1 Hu1 Heof1
              ltac:(rewrite Hpend1; lia))
    as (e2 & s2 & t2 & Hrun2 & Hu2 & Hmono2 & Hgrants2 & Hcases2).
  destruct Hcases2 as [-> | (Hholds2 & Hpend2 & _)];
    [now specialize (Hgrants2 Hall) |].
  rewrite Hpend1 in Hholds2, Hpend2.
  exists s1, t1, e2, s2, t2.
  repeat (split; [assumption |]). lia.
Qed.

Lemma readLine_again_reads_next_line_witness :
  exists stream1 t1 e stream2 t2,
    scu_readLine generous two_lines no_buffer
    = Returned (SCU_ERROR_NONE, stream1, t1)
    /\ holds t1 (first_line (pending two_lines))
    /\ scu_readLine generous stream1 t1 = Returned (e, stream2, t2)
    /\ holds t2 (first_line (after_first_line (pending two_lines)))
    /\ pending stream2
       = after_first_line (after_first_line (pending two_lines))
    /\ capacity no_buffer <= capacity t1 <= capacity t2.
Proof.
  apply (readLine_again_reads_next_line generous two_lines no_buffer).
  - reflexivity.
  - intros size. reflexivity.
  - reflexivity.
  - reflexivity.
  - vm_compute. discriminate.
  - reflexivity.
Defined.

End IOFacts.
